(** * helpfun.c of the iLBC codec: a shallow embedding and its properties

    The C file holds the numerical helpers of the LPC front end:
    [autocorr], [window], [levdurb], [interpolate], [bwexpand], [vq],
    [SplitVQ], [sort_sq] and [LSF_check].  They work on [float] buffers
    passed by pointer with explicit lengths.  The embedding keeps both:

    - a C [float] is an IEEE-754 binary32 number, modelled by the
      [spec_float] of the standard library at precision 24 and maximal
      exponent 128.  Every arithmetic operator rounds its result to
      nearest even, as C does when [FLT_EVAL_METHOD] is 0 and products
      are not fused with sums (SSE2, AArch64 without contraction);
    - a buffer is a [list float], or a [list Z] for the [int] buffers of
      [SplitVQ]; reading or writing outside of it is undefined
      behaviour in C and is the fault [OutOfBounds i] here.  Distinct
      parameters are distinct buffers;
    - an [int] is a [Z], which does not wrap around.  Overflow of an
      [int] is undefined behaviour in C and has no counterpart here:
      a statement is about the source where the loop counters and
      buffer offsets of the source stay between [INT_MIN] and
      [INT_MAX], which the hypotheses see to by bounding them by a
      buffer length or by these two constants.

    Output buffers are passed in with their old contents and returned.
    The constants [EPS] and [FLOAT_MAX] are defined in a header that is
    not among the sources; [levdurb], [vq] and [SplitVQ] take them as
    a parameter. *)

From Stdlib Require Import ZArith Bool Lia.
From Stdlib Require Import Floats.SpecFloat.
From stdpp Require Import base list.

Local Open Scope Z_scope.

(** ** binary32 *)

Module B32.

Definition prec : Z := 24.
Definition emax : Z := 128.

Definition float : Type := spec_float.

Definition add : float -> float -> float := SFadd prec emax.
Definition sub : float -> float -> float := SFsub prec emax.
Definition mul : float -> float -> float := SFmul prec emax.
Definition div : float -> float -> float := SFdiv prec emax.

Definition ltb : float -> float -> bool := SFltb.
Definition leb : float -> float -> bool := SFleb.
Definition eqb : float -> float -> bool := SFeqb.

(** [(float) z] for an integer constant. *)
Definition of_Z (z : Z) : float := binary_normalize prec emax z 0 false.

(** [m * 2^e], rounded; exact whenever [m] has at most 24 bits and the
    result is in range. *)
Definition ldexp (m e : Z) : float := binary_normalize prec emax m e false.

Definition zero : float := S754_zero false.
Definition one : float := Eval vm_compute in of_Z 1.
Definition two : float := Eval vm_compute in of_Z 2.

Definition is_nan (x : float) : bool :=
  match x with S754_nan => true | _ => false end.

(** A real number: neither an infinity nor a NaN, and in canonical
    form (the only form a C [float] has). *)
Definition is_finite (x : float) : bool :=
  match x with
  | S754_zero _ => true
  | S754_finite _ m e => bounded prec emax m e
  | _ => false
  end.

Definition is_zero (x : float) : bool :=
  match x with S754_zero _ => true | _ => false end.

(** Unary minus. *)
Definition opp : float -> float := SFopp.

(** [fabsf]. *)
Definition abs : float -> float := SFabs.

(** The value of a real number in units of [2^-149], the smallest
    positive [float]: an integer. *)
Definition scaled (x : float) : Z :=
  match x with
  | S754_finite s m e => cond_Zopp s (Zpos m * 2 ^ (e + 149))
  | _ => 0
  end.

(** The sign bit, where there is one. *)
Definition sign_of (x : float) : option bool :=
  match x with
  | S754_zero s | S754_infinity s | S754_finite s _ _ => Some s
  | S754_nan => None
  end.

(** The comparisons of [spec_float] order the numbers by sign class,
    then exponent, then mantissa.  [key_of] makes this explicit: on
    numbers that are not NaN, [x < y] is the lexicographic order of the
    keys. *)
Record key : Type := { k_class : Z; k_exp : Z; k_man : Z }.

Definition key_of (x : float) : key :=
  match x with
  | S754_infinity true => {| k_class := -2; k_exp := 0; k_man := 0 |}
  | S754_finite true m e => {| k_class := -1; k_exp := - e; k_man := - Zpos m |}
  | S754_zero _ | S754_nan => {| k_class := 0; k_exp := 0; k_man := 0 |}
  | S754_finite false m e => {| k_class := 1; k_exp := e; k_man := Zpos m |}
  | S754_infinity false => {| k_class := 2; k_exp := 0; k_man := 0 |}
  end.

Definition key_lt (p q : key) : Prop :=
  k_class p < k_class q \/
  (k_class p = k_class q /\
   (k_exp p < k_exp q \/ (k_exp p = k_exp q /\ k_man p < k_man q))).

Definition key_le (p q : key) : Prop :=
  k_class p < k_class q \/
  (k_class p = k_class q /\
   (k_exp p < k_exp q \/ (k_exp p = k_exp q /\ k_man p <= k_man q))).

End B32.

Abbreviation float := B32.float.

Declare Scope f32_scope.
Delimit Scope f32_scope with F.
Bind Scope f32_scope with B32.float.

Infix "+" := B32.add : f32_scope.
Infix "-" := B32.sub : f32_scope.
Infix "*" := B32.mul : f32_scope.
Infix "/" := B32.div : f32_scope.
Infix "<?" := B32.ltb : f32_scope.
Infix "<=?" := B32.leb : f32_scope.
Infix "=?" := B32.eqb : f32_scope.
Notation "- x" := (B32.opp x) : f32_scope.
Notation "x >? y" := (B32.ltb y x) (only parsing) : f32_scope.
Notation "x >=? y" := (B32.leb y x) (only parsing) : f32_scope.

(** ** Outcomes of a C function body *)

Inductive outcome (A : Type) : Type :=
| Done (a : A)
| OutOfBounds (i : Z)
| OutOfFuel.

Arguments Done {A} a.
Arguments OutOfBounds {A} i.
Arguments OutOfFuel {A}.

Definition bind {A B : Type} (c : outcome A) (k : A -> outcome B) : outcome B :=
  match c with
  | Done a => k a
  | OutOfBounds i => OutOfBounds i
  | OutOfFuel => OutOfFuel
  end.

Declare Scope c_scope.
Delimit Scope c_scope with C.

Notation "x <- c ;; k" := (bind c (fun x => k))
  (at level 100, c at next level, right associativity) : c_scope.

Local Open Scope c_scope.

(** [buf[i]] as an rvalue. *)
Definition load (buf : list float) (i : Z) : outcome float :=
  if i <? 0 then OutOfBounds i
  else match buf !! Z.to_nat i with
       | Some v => Done v
       | None => OutOfBounds i
       end.

(** [buf[i] = v]. *)
Definition store (buf : list float) (i : Z) (v : float) : outcome (list float) :=
  if (0 <=? i) && (i <? Z.of_nat (length buf))
  then Done (<[Z.to_nat i := v]> buf)
  else OutOfBounds i.

(** [for (i = lo; i < lo + n; i++) s = body(i, s);] *)
Fixpoint for_range {S : Type} (n : nat) (i : Z)
    (body : Z -> S -> outcome S) (s : S) : outcome S :=
  match n with
  | O => Done s
  | Datatypes.S n' => s' <- body i s ;; for_range n' (i + 1) body s'
  end.

(** [for (i = lo; i < hi; i++) s = body(i, s);] *)
Definition for_loop {S : Type} (lo hi : Z)
    (body : Z -> S -> outcome S) (s : S) : outcome S :=
  for_range (Z.to_nat (hi - lo)) lo body s.

(** ** scalar quantization *)

Section SortSq.

Variable x : float.
Variable cb : list float.
Variable cb_size : Z.

(** [while ((x > cb[i])  &&  i < cb_size - 1) i++;] *)
Fixpoint sort_sq_scan (fuel : nat) (i : Z) : outcome Z :=
  ci <- load cb i ;;
  if (x >? ci)%F && (i <? cb_size - 1) then
    match fuel with
    | O => OutOfFuel
    | S fuel' => sort_sq_scan fuel' (i + 1)
    end
  else Done i.

(** The pair returned is [( *xq, *index )]. *)
Definition sort_sq : outcome (float * Z) :=
  c0 <- load cb 0 ;;
  if (x <=? c0)%F then
    xq <- load cb 0 ;;
    Done (xq, 0)
  else
    i <- sort_sq_scan (Z.to_nat cb_size) 0 ;;
    ci <- load cb i ;;
    cj <- load cb (i - 1) ;;
    if (x >? (ci + cj) / B32.two)%F then
      xq <- load cb i ;;
      Done (xq, i)
    else
      xq <- load cb (i - 1) ;;
      Done (xq, i - 1).

End SortSq.

(** ** calculation of auto correlation *)

(** [r] is the output buffer, [x] the data vector of length [N]. *)
Definition autocorr (r x : list float) (N order : Z) : outcome (list float) :=
  for_loop 0 (order + 1) (fun lag r =>
    sum <- for_loop 0 (N - lag) (fun n sum =>
             xn <- load x n ;;
             xl <- load x (n + lag) ;;
             Done (sum + xn * xl)%F) B32.zero ;;
    store r lag sum) r.

(** ** window multiplication *)

(** [z] is the output buffer, [x] the data and [y] the window. *)
Definition window (z x y : list float) (N : Z) : outcome (list float) :=
  for_loop 0 N (fun i z =>
    xi <- load x i ;;
    yi <- load y i ;;
    store z i (xi * yi)%F) z.

(** ** levinson-durbin solution for lpc coefficients *)

Section Levdurb.

(** [EPS] comes from a header that is not part of the sources at hand;
    the solver is parametric in it. *)
Variable EPS : float.

(** The butterfly update of [a[1..m]] with [k[m]]. *)
Definition levdurb_update (k : list float) (m : Z) (a : list float)
    : outcome (list float) :=
  for_loop 0 (Z.shiftr (m + 1) 1) (fun i a =>
    ai <- load a (i + 1) ;;
    km <- load k m ;;
    ami <- load a (m - i) ;;
    let sum := (ai + km * ami)%F in
    a <- store a (m - i) (ami + km * ai)%F ;;
    store a (i + 1) sum) a.

(** One order [m] of the recursion, on the state [(a, k, alpha)]. *)
Definition levdurb_order (r : list float) (m : Z)
    (st : list float * list float * float)
    : outcome (list float * list float * float) :=
  let '(a, k, alpha) := st in
  rm <- load r (m + 1) ;;
  sum <- for_loop 0 m (fun i sum =>
           ai <- load a (i + 1) ;;
           ri <- load r (m - i) ;;
           Done (sum + ai * ri)%F) rm ;;
  k <- store k m (- sum / alpha)%F ;;
  km <- load k m ;;
  let alpha := (alpha + km * sum)%F in
  a <- levdurb_update k m a ;;
  a <- store a (m + 1) km ;;
  Done (a, k, alpha).

(** The pair returned is the buffers [(a, k)]. *)
Definition levdurb (a k r : list float) (order : Z)
    : outcome (list float * list float) :=
  a <- store a 0 B32.one ;;
  r0 <- load r 0 ;;
  if (r0 <? EPS)%F then
    for_loop 0 order (fun i ak =>
      k <- store (snd ak) i B32.zero ;;
      a <- store (fst ak) (i + 1) B32.zero ;;
      Done (a, k)) (a, k)
  else
    r1 <- load r 1 ;;
    k <- store k 0 (- r1 / r0)%F ;;
    k0 <- load k 0 ;;
    a <- store a 1 k0 ;;
    let alpha := (r0 + r1 * k0)%F in
    st <- for_loop 1 order (levdurb_order r) (a, k, alpha) ;;
    Done (fst st).

End Levdurb.

(** ** interpolation between vectors *)

Definition interpolate (out in1 in2 : list float) (coef : float) (length : Z)
    : outcome (list float) :=
  let invcoef := (B32.one - coef)%F in
  for_loop 0 length (fun i out =>
    a <- load in1 i ;;
    b <- load in2 i ;;
    store out i (coef * a + invcoef * b)%F) out.

(** ** lpc bandwidth expansion *)

(** The state of the loop is the pair [(out, chirp)].  The parameter
    [in] of the source is [inp] here. *)
Definition bwexpand (out inp : list float) (coef : float) (length : Z)
    : outcome (list float) :=
  let chirp := coef in
  in0 <- load inp 0 ;;
  out <- store out 0 in0 ;;
  st <- for_loop 1 length (fun i st =>
          ini <- load inp i ;;
          out <- store (fst st) i (snd st * ini)%F ;;
          Done (out, (snd st * coef)%F)) (out, chirp) ;;
  Done (fst st).

(** ** vector quantization *)

Section Vq.

(** [FLOAT_MAX] comes from a header that is not part of the sources at
    hand; the search is parametric in it. *)
Variable FLOAT_MAX : float.

Variable CB : list float.
Variable X : list float.
Variable dim : Z.

(** The squared distance from [X] to the codebook vector at [pos], as
    the body of the outer loop accumulates it. *)
Definition vq_dist (pos : Z) : outcome float :=
  x0 <- load X 0 ;;
  c0 <- load CB pos ;;
  let dist := (x0 - c0)%F in
  let dist := (dist * dist)%F in
  for_loop 1 dim (fun i dist =>
    xi <- load X i ;;
    ci <- load CB (pos + i) ;;
    let tmp := (xi - ci)%F in
    Done (dist + tmp * tmp)%F) dist.

(** The locals [(pos, mindist, minindex)] of the search loop. *)
Record vq_locals : Type :=
  { vq_pos : Z; vq_mindist : float; vq_minindex : Z }.

Definition vq_step (j : Z) (st : vq_locals) : outcome vq_locals :=
  dist <- vq_dist (vq_pos st) ;;
  if (dist <? vq_mindist st)%F then
    Done {| vq_pos := vq_pos st + dim; vq_mindist := dist; vq_minindex := j |}
  else
    Done {| vq_pos := vq_pos st + dim; vq_mindist := vq_mindist st;
            vq_minindex := vq_minindex st |}.

Definition vq_search (n_cb : Z) : outcome vq_locals :=
  for_loop 0 n_cb vq_step
    {| vq_pos := 0; vq_mindist := FLOAT_MAX; vq_minindex := 0 |}.

(** The pair returned is [(Xq, *index)]. *)
Definition vq (Xq : list float) (n_cb : Z) : outcome (list float * Z) :=
  st <- vq_search n_cb ;;
  Xq <- for_loop 0 dim (fun i Xq =>
          c <- load CB (vq_minindex st * dim + i) ;;
          store Xq i c) Xq ;;
  Done (Xq, vq_minindex st).

End Vq.

(** ** split vector quantization *)

(** [buf[i]] and [buf[i] = v] on a buffer of [int]. *)
Definition load_int (buf : list Z) (i : Z) : outcome Z :=
  if i <? 0 then OutOfBounds i
  else match buf !! Z.to_nat i with
       | Some v => Done v
       | None => OutOfBounds i
       end.

Definition store_int (buf : list Z) (i : Z) (v : Z) : outcome (list Z) :=
  if (0 <=? i) && (i <? Z.of_nat (length buf))
  then Done (<[Z.to_nat i := v]> buf)
  else OutOfBounds i.

(** [buf + off] as an argument: the callee sees the buffer from [off]
    on.  The pointer must point into the buffer or just past its end.
    An index below [0] from the new base is a fault here; [vq] forms
    none when its [dim] is not negative. *)
Definition offset (buf : list float) (off : Z) : outcome (list float) :=
  if (0 <=? off) && (off <=? Z.of_nat (length buf))
  then Done (drop (Z.to_nat off) buf)
  else OutOfBounds off.

(** The buffer once the callee has written [part] through [buf + off]. *)
Definition write_back (buf : list float) (off : Z) (part : list float) : list float :=
  take (Z.to_nat off) buf ++ part.

(** The buffers written and the locals [(cb_pos, X_pos)] of the loop. *)
Record splitvq_locals : Type :=
  { sv_qX : list float; sv_index : list Z; sv_cb_pos : Z; sv_X_pos : Z }.

Section SplitVq.

Variable FLOAT_MAX : float.
Variables X CB : list float.
Variables dim cbsize : list Z.

(** One split: the call of [vq] on the three offset buffers, which
    writes [index[i]], and the two increments.  [dim[i]] and
    [cbsize[i]] are read-only and are loaded once. *)
Definition SplitVQ_step (i : Z) (st : splitvq_locals) : outcome splitvq_locals :=
  qX_i <- offset (sv_qX st) (sv_X_pos st) ;;
  CB_i <- offset CB (sv_cb_pos st) ;;
  X_i <- offset X (sv_X_pos st) ;;
  cbsize_i <- load_int cbsize i ;;
  dim_i <- load_int dim i ;;
  r <- vq FLOAT_MAX CB_i X_i dim_i qX_i cbsize_i ;;
  index <- store_int (sv_index st) i (snd r) ;;
  Done {| sv_qX := write_back (sv_qX st) (sv_X_pos st) (fst r);
          sv_index := index;
          sv_cb_pos := sv_cb_pos st + dim_i * cbsize_i;
          sv_X_pos := sv_X_pos st + dim_i |}.

(** The pair returned is the buffers [(qX, index)]. *)
Definition SplitVQ (qX : list float) (index : list Z) (nsplit : Z)
    : outcome (list float * list Z) :=
  st <- for_loop 0 nsplit SplitVQ_step
          {| sv_qX := qX; sv_index := index; sv_cb_pos := 0; sv_X_pos := 0 |} ;;
  Done (sv_qX st, sv_index st).

End SplitVq.

(** ** check for stability of lsf coefficients *)

Module Lsf.

(** The four [static const float] of [LSF_check]. *)
Definition eps : float := S754_finite false 10468983 (-28).   (* 0.039f *)
Definition eps2 : float := S754_finite false 10468983 (-29).  (* 0.0195f *)
Definition maxlsf : float := S754_finite false 13170115 (-22). (* 3.14f *)
Definition minlsf : float := S754_finite false 10737418 (-30). (* 0.01f *)

Definition Nit : Z := 2.

(** What a pass did to the table: one entry for each time one of the
    three guarded blocks of the loop body, each of which sets
    [change = 1], is entered.  The log is not part of the C state. *)
Inductive repair : Type :=
| Separated (pos : Z)
| RaisedToMin (pos : Z)
| LoweredToMax (pos : Z).

Record state : Type :=
  { lsf : list float; change : Z; repairs : list repair }.

(** The first guarded block: the separation test and its two cases.
    In the first case the source also has [tmp = lsf[pos + 1]], and
    never reads [tmp]. *)
Definition separate (pos : Z) (st : state) : outcome state :=
  hi <- load (lsf st) (pos + 1) ;;
  lo <- load (lsf st) pos ;;
  if (hi - lo <? eps)%F then
    l <- (if (hi <? lo)%F then
            l <- store (lsf st) (pos + 1) (lo + eps2)%F ;;
            hi' <- load l (pos + 1) ;;
            store l pos (hi' - eps2)%F
          else
            l <- store (lsf st) pos (lo - eps2)%F ;;
            store l (pos + 1) (hi + eps2)%F) ;;
    Done {| lsf := l; change := 1; repairs := repairs st ++ [Separated pos] |}
  else Done st.

Definition clamp_min (pos : Z) (st : state) : outcome state :=
  v <- load (lsf st) pos ;;
  if (v <? minlsf)%F then
    l <- store (lsf st) pos minlsf ;;
    Done {| lsf := l; change := 1; repairs := repairs st ++ [RaisedToMin pos] |}
  else Done st.

Definition clamp_max (pos : Z) (st : state) : outcome state :=
  v <- load (lsf st) pos ;;
  if (v >? maxlsf)%F then
    l <- store (lsf st) pos maxlsf ;;
    Done {| lsf := l; change := 1; repairs := repairs st ++ [LoweredToMax pos] |}
  else Done st.

(** The body of the innermost loop at [pos = m*dim + k]. *)
Definition check_pos (pos : Z) (st : state) : outcome state :=
  st <- separate pos st ;;
  st <- clamp_min pos st ;;
  clamp_max pos st.

Definition check_vector (dim m : Z) (st : state) : outcome state :=
  for_loop 0 (dim - 1) (fun k st => check_pos (m * dim + k) st) st.

Definition check_pass (dim NoAn : Z) (st : state) : outcome state :=
  for_loop 0 NoAn (fun m st => check_vector dim m st) st.

Definition run (table : list float) (dim NoAn : Z) : outcome state :=
  for_loop 0 Nit (fun _ st => check_pass dim NoAn st)
    {| lsf := table; change := 0; repairs := [] |}.

(** The valid range of a coefficient. *)
Definition in_range (v : float) : bool := (minlsf <=? v)%F && (v <=? maxlsf)%F.

(** The separation the guard aims at between [lo] and the next
    coefficient [hi]. *)
Definition separated (lo hi : float) : bool := negb (hi - lo <? eps)%F.

End Lsf.

(** The pair returned is the value of [change] and the table. *)
Definition LSF_check (table : list float) (dim NoAn : Z) : outcome (Z * list float) :=
  st <- Lsf.run table dim NoAn ;;
  Done (Lsf.change st, Lsf.lsf st).

(** ** Vocabulary of the statements *)

(** A codebook sorted in ascending order, and one without repetition. *)
Fixpoint sorted_by (rel : float -> float -> bool) (cb : list float) : bool :=
  match cb with
  | a :: (b :: _) as tl => rel a b && sorted_by rel tl
  | _ => true
  end.

Definition ascending (cb : list float) : bool := sorted_by B32.leb cb.

Definition strictly_ascending (cb : list float) : bool := sorted_by B32.ltb cb.

(** What one body of the guard's inner loop may do at [pos]: it writes
    at [pos] and [pos + 1] only, and it either leaves the state alone or
    raises the flag and logs the repairs it made. *)
Record guarded_step (pos : Z) (st st' : Lsf.state) : Prop :=
  { step_length : length (Lsf.lsf st') = length (Lsf.lsf st);
    step_frame : forall j, j <> pos -> j <> pos + 1 ->
                   load (Lsf.lsf st') j = load (Lsf.lsf st) j;
    step_flag : st' = st \/
                (Lsf.change st' = 1 /\
                 exists r, r <> [] /\ Lsf.repairs st' = Lsf.repairs st ++ r) }.

(** A buffer of numbers: no entry is a NaN. *)
Definition numbers (buf : list float) : Prop :=
  forall j v, load buf j = Done v -> B32.is_nan v = false.

Definition all_numbers (buf : list float) : bool :=
  forallb (fun v => negb (B32.is_nan v)) buf.

(** What both clamps leave behind at a position. *)
Definition clamped (v : float) : Prop :=
  (v <? Lsf.minlsf)%F = false /\ (v >? Lsf.maxlsf)%F = false.

(** What holds of the guard's state all along a call on [table]: the
    table keeps its length, stays a table of numbers if it was one, and
    the flag is up exactly when a repair has been logged; while it is
    down the table is still the one passed in. *)
Definition guard_invariant (table : list float) (st : Lsf.state) : Prop :=
  length (Lsf.lsf st) = length table /\
  (numbers table -> numbers (Lsf.lsf st)) /\
  ((Lsf.change st = 0 /\ Lsf.repairs st = [] /\ Lsf.lsf st = table) \/
   (Lsf.change st = 1 /\ Lsf.repairs st <> [])).

(** The autocorrelation at [lag] as the spec words it: the sum, taken
    in the order of [n] from [+0], of the products [x[n] * x[n + lag]]
    for [n] from [0] to [N - lag - 1]. *)
Definition autocorr_sum (x : list float) (N lag : Z) : float :=
  let n := Z.to_nat (N - lag) in
  fold_left B32.add
    (zip_with B32.mul (take n x) (take n (drop (Z.to_nat lag) x)))
    B32.zero.

Definition all_zero (buf : list float) : bool := forallb B32.is_zero buf.

Definition all_finite (buf : list float) : bool := forallb B32.is_finite buf.

(** The squared distance that [vq] computes for codebook vector [j]. *)
Definition vq_dist_of (CB X : list float) (dim j : Z) : float :=
  match vq_dist CB X dim (j * dim) with
  | Done d => d
  | _ => B32.zero
  end.

(** What the search loop of [vq] knows after the vectors [0 .. j-1]:
    either none of them was below [FLOAT_MAX] and the locals are the
    initial ones, or [minindex] is the first of them at the least
    distance, which is below [FLOAT_MAX]. *)
Definition vq_best (FLOAT_MAX : float) (d : Z -> float) (j : Z) (st : vq_locals) : Prop :=
  (vq_mindist st = FLOAT_MAX /\ vq_minindex st = 0 /\
   forall t, 0 <= t < j -> (d t <? FLOAT_MAX)%F = false) \/
  (0 <= vq_minindex st < j /\ vq_mindist st = d (vq_minindex st) /\
   (d (vq_minindex st) <? FLOAT_MAX)%F = true /\
   (forall t, 0 <= t < j -> (d (vq_minindex st) <=? d t)%F = true) /\
   (forall t, 0 <= t < vq_minindex st -> (d (vq_minindex st) <? d t)%F = true)).

(** The midpoint that [sort_sq] compares [x] with. *)
Definition midpoint (hi lo : float) : float := ((hi + lo) / B32.two)%F.

(** The factor that [bwexpand] applies to [in[i]], [i >= 1]: [coef]
    multiplied [i - 1] times by [coef], each product rounded. *)
Definition chirp (coef : float) (i : Z) : float :=
  Nat.iter (Z.to_nat (i - 1)) (fun c => (c * coef)%F) coef.

(** [0.5f]. *)
Definition half : float := B32.ldexp 1 (-1).

(** The three tests of the guard at a position holding [lo], followed
    by [hi]: none of them asks for a repair. *)
Definition passes (lo hi : float) : bool :=
  Lsf.separated lo hi && negb (lo <? Lsf.minlsf)%F && negb (lo >? Lsf.maxlsf)%F.

(** The values of [X_pos] and [cb_pos] when [SplitVQ] starts split [i]. *)
Definition X_pos_at (dim : list Z) (i : Z) : Z :=
  foldr Z.add 0 (take (Z.to_nat i) dim).

Definition cb_pos_at (dim cbsize : list Z) (i : Z) : Z :=
  foldr Z.add 0 (take (Z.to_nat i) (zip_with Z.mul dim cbsize)).

(** Every position that [LSF_check] visits passes the three tests. *)
Definition all_pass (table : list float) (dim NoAn : Z) : Prop :=
  forall m k lo hi, 0 <= m < NoAn -> 0 <= k < dim - 1 ->
    load table (m * dim + k) = Done lo ->
    load table (m * dim + k + 1) = Done hi ->
    passes lo hi = true.

(** What holds of the buffers of [SplitVQ] when split [i] starts: the
    offsets are the sums of the sizes before [i], the output is
    untouched from [X_pos] on and the indices from [i] on, and each
    earlier split holds what [vq] returns on its own piece of [X] and
    of the codebook. *)
Definition split_invariant (FLOAT_MAX : float) (X CB qX : list float)
    (index dim cbsize : list Z) (i : Z) (st : splitvq_locals) : Prop :=
  sv_X_pos st = X_pos_at dim i /\
  sv_cb_pos st = cb_pos_at dim cbsize i /\
  length (sv_qX st) = length qX /\
  length (sv_index st) = length index /\
  (forall j, X_pos_at dim i <= j -> load (sv_qX st) j = load qX j) /\
  (forall j, i <= j -> load_int (sv_index st) j = load_int index j) /\
  (forall i' d n, 0 <= i' < i -> load_int dim i' = Done d -> load_int cbsize i' = Done n ->
     X_pos_at dim i' + d <= X_pos_at dim i /\
     exists Xq idx,
       vq FLOAT_MAX
          (take (Z.to_nat (n * d)) (drop (Z.to_nat (cb_pos_at dim cbsize i')) CB))
          (take (Z.to_nat d) (drop (Z.to_nat (X_pos_at dim i')) X)) d
          (drop (Z.to_nat (X_pos_at dim i')) qX) n = Done (Xq, idx) /\
       0 <= idx < n /\
       load_int (sv_index st) i' = Done idx /\
       forall t, 0 <= t < d -> load (sv_qX st) (X_pos_at dim i' + t) = load Xq t).

(** The range of an [int] of 32 bits. *)
Definition INT_MIN : Z := - 2 ^ 31.

Definition INT_MAX : Z := 2 ^ 31 - 1.








(** * Properties *)

(** ** The embedding at work *)

(** The constants of [LSF_check] are the decimals of the source rounded
    to binary32. *)
Example lsf_constants :
  Lsf.eps = (B32.of_Z 39 / B32.of_Z 1000)%F /\
  Lsf.eps2 = (B32.of_Z 195 / B32.of_Z 10000)%F /\
  Lsf.maxlsf = (B32.of_Z 314 / B32.of_Z 100)%F /\
  Lsf.minlsf = (B32.of_Z 1 / B32.of_Z 100)%F.
Proof. vm_compute. repeat split. Qed.

(** [x = 5] in the codebook [0, 4, 8]: nearer to [4]. *)
Example sort_sq_demo :
  sort_sq (B32.of_Z 5) [B32.of_Z 0; B32.of_Z 4; B32.of_Z 8] 3 = Done (B32.of_Z 4, 1).
Proof. vm_compute. reflexivity. Qed.

(** The frame [1, 2, 3]: [r = (14, 8, 3)]. *)
Example autocorr_demo :
  autocorr [B32.zero; B32.zero; B32.zero] [B32.of_Z 1; B32.of_Z 2; B32.of_Z 3] 3 2
  = Done [B32.of_Z 14; B32.of_Z 8; B32.of_Z 3].
Proof. vm_compute. reflexivity. Qed.

(** [r = (4, 2, 1)] at order 2: [k = (-0.5, -0)], [a = (1, -0.5, -0)]. *)
Example levdurb_demo :
  levdurb (B32.ldexp 1 (-52)) [B32.zero; B32.zero; B32.zero] [B32.zero; B32.zero]
    [B32.of_Z 4; B32.of_Z 2; B32.of_Z 1] 2
  = Done ([B32.one; B32.ldexp (-1) (-1); S754_zero true],
          [B32.ldexp (-1) (-1); S754_zero true]).
Proof. vm_compute. reflexivity. Qed.

(** The first-order solution for [r = (4, 2)]: [a = (1, -0.5)]. *)
Example levdurb_order_one :
  levdurb (B32.ldexp 1 (-52)) [B32.zero; B32.zero] [B32.zero]
    [B32.of_Z 4; B32.of_Z 2] 1
  = Done ([B32.one; B32.ldexp (-1) (-1)], [B32.ldexp (-1) (-1)]).
Proof. vm_compute. reflexivity. Qed.

(** Halfway between [(1, 2)] and [(3, 4)]. *)
Example interpolate_demo :
  interpolate [B32.zero; B32.zero] [B32.of_Z 1; B32.of_Z 2] [B32.of_Z 3; B32.of_Z 4]
    (B32.ldexp 1 (-1)) 2
  = Done [B32.of_Z 2; B32.of_Z 3].
Proof. vm_compute. reflexivity. Qed.

(** [(3, 3)] among [(0, 0)], [(3, 4)], [(3, 2)]: the last two are at
    distance 1 and the first of them wins. *)
Example vq_demo :
  vq (S754_finite false 15777218 99)
     [B32.of_Z 0; B32.of_Z 0; B32.of_Z 3; B32.of_Z 4; B32.of_Z 3; B32.of_Z 2]
     [B32.of_Z 3; B32.of_Z 3] 2 [B32.zero; B32.zero] 3
  = Done ([B32.of_Z 3; B32.of_Z 4], 1).
Proof. vm_compute. reflexivity. Qed.

(** A table in order and in range is returned as it is, with the flag
    down. *)
Example LSF_check_demo :
  LSF_check [B32.of_Z 1; B32.of_Z 2; B32.of_Z 3; B32.of_Z 1; B32.of_Z 2; B32.of_Z 3] 3 2
  = Done (0, [B32.of_Z 1; B32.of_Z 2; B32.of_Z 3; B32.of_Z 1; B32.of_Z 2; B32.of_Z 3]).
Proof. vm_compute. reflexivity. Qed.


(** ** Order of binary32 numbers *)

Module B32Facts.
Import B32.

Ltac compare_cases :=
  repeat match goal with
  | |- context [Z.compare ?a ?b] => destruct (Z.compare_spec a b)
  | |- context [Pos.compare_cont Eq ?a ?b] =>
      change (Pos.compare_cont Eq a b) with (Pos.compare a b);
      destruct (Pos.compare_spec a b)
  end.

Ltac by_cases x y :=
  unfold ltb, leb, eqb, SFltb, SFleb, SFeqb, SFcompare, key_lt, key_le;
  destruct x as [[]|[]| |[] ? ?], y as [[]|[]| |[] ? ?]; simpl;
  compare_cases; simpl.

Lemma ltb_key x y :
  ltb x y = true <->
  is_nan x = false /\ is_nan y = false /\ key_lt (key_of x) (key_of y).
Proof.
  by_cases x y; split; try discriminate; try tauto; try lia;
    try (intros (? & ? & ?); try discriminate; lia).
  all: intros _; repeat split; try lia.
Qed.

Lemma leb_key x y :
  leb x y = true <->
  is_nan x = false /\ is_nan y = false /\ key_le (key_of x) (key_of y).
Proof.
  by_cases x y; split; try discriminate; try tauto; try lia;
    try (intros (? & ? & ?); try discriminate; lia).
  all: intros _; repeat split; try lia.
Qed.

Lemma eqb_key x y :
  eqb x y = true <->
  is_nan x = false /\ is_nan y = false /\
  key_le (key_of x) (key_of y) /\ key_le (key_of y) (key_of x).
Proof.
  by_cases x y; split; try discriminate; try tauto; try lia;
    try (intros (? & ? & ? & ?); try discriminate; lia).
  all: intros _; repeat split; try lia.
Qed.

Lemma ltb_false_key x y :
  ltb x y = false <->
  is_nan x = true \/ is_nan y = true \/ key_le (key_of y) (key_of x).
Proof.
  by_cases x y; split; try discriminate; try tauto; try lia;
    try (intros [?|[?|?]]; try discriminate; lia).
Qed.

Lemma leb_false_key x y :
  leb x y = false <->
  is_nan x = true \/ is_nan y = true \/ key_lt (key_of y) (key_of x).
Proof.
  by_cases x y; split; try discriminate; try tauto; try lia;
    try (intros [?|[?|?]]; try discriminate; lia).
Qed.

(** Turns every comparison of the context and of the goal into its
    statement on keys and lets [lia] decide. *)
Ltac float_order :=
  repeat match goal with
  | H : ltb _ _ = true |- _ => apply ltb_key in H; destruct H as (? & ? & H)
  | H : leb _ _ = true |- _ => apply leb_key in H; destruct H as (? & ? & H)
  | H : eqb _ _ = true |- _ => apply eqb_key in H; destruct H as (? & ? & H & ?)
  | H : ltb _ _ = false |- _ => apply ltb_false_key in H
  | H : leb _ _ = false |- _ => apply leb_false_key in H
  end;
  try match goal with
  | |- ltb _ _ = true => apply ltb_key
  | |- leb _ _ = true => apply leb_key
  | |- eqb _ _ = true => apply eqb_key
  | |- ltb _ _ = false => apply ltb_false_key
  | |- leb _ _ = false => apply leb_false_key
  end;
  unfold key_lt, key_le in *;
  repeat match goal with
  | H : is_nan ?x = true, H' : is_nan ?x = false |- _ => congruence
  | H : _ \/ _ |- _ => destruct H
  | H : _ /\ _ |- _ => destruct H
  end;
  try congruence;
  repeat split; try assumption; try lia; auto.

Lemma ltb_irrefl x : ltb x x = false.
Proof. destruct (is_nan x) eqn:E; float_order. Qed.

Lemma leb_refl x : is_nan x = false -> leb x x = true.
Proof. intros. float_order. Qed.

Lemma ltb_trans x y z : ltb x y = true -> ltb y z = true -> ltb x z = true.
Proof. intros. float_order. Qed.

Lemma leb_trans x y z : leb x y = true -> leb y z = true -> leb x z = true.
Proof. intros. float_order. Qed.

Lemma ltb_leb_trans x y z : ltb x y = true -> leb y z = true -> ltb x z = true.
Proof. intros. float_order. Qed.

Lemma leb_ltb_trans x y z : leb x y = true -> ltb y z = true -> ltb x z = true.
Proof. intros. float_order. Qed.

Lemma ltb_leb x y : ltb x y = true -> leb x y = true.
Proof. intros. float_order. Qed.

Lemma ltb_asym x y : ltb x y = true -> leb y x = false.
Proof. intros. float_order. Qed.

Lemma leb_asym x y : leb x y = true -> ltb y x = false.
Proof. intros. float_order. Qed.

Lemma not_ltb_leb x y :
  is_nan x = false -> is_nan y = false -> ltb x y = false -> leb y x = true.
Proof. intros. float_order. Qed.

Lemma not_leb_ltb x y :
  is_nan x = false -> is_nan y = false -> leb x y = false -> ltb y x = true.
Proof. intros. float_order. Qed.

Lemma ltb_not_nan x y : ltb x y = true -> is_nan x = false /\ is_nan y = false.
Proof. intros. float_order. Qed.

Lemma leb_not_nan x y : leb x y = true -> is_nan x = false /\ is_nan y = false.
Proof. intros. float_order. Qed.

Lemma eqb_leb x y : eqb x y = true -> leb x y = true /\ leb y x = true.
Proof. intros. split; float_order. Qed.

Lemma eqb_not_ltb x y : eqb x y = true -> ltb x y = false /\ ltb y x = false.
Proof. intros. split; float_order. Qed.

End B32Facts.

(** ** Signs of rounded results *)

Module B32Round.
Import B32.

Lemma shr_1_nonneg mrs : 0 <= shr_m mrs -> 0 <= shr_m (shr_1 mrs).
Proof. destruct mrs as [[|[p|p|]|p] r t]; simpl; lia. Qed.

Lemma iter_pos_shr_1_nonneg p mrs :
  0 <= shr_m mrs -> 0 <= shr_m (SpecFloat.iter_pos shr_1 p mrs).
Proof.
  revert mrs. induction p as [p IH|p IH|]; intros mrs H; simpl.
  - apply IH, IH, shr_1_nonneg, H.
  - apply IH, IH, H.
  - apply shr_1_nonneg, H.
Qed.

Lemma shr_nonneg mrs e n : 0 <= shr_m mrs -> 0 <= shr_m (fst (shr mrs e n)).
Proof.
  intros H. destruct n; simpl; auto. now apply iter_pos_shr_1_nonneg.
Qed.

Lemma shr_fexp_nonneg m e l : 0 <= m -> 0 <= shr_m (fst (shr_fexp prec emax m e l)).
Proof.
  intros H. unfold shr_fexp. apply shr_nonneg.
  destruct l as [|[]]; simpl; exact H.
Qed.

Lemma round_nearest_even_nonneg m l : 0 <= m -> 0 <= round_nearest_even m l.
Proof.
  intros H. destruct l as [|[]]; simpl; try lia. destruct (Z.even m); lia.
Qed.

(** Rounding a non-negative mantissa keeps the sign it is given, and
    never makes a NaN. *)
Lemma binary_round_aux_sign s m e l :
  0 <= m -> sign_of (binary_round_aux prec emax s m e l) = Some s.
Proof.
  intros H. unfold binary_round_aux.
  pose proof (shr_fexp_nonneg m e l H) as H1.
  destruct (shr_fexp prec emax m e l) as [mrs1 e1]. simpl in H1.
  pose proof (shr_fexp_nonneg _ e1 loc_Exact
                (round_nearest_even_nonneg _ (loc_of_shr_record mrs1) H1)) as H2.
  destruct (shr_fexp prec emax _ e1 loc_Exact) as [mrs2 e2]. simpl in H2.
  destruct (shr_m mrs2); try lia; [reflexivity|].
  destruct (e2 <=? emax - prec); reflexivity.
Qed.

Lemma binary_round_sign s m e :
  sign_of (binary_round prec emax s m e) = Some s.
Proof.
  unfold binary_round. destruct (shl_align _ _ _) as [mz ez].
  apply binary_round_aux_sign. lia.
Qed.

Lemma binary_normalize_sign m e :
  sign_of (binary_normalize prec emax m e false) = Some (m <? 0).
Proof.
  destruct m; simpl; [reflexivity| |]; apply binary_round_sign.
Qed.

(** A product is a NaN only if a factor is, or for [0 * inf]; its sign
    is the exclusive or of the signs. *)
Lemma mul_sign x y sx sy :
  sign_of x = Some sx -> sign_of y = Some sy ->
  mul x y = S754_nan \/ sign_of (mul x y) = Some (xorb sx sy).
Proof.
  destruct x as [a|a| |a mx ex], y as [b|b| |b my ey]; cbn [sign_of];
    intros [= <-] [= <-]; auto.
  right. apply binary_round_aux_sign. lia.
Qed.

(** A square has the sign bit clear. *)
Lemma mul_self_sign x :
  is_nan x = false -> sign_of (mul x x) = Some false.
Proof.
  destruct x as [a|a| |a mx ex]; cbn [is_nan]; intros H; try discriminate.
  - now destruct a.
  - now destruct a.
  - unfold mul, SFmul. rewrite xorb_nilpotent. apply binary_round_aux_sign. lia.
Qed.

(** The sum of two numbers with the sign bit clear has it clear. *)
Lemma add_sign_false x y :
  sign_of x = Some false -> sign_of y = Some false ->
  sign_of (add x y) = Some false.
Proof.
  destruct x as [a|a| |a mx ex], y as [b|b| |b my ey]; cbn [sign_of];
    intros [= ->] [= ->]; auto.
  unfold add, SFadd. cbv zeta. rewrite binary_normalize_sign. reflexivity.
Qed.

(** Adding or subtracting a finite number never makes a NaN. *)
Lemma add_finite_not_nan x m e s :
  is_nan x = false -> is_nan (add x (S754_finite s m e)) = false.
Proof.
  destruct x as [a|a| |a mx ex]; cbn [is_nan]; intros H; try discriminate; auto.
  unfold add, SFadd. cbv zeta.
  match goal with |- is_nan (binary_normalize _ _ ?z ?e _) = _ =>
    pose proof (binary_normalize_sign z e) as Hs;
    destruct (binary_normalize prec emax z e false) end; auto; discriminate.
Qed.

Lemma sub_finite_not_nan x m e s :
  is_nan x = false -> is_nan (sub x (S754_finite s m e)) = false.
Proof.
  destruct x as [a|a| |a mx ex]; cbn [is_nan]; intros H; try discriminate; auto.
  unfold sub, SFsub. cbv zeta.
  match goal with |- is_nan (binary_normalize _ _ ?z ?e _) = _ =>
    pose proof (binary_normalize_sign z e) as Hs;
    destruct (binary_normalize prec emax z e false) end; auto; discriminate.
Qed.

(** *** Exact products *)

Lemma bounded_inv m e :
  bounded prec emax m e = true ->
  fexp prec emax (Zpos (digits2_pos m) + e) = e /\ e <= 104.
Proof.
  unfold bounded, canonical_mantissa. intros [H1 H2]%andb_prop.
  apply Z.eqb_eq in H1. apply Z.leb_le in H2. unfold emax, prec in *. lia.
Qed.

Lemma digits2_pos_xO p : Zpos (digits2_pos p~0) = Zpos (digits2_pos p) + 1.
Proof. change (digits2_pos p~0) with (Pos.succ (digits2_pos p)). lia. Qed.

Lemma mul_2p23 m :
  (8388608 * m)%positive = (m~0~0~0~0~0~0~0~0~0~0~0~0~0~0~0~0~0~0~0~0~0~0~0)%positive.
Proof. reflexivity. Qed.

(** [1.0f * x] is [x]: the product of the mantissas is the mantissa of
    [x] followed by 23 zero bits, which the rounding shifts out. *)
Lemma mul_one_finite s m e :
  bounded prec emax m e = true -> mul one (S754_finite s m e) = S754_finite s m e.
Proof.
  intros Hb. destruct (bounded_inv m e Hb) as [Hc He].
  unfold mul, SFmul, one. cbn [xorb].
  unfold binary_round_aux, shr_fexp.
  unfold Zdigits2 at 1. rewrite mul_2p23, !digits2_pos_xO.
  replace (Z.pos (digits2_pos m) + 1 + 1 + 1 + 1 + 1 + 1 + 1 + 1 + 1 + 1 + 1 + 1
           + 1 + 1 + 1 + 1 + 1 + 1 + 1 + 1 + 1 + 1 + 1 + (-23 + e))
    with (Z.pos (digits2_pos m) + e) by lia.
  rewrite Hc. replace (e - (-23 + e)) with 23 by lia.
  cbn [shr shr_record_of_loc SpecFloat.iter_pos shr_1 orb fst snd shr_m
       loc_of_shr_record round_nearest_even].
  replace (-23 + e + 23) with e by lia.
  unfold Zdigits2. rewrite Hc, Z.sub_diag.
  cbn [shr shr_m].
  destruct (Z.leb_spec e (emax - prec)); [reflexivity|]. unfold emax, prec in *. lia.
Qed.

Lemma mul_one_l x : is_finite x = true -> mul one x = x.
Proof.
  destruct x as [s|s| |s m e]; cbn [is_finite]; intros H; try discriminate.
  - reflexivity.
  - now apply mul_one_finite.
Qed.

Lemma mul_zero_l z x :
  is_zero z = true -> is_finite x = true -> is_zero (mul z x) = true.
Proof. destruct z, x; cbn [is_zero is_finite]; intros; try discriminate; reflexivity. Qed.

Lemma is_finite_not_nan x : is_finite x = true -> is_nan x = false.
Proof. destruct x; intros; try discriminate; reflexivity. Qed.

(** Adding a zero changes no value. *)
Lemma add_zero_r x z :
  is_finite x = true -> is_zero z = true -> eqb (add x z) x = true.
Proof.
  intros Hx Hz. pose proof (is_finite_not_nan x Hx) as Hn.
  destruct z as [t| | |]; try discriminate.
  destruct x as [s| | |s m e]; try discriminate.
  - destruct s, t; reflexivity.
  - cbn [add SFadd]. apply B32Facts.eqb_key. repeat split; auto;
      unfold key_le; lia.
Qed.

Lemma add_zero_l x z :
  is_finite x = true -> is_zero z = true -> eqb (add z x) x = true.
Proof.
  intros Hx Hz. pose proof (is_finite_not_nan x Hx) as Hn.
  destruct z as [t| | |]; try discriminate.
  destruct x as [s| | |s m e]; try discriminate.
  - destruct s, t; reflexivity.
  - cbn [add SFadd]. apply B32Facts.eqb_key. repeat split; auto;
      unfold key_le; lia.
Qed.

Lemma sub_not_nan x y :
  is_nan x = false -> is_finite y = true -> is_nan (sub x y) = false.
Proof.
  intros Hx Hy. destruct y as [t| | |t m e]; try discriminate.
  - destruct x as [[]| | |]; try discriminate; destruct t; reflexivity.
  - now apply sub_finite_not_nan.
Qed.

(** [x - x] is [+0] for a real number [x]. *)
Lemma sub_self x : is_finite x = true -> sub x x = zero.
Proof.
  destruct x as [[]| | |s m e]; intros H; try discriminate; try reflexivity.
  unfold sub, SFsub. cbv zeta. rewrite Z.min_id.
  unfold shl_align. rewrite Z.sub_diag. reflexivity.
Qed.

Lemma sign_of_not_nan x s : sign_of x = Some s -> is_nan x = false.
Proof. destruct x; intros; try discriminate; reflexivity. Qed.

(** A number with the sign bit clear is not below [+0]. *)
Lemma sign_false_nonneg x : sign_of x = Some false -> leb zero x = true.
Proof. destruct x as [a|a| |a mx ex]; simpl; intros [= ->]; reflexivity. Qed.

End B32Round.

(** ** Values of rounded results *)

Module B32Value.
Import B32.

(** *** Powers of two *)

Lemma pow2_pos k : 0 <= k -> 0 < 2 ^ k.
Proof. intros. apply Z.pow_pos_nonneg; lia. Qed.

Lemma pow2_add a b : 0 <= a -> 0 <= b -> 2 ^ (a + b) = 2 ^ a * 2 ^ b.
Proof. intros. now apply Z.pow_add_r. Qed.

Lemma pow2_le a b : a <= b -> 2 ^ a <= 2 ^ b.
Proof. intros. apply Z.pow_le_mono_r; lia. Qed.


Lemma pow2_lt_inv a b : 0 <= a -> 2 ^ a < 2 ^ b -> a < b.
Proof.
  intros Ha H. destruct (Z.le_gt_cases b a) as [Hle|]; [|assumption].
  pose proof (pow2_le b a Hle). lia.
Qed.

(** *** Number of digits *)

Lemma digits2_pos_bounds m :
  2 ^ (Zpos (digits2_pos m) - 1) <= Zpos m < 2 ^ Zpos (digits2_pos m).
Proof.
  induction m as [m IH|m IH|]; cbn [digits2_pos].
  - rewrite Pos2Z.inj_succ, Z.pow_succ_r by lia.
    replace (Z.succ (Z.pos (digits2_pos m)) - 1) with (Z.succ (Z.pos (digits2_pos m) - 1)) by lia.
    rewrite Z.pow_succ_r by lia. lia.
  - rewrite Pos2Z.inj_succ, Z.pow_succ_r by lia.
    replace (Z.succ (Z.pos (digits2_pos m)) - 1) with (Z.succ (Z.pos (digits2_pos m) - 1)) by lia.
    rewrite Z.pow_succ_r by lia. lia.
  - simpl. lia.
Qed.

Lemma digits2_pos_unique m k :
  2 ^ (k - 1) <= Zpos m < 2 ^ k -> Zpos (digits2_pos m) = k.
Proof.
  intros [Hlo Hhi]. pose proof (digits2_pos_bounds m) as [Dlo Dhi].
  assert (1 <= k).
  { destruct (Z.le_gt_cases 1 k); [assumption|].
    assert (2 ^ k <= 2 ^ 0) by (apply pow2_le; lia). simpl in *. lia. }
  assert (k - 1 < Zpos (digits2_pos m)) by (apply pow2_lt_inv; lia).
  assert (Zpos (digits2_pos m) - 1 < k) by (apply pow2_lt_inv; lia).
  lia.
Qed.

(** *** Shifts *)

Lemma iter_pos_nat {A} (f : A -> A) p x :
  SpecFloat.iter_pos f p x = Nat.iter (Pos.to_nat p) f x.
Proof.
  revert x. induction p as [p IH|p IH|]; intros x; cbn [SpecFloat.iter_pos].
  - rewrite !IH, Pos2Nat.inj_xI. rewrite <- Nat.iter_add.
    replace (Datatypes.S (2 * Pos.to_nat p)) with (Pos.to_nat p + Pos.to_nat p + 1)%nat by lia.
    rewrite (Nat.iter_add (Pos.to_nat p + Pos.to_nat p) 1). reflexivity.
  - rewrite !IH, Pos2Nat.inj_xO, <- Nat.iter_add. f_equal. lia.
  - reflexivity.
Qed.

Lemma shr_1_m mrs : 0 <= shr_m mrs -> shr_m (shr_1 mrs) = shr_m mrs / 2.
Proof.
  destruct mrs as [[|[p|p|]|p] r t]; cbn [shr_1 shr_m]; intros H; try lia.
  - reflexivity.
  - rewrite Pos2Z.inj_xI. apply Z.div_unique with 1; lia.
  - rewrite Pos2Z.inj_xO. apply Z.div_unique with 0; lia.
  - reflexivity.
Qed.

Lemma iter_shr_1_m n mrs :
  0 <= shr_m mrs ->
  0 <= shr_m (Nat.iter n shr_1 mrs) /\
  shr_m (Nat.iter n shr_1 mrs) = shr_m mrs / 2 ^ Z.of_nat n.
Proof.
  intros H. induction n as [|n [IH0 IH]].
  - simpl. rewrite Z.div_1_r. auto.
  - rewrite Nat.iter_succ. split; [apply B32Round.shr_1_nonneg, IH0|].
    rewrite shr_1_m by exact IH0. rewrite IH.
    rewrite Nat2Z.inj_succ, Z.pow_succ_r by lia.
    rewrite Z.div_div by (try apply pow2_pos; lia). f_equal. lia.
Qed.

(** The mantissa after a right shift by [n]. *)
Lemma shr_m_spec mrs e n :
  0 <= shr_m mrs ->
  shr_m (fst (shr mrs e n)) = (if 0 <? n then shr_m mrs / 2 ^ n else shr_m mrs) /\
  snd (shr mrs e n) = (if 0 <? n then e + n else e).
Proof.
  intros H. destruct n as [|p|p]; cbn [shr fst snd]; auto.
  rewrite iter_pos_nat. destruct (iter_shr_1_m (Pos.to_nat p) mrs H) as [_ ->].
  rewrite positive_nat_Z. auto.
Qed.

Lemma iter_xO m d : Zpos (Pos.iter xO m d) = Zpos m * 2 ^ Zpos d.
Proof.
  induction d as [|d IH] using Pos.peano_ind.
  - simpl. lia.
  - rewrite Pos.iter_succ, Pos2Z.inj_xO, IH, Pos2Z.inj_succ, Z.pow_succ_r by lia. lia.
Qed.

(** Alignment to a smaller exponent keeps the value. *)
Lemma shl_align_spec m e e' :
  e' <= e ->
  Zpos (fst (shl_align m e e')) = Zpos m * 2 ^ (e - e') /\ snd (shl_align m e e') = e'.
Proof.
  intros H. unfold shl_align. destruct (e' - e) as [|p|p] eqn:E; try lia.
  - replace (e - e') with 0 by lia. cbn [fst snd]. split; lia.
  - cbn [fst snd]. rewrite iter_xO. replace (e - e') with (Zpos p) by lia. auto.
Qed.

Lemma shl_align_id m e e' :
  e <= e' -> shl_align m e e' = (m, e).
Proof.
  intros H. unfold shl_align. destruct (e' - e) as [|p|p] eqn:E; try lia; reflexivity.
Qed.

(** *** Rounding *)

Lemma fexp_eq k : fexp prec emax k = Z.max (k - 24) (-149).
Proof. reflexivity. Qed.

Lemma round_nearest_even_bounds m l :
  m <= round_nearest_even m l <= m + 1.
Proof. destruct l as [|[]]; simpl; try lia. destruct (Z.even m); lia. Qed.

Lemma div_pow2_bounds a n :
  0 <= a -> 0 <= n -> (a / 2 ^ n) * 2 ^ n <= a < (a / 2 ^ n + 1) * 2 ^ n.
Proof.
  intros Ha Hn. pose proof (pow2_pos n Hn) as Hp.
  pose proof (Z.div_mod a (2 ^ n) ltac:(lia)) as Hd.
  pose proof (Z.mod_pos_bound a (2 ^ n) Hp). lia.
Qed.

(** Rounding a mantissa [mz] at exponent [ez], when the target
    exponent [f] is not below [ez]: the result is at exponent [f] or
    [f + 1], canonical, and within one unit of [2^f] of [mz * 2^ez]. *)
Lemma binary_round_aux_bounds s mz ez :
  let f := fexp prec emax (Zpos (digits2_pos mz) + ez) in
  -149 <= ez <= f ->
  exists m e,
    binary_round_aux prec emax s (Zpos mz) ez loc_Exact
      = (if e <=? 104 then S754_finite s m e else S754_infinity s) /\
    fexp prec emax (Zpos (digits2_pos m) + e) = e /\
    f <= e <= f + 1 /\
    Zpos mz - 2 ^ (f - ez) < Zpos m * 2 ^ (e - ez) <= Zpos mz + 2 ^ (f - ez) /\
    (ez = f -> m = mz /\ e = ez).
Proof.
  intros f Hez. subst f. set (d := Zpos (digits2_pos mz)) in *.
  pose proof (digits2_pos_bounds mz) as [Dlo Dhi]. fold d in Dlo, Dhi.
  assert (1 <= d) as Hd by (unfold d; lia).
  set (f := fexp prec emax (d + ez)) in *.
  assert (f = Z.max (d + ez - 24) (-149)) as Hf by apply fexp_eq.
  set (n := f - ez). assert (0 <= n) as Hn by (unfold n; lia).
  pose proof (pow2_pos n Hn) as Hpn.
  (* first shift *)
  unfold binary_round_aux, shr_fexp. cbn [Zdigits2 shr_record_of_loc]. fold d f n.
  set (r0 := {| shr_m := Zpos mz; shr_r := false; shr_s := false |}).
  assert (exists mrs1, shr r0 ez n = (mrs1, f) /\ shr_m mrs1 = Zpos mz / 2 ^ n /\
            (n = 0 -> mrs1 = r0)) as (mrs1 & -> & Hm1 & Hexact).
  { destruct (shr_m_spec r0 ez n ltac:(simpl; lia)) as [Hm He].
    destruct (shr r0 ez n) as [mrs1 e1] eqn:E. cbn [fst snd] in *.
    exists mrs1. destruct (Z.ltb_spec 0 n).
    - subst e1. replace (ez + n) with f by (unfold n; lia).
      repeat split; auto. lia.
    - assert (n = 0) as Hn0 by lia. rewrite Hn0 in *.
      assert (f = ez) as -> by (unfold n in Hn0; lia).
      simpl in E. injection E as <- <-.
      repeat split; auto. now rewrite Z.div_1_r. }
  set (m1 := shr_m mrs1) in *.
  pose proof (div_pow2_bounds (Zpos mz) n ltac:(lia) Hn) as [Hdlo Hdhi].
  rewrite <- Hm1 in Hdlo, Hdhi.
  assert (m1 < 2 ^ 24) as Hm1hi.
  { assert (2 ^ d <= 2 ^ (n + 24)) by (apply pow2_le; unfold n; lia).
    rewrite pow2_add in * by lia. nia. }
  assert (1 <= m1 /\ (-149 < f -> 2 ^ 23 <= m1)) as [Hm1lo Hm1norm].
  { destruct (Z.le_gt_cases (-149) (d + ez - 24)) as [Hnorm|Hsub].
    - assert (n = d - 24) as Hnd by (unfold n; lia).
      assert (2 ^ (n + 23) <= Zpos mz).
      { replace (n + 23) with (d - 1) by lia. exact Dlo. }
      rewrite pow2_add in * by lia.
      assert (2 ^ 23 <= m1) by nia. split; [|auto].
      pose proof (pow2_pos 23 ltac:(lia)). lia.
    - assert (n = 0) as Hn0 by (unfold n; lia). rewrite Hn0 in *.
      rewrite Z.pow_0_r in *. unfold m1 in *. split; [lia|]. intros; lia. }
  (* rounding *)
  set (m1' := round_nearest_even m1 (loc_of_shr_record mrs1)).
  pose proof (round_nearest_even_bounds m1 (loc_of_shr_record mrs1)) as Hr.
  fold m1' in Hr.
  assert (n = 0 -> m1' = m1) as Hrexact.
  { intros Hn0. unfold m1'. rewrite (Hexact Hn0). reflexivity. }
  destruct m1' as [|p|p] eqn:Ep; try lia.
  cbn [Zdigits2 shr_record_of_loc].
  destruct (Z.eq_dec (Zpos p) (2 ^ 24)) as [Hcarry|Hnocarry].
  - (* the mantissa overflowed to 2^24: one more shift *)
    assert (Zpos (digits2_pos p) = 25) as Hdp.
    { apply digits2_pos_unique. rewrite Hcarry. simpl. lia. }
    assert (-149 < f \/ f = -149) as Hfcase by lia.
    rewrite Hdp, fexp_eq.
    replace (Z.max (25 + f - 24) (-149) - f) with 1 by lia.
    exists 8388608%positive, (f + 1).
    assert (p = 16777216%positive) as -> by (simpl in Hcarry; lia).
    cbn [shr SpecFloat.iter_pos shr_1 shr_m orb].
    split; [reflexivity|]. split; [rewrite fexp_eq; simpl; lia|]. split; [lia|].
    split.
    + replace (f + 1 - ez) with (n + 1) by (unfold n; lia).
      rewrite pow2_add by lia. fold n. simpl (2 ^ 1).
      assert (m1 = 2 ^ 24 - 1) by (simpl in *; lia).
      simpl in *. nia.
    + intros He. assert (n = 0) by (unfold n; lia).
      specialize (Hrexact ltac:(assumption)). simpl in *. lia.
  - assert (Zpos p < 2 ^ 24) as Hp by lia.
    pose proof (digits2_pos_bounds p) as [Plo Phi].
    assert (Zpos (digits2_pos p) <= 24) as Hdp.
    { assert (Zpos (digits2_pos p) - 1 < 24); [|lia].
      apply pow2_lt_inv; lia. }
    assert (-149 < f -> Zpos (digits2_pos p) = 24) as Hdpn.
    { intros Hfn. specialize (Hm1norm Hfn).
      assert (23 < Zpos (digits2_pos p)); [|lia].
      apply pow2_lt_inv; lia. }
    assert (fexp prec emax (Zpos (digits2_pos p) + f) = f) as Hcanon.
    { rewrite fexp_eq. destruct (Z.eq_dec f (-149)); [lia|].
      rewrite Hdpn by lia. lia. }
    rewrite Hcanon, Z.sub_diag. cbn [shr shr_m].
    exists p, f. split; [reflexivity|]. split; [exact Hcanon|]. split; [lia|].
    fold n. split; [nia|].
    intros He. assert (n = 0) as Hn0 by (unfold n; lia).
    specialize (Hrexact Hn0). rewrite Hn0, Z.pow_0_r in *.
    split; [|lia]. unfold m1 in *. lia.
Qed.

Lemma bounded_spec m e :
  bounded prec emax m e = true <->
  fexp prec emax (Zpos (digits2_pos m) + e) = e /\ e <= 104.
Proof.
  unfold bounded, canonical_mantissa. rewrite andb_true_iff, Z.eqb_eq, Z.leb_le.
  reflexivity.
Qed.

Lemma bounded_range m e :
  bounded prec emax m e = true ->
  -149 <= e <= 104 /\ Zpos m < 2 ^ 24 /\ (-149 < e -> 2 ^ 23 <= Zpos m).
Proof.
  intros [Hc He]%bounded_spec. rewrite fexp_eq in Hc.
  pose proof (digits2_pos_bounds m) as [Dlo Dhi].
  split; [lia|]. split.
  - assert (2 ^ Zpos (digits2_pos m) <= 2 ^ 24) by (apply pow2_le; lia). lia.
  - intros Hn. assert (Zpos (digits2_pos m) = 24) as Hd by lia.
    rewrite Hd in Dlo. exact Dlo.
Qed.

Lemma digits2_pos_shl m k :
  0 <= k ->
  forall p, Zpos p = Zpos m * 2 ^ k ->
  Zpos (digits2_pos p) = Zpos (digits2_pos m) + k.
Proof.
  intros Hk p Hp. pose proof (digits2_pos_bounds m) as [Dlo Dhi].
  pose proof (pow2_pos k Hk).
  apply digits2_pos_unique. rewrite Hp.
  replace (Zpos (digits2_pos m) + k - 1) with (Zpos (digits2_pos m) - 1 + k) by lia.
  rewrite !pow2_add by lia. nia.
Qed.

(** Rounding [M * 2^E], [E >= -149], in units of [2^-149]. *)
Lemma binary_round_bounds s M E :
  -149 <= E ->
  let f := fexp prec emax (Zpos (digits2_pos M) + E) in
  exists m e,
    binary_round prec emax s M E
      = (if e <=? 104 then S754_finite s m e else S754_infinity s) /\
    fexp prec emax (Zpos (digits2_pos m) + e) = e /\
    f <= e <= f + 1 /\
    Zpos M * 2 ^ (E + 149) - 2 ^ (f + 149) < Zpos m * 2 ^ (e + 149)
      <= Zpos M * 2 ^ (E + 149) + 2 ^ (f + 149).
Proof.
  intros HE f. unfold binary_round. fold f.
  assert (-149 <= f) as Hf by (unfold f; rewrite fexp_eq; lia).
  destruct (Z.le_gt_cases E f) as [Hle|Hgt].
  - rewrite shl_align_id by exact Hle.
    destruct (binary_round_aux_bounds s M E ltac:(fold f; lia))
      as (m & e & Hr & Hc & He & Hv & _). fold f in He, Hv.
    exists m, e. split; [exact Hr|]. split; [exact Hc|]. split; [exact He|].
    pose proof (pow2_pos (E + 149) ltac:(lia)) as Hp.
    replace (e + 149) with ((e - E) + (E + 149)) by lia.
    replace (f + 149) with ((f - E) + (E + 149)) by lia.
    rewrite (pow2_add (e - E)), (pow2_add (f - E)) by lia. nia.
  - destruct (shl_align_spec M E f ltac:(lia)) as [Hmz Hez].
    destruct (shl_align M E f) as [mz ez]. cbn [fst snd] in *. subst ez.
    pose proof (digits2_pos_shl M (E - f) ltac:(lia) mz Hmz) as Hdz.
    destruct (binary_round_aux_bounds s mz f) as (m & e & Hr & Hc & He & _ & Hx).
    { rewrite Hdz. replace (Zpos (digits2_pos M) + (E - f) + f)
        with (Zpos (digits2_pos M) + E) by lia. fold f. lia. }
    rewrite Hdz in He, Hx.
    replace (Zpos (digits2_pos M) + (E - f) + f)
      with (Zpos (digits2_pos M) + E) in He, Hx by lia. fold f in He, Hx.
    destruct (Hx eq_refl) as [-> ->].
    exists mz, f. split; [exact Hr|]. split; [exact Hc|]. split; [lia|].
    rewrite Hmz. pose proof (pow2_pos (f + 149) ltac:(lia)).
    replace (E + 149) with ((E - f) + (f + 149)) by lia.
    rewrite (pow2_add (E - f)) by lia. nia.
Qed.

(** *** Order and value *)

Lemma magnitude_lt_exp m1 e1 m2 e2 :
  bounded prec emax m1 e1 = true -> bounded prec emax m2 e2 = true ->
  e1 < e2 -> Zpos m1 * 2 ^ (e1 + 149) < Zpos m2 * 2 ^ (e2 + 149).
Proof.
  intros (R1 & H1 & _)%bounded_range (R2 & _ & N2)%bounded_range He.
  specialize (N2 ltac:(lia)).
  pose proof (pow2_pos (e1 + 149) ltac:(lia)) as P1.
  assert (2 * 2 ^ (e1 + 149) <= 2 ^ (e2 + 149)) as Hstep.
  { replace (2 * 2 ^ (e1 + 149)) with (2 ^ (e1 + 149 + 1))
      by (rewrite (pow2_add (e1 + 149) 1) by lia; simpl (2 ^ 1); lia).
    apply pow2_le. lia. }
  simpl in H1, N2. nia.
Qed.

Lemma magnitude_lt m1 e1 m2 e2 :
  bounded prec emax m1 e1 = true -> bounded prec emax m2 e2 = true ->
  (Zpos m1 * 2 ^ (e1 + 149) < Zpos m2 * 2 ^ (e2 + 149) <->
   e1 < e2 \/ (e1 = e2 /\ Zpos m1 < Zpos m2)).
Proof.
  intros B1 B2.
  pose proof (bounded_range _ _ B1) as (R1 & _).
  pose proof (pow2_pos (e1 + 149) ltac:(lia)) as P1.
  destruct (Z.lt_trichotomy e1 e2) as [Hlt|[->|Hgt]].
  - pose proof (magnitude_lt_exp _ _ _ _ B1 B2 Hlt). split; auto.
  - split.
    + intros H. right. split; [reflexivity|nia].
    + intros [H|[_ H]]; [lia|nia].
  - pose proof (magnitude_lt_exp _ _ _ _ B2 B1 Hgt). split; [lia|].
    intros [?|[? _]]; lia.
Qed.

Lemma scaled_sign s m e :
  bounded prec emax m e = true ->
  (s = true -> scaled (S754_finite s m e) < 0) /\
  (s = false -> 0 < scaled (S754_finite s m e)).
Proof.
  intros (R & _)%bounded_range. pose proof (pow2_pos (e + 149) ltac:(lia)).
  unfold scaled. destruct s; cbn [cond_Zopp]; split; intros; try discriminate; nia.
Qed.

(** On real numbers the comparison of the keys is the comparison of
    the values. *)
Lemma key_lt_scaled x y :
  is_finite x = true -> is_finite y = true ->
  (key_lt (key_of x) (key_of y) <-> scaled x < scaled y).
Proof.
  intros Hx Hy.
  destruct x as [sx| | |sx mx ex], y as [sy| | |sy my ey]; try discriminate;
    cbn [is_finite] in *.
  - unfold key_lt; simpl. lia.
  - pose proof (scaled_sign sy my ey Hy) as [? ?]. unfold key_lt.
    destruct sy; cbn [key_of k_class k_exp k_man scaled] in *; lia.
  - pose proof (scaled_sign sx mx ex Hx) as [? ?]. unfold key_lt.
    destruct sx; cbn [key_of k_class k_exp k_man scaled] in *; lia.
  - pose proof (scaled_sign sx mx ex Hx) as [? ?].
    pose proof (scaled_sign sy my ey Hy) as [? ?].
    pose proof (magnitude_lt mx ex my ey Hx Hy).
    pose proof (magnitude_lt my ey mx ex Hy Hx).
    unfold key_lt.
    destruct sx, sy; cbn [key_of k_class k_exp k_man scaled cond_Zopp] in *; lia.
Qed.

Lemma ltb_scaled x y :
  is_finite x = true -> is_finite y = true ->
  (ltb x y = true <-> scaled x < scaled y).
Proof.
  intros Hx Hy. rewrite B32Facts.ltb_key, <- (key_lt_scaled x y Hx Hy).
  pose proof (B32Round.is_finite_not_nan x Hx). pose proof (B32Round.is_finite_not_nan y Hy).
  tauto.
Qed.

Lemma leb_scaled x y :
  is_finite x = true -> is_finite y = true ->
  (leb x y = true <-> scaled x <= scaled y).
Proof.
  intros Hx Hy.
  pose proof (B32Round.is_finite_not_nan x Hx). pose proof (B32Round.is_finite_not_nan y Hy).
  pose proof (ltb_scaled y x Hy Hx) as Hlt.
  split; intros H'.
  - pose proof (B32Facts.leb_asym _ _ H') as Hn.
    destruct (Z.le_gt_cases (scaled x) (scaled y)) as [|Hgt]; [assumption|].
    apply Hlt in Hgt. congruence.
  - apply B32Facts.not_ltb_leb; auto. apply not_true_iff_false.
    intros E. apply Hlt in E. lia.
Qed.

(** *** Sums and differences *)

(** Normalizing a nonzero integer [S] at exponent [ez] whose value is
    below [2^k] gives a real number within [2^(k-24)] of it. *)
Lemma binary_normalize_bounds S ez k :
  -149 <= ez -> S <> 0 ->
  Z.abs S * 2 ^ (ez + 149) < 2 ^ (k + 149) ->
  -125 <= k <= 127 ->
  exists m e,
    binary_normalize prec emax S ez false = S754_finite (S <? 0) m e /\
    bounded prec emax m e = true /\
    Z.abs (scaled (S754_finite (S <? 0) m e) - S * 2 ^ (ez + 149)) <= 2 ^ (k + 125).
Proof.
  intros Hez HS Hmag Hk.
  assert (exists M, Z.abs S = Zpos M /\
            binary_normalize prec emax S ez false = binary_round prec emax (S <? 0) M ez)
    as (M & HM & ->).
  { destruct S as [|M|M]; [lia| |]; exists M; split; reflexivity. }
  rewrite HM in Hmag.
  destruct (binary_round_bounds (S <? 0) M ez Hez) as (m & e & Hr & Hc & He & Hv).
  set (f := fexp prec emax (Zpos (digits2_pos M) + ez)) in *.
  pose proof (pow2_pos (ez + 149) ltac:(lia)) as Pez.
  assert (f <= k - 24) as Hf.
  { pose proof (digits2_pos_bounds M) as [Dlo _].
    assert (Zpos (digits2_pos M) - 1 + (ez + 149) < k + 149).
    { apply pow2_lt_inv; [lia|]. rewrite pow2_add by lia. nia. }
    unfold f. rewrite fexp_eq. lia. }
  assert (-149 <= f) by (unfold f; rewrite fexp_eq; lia).
  assert (2 ^ (f + 149) <= 2 ^ (k + 125)) as Hu by (apply pow2_le; lia).
  exists m, e. destruct (Z.leb_spec e 104); [|lia].
  split; [exact Hr|]. split; [apply bounded_spec; split; [exact Hc|lia]|].
  unfold scaled. destruct (Z.ltb_spec S 0); cbn [cond_Zopp]; lia.
Qed.

Lemma aligned_scaled s m e ez :
  -149 <= ez <= e ->
  cond_Zopp s (Zpos (fst (shl_align m e ez))) * 2 ^ (ez + 149)
  = scaled (S754_finite s m e).
Proof.
  intros H. destruct (shl_align_spec m e ez ltac:(lia)) as [-> _].
  unfold scaled. replace (e + 149) with ((e - ez) + (ez + 149)) by lia.
  rewrite (pow2_add (e - ez)) by lia. destruct s; cbn [cond_Zopp]; lia.
Qed.

(** A sum of real numbers of magnitude below [2^k] is a real number
    within [2^(k-24)] of the exact sum. *)
Lemma add_bounds x y k :
  is_finite x = true -> is_finite y = true ->
  Z.abs (scaled x + scaled y) < 2 ^ (k + 149) ->
  -125 <= k <= 127 ->
  is_finite (add x y) = true /\
  Z.abs (scaled (add x y) - (scaled x + scaled y)) <= 2 ^ (k + 125).
Proof.
  intros Hx Hy Hmag Hk. pose proof (pow2_pos (k + 125) ltac:(lia)) as Pk.
  destruct x as [sx| | |sx mx ex], y as [sy| | |sy my ey]; try discriminate.
  - destruct sx, sy; cbn [add SFadd is_finite scaled]; split; auto; lia.
  - cbn [add SFadd]. split; [exact Hy|]. cbn [scaled]. lia.
  - cbn [add SFadd]. split; [exact Hx|]. cbn [scaled]. lia.
  - cbn [is_finite] in Hx, Hy.
    pose proof (bounded_range _ _ Hx) as (Rx & _).
    pose proof (bounded_range _ _ Hy) as (Ry & _).
    unfold add, SFadd. cbv zeta. set (ez := Z.min ex ey).
    pose proof (aligned_scaled sx mx ex ez ltac:(unfold ez; lia)) as Ax.
    pose proof (aligned_scaled sy my ey ez ltac:(unfold ez; lia)) as Ay.
    set (S := cond_Zopp sx (Zpos (fst (shl_align mx ex ez)))
              + cond_Zopp sy (Zpos (fst (shl_align my ey ez)))) in *.
    assert (S * 2 ^ (ez + 149)
            = scaled (S754_finite sx mx ex) + scaled (S754_finite sy my ey)) as HS
      by (unfold S; lia).
    pose proof (pow2_pos (ez + 149) ltac:(unfold ez; lia)) as Pez.
    destruct (Z.eq_dec S 0) as [HS0|HS0].
    + rewrite <- HS, HS0. cbn [binary_normalize]. split; [reflexivity|].
      change (scaled (S754_zero false)) with 0. lia.
    + destruct (binary_normalize_bounds S ez k) as (m & e & -> & Hb & Hv);
        [unfold ez; lia|exact HS0| |exact Hk|].
      * rewrite <- HS in Hmag. rewrite Z.abs_mul in Hmag.
        rewrite (Z.abs_eq (2 ^ (ez + 149))) in Hmag by lia. exact Hmag.
      * split; [exact Hb|]. rewrite <- HS. exact Hv.
Qed.

Lemma sub_bounds x y k :
  is_finite x = true -> is_finite y = true ->
  Z.abs (scaled x - scaled y) < 2 ^ (k + 149) ->
  -125 <= k <= 127 ->
  is_finite (sub x y) = true /\
  Z.abs (scaled (sub x y) - (scaled x - scaled y)) <= 2 ^ (k + 125).
Proof.
  intros Hx Hy Hmag Hk. pose proof (pow2_pos (k + 125) ltac:(lia)) as Pk.
  destruct x as [sx| | |sx mx ex], y as [sy| | |sy my ey]; try discriminate.
  - destruct sx, sy; cbn [sub SFsub is_finite scaled]; split; auto; lia.
  - cbn [sub SFsub]. split; [exact Hy|]. cbn [scaled]. destruct sy; cbn [negb cond_Zopp]; lia.
  - cbn [sub SFsub]. split; [exact Hx|]. cbn [scaled]. lia.
  - cbn [is_finite] in Hx, Hy.
    pose proof (bounded_range _ _ Hx) as (Rx & _).
    pose proof (bounded_range _ _ Hy) as (Ry & _).
    unfold sub, SFsub. cbv zeta. set (ez := Z.min ex ey).
    pose proof (aligned_scaled sx mx ex ez ltac:(unfold ez; lia)) as Ax.
    pose proof (aligned_scaled sy my ey ez ltac:(unfold ez; lia)) as Ay.
    set (S := cond_Zopp sx (Zpos (fst (shl_align mx ex ez)))
              - cond_Zopp sy (Zpos (fst (shl_align my ey ez)))) in *.
    assert (S * 2 ^ (ez + 149)
            = scaled (S754_finite sx mx ex) - scaled (S754_finite sy my ey)) as HS
      by (unfold S; lia).
    pose proof (pow2_pos (ez + 149) ltac:(unfold ez; lia)) as Pez.
    destruct (Z.eq_dec S 0) as [HS0|HS0].
    + rewrite <- HS, HS0. cbn [binary_normalize]. split; [reflexivity|].
      change (scaled (S754_zero false)) with 0. lia.
    + destruct (binary_normalize_bounds S ez k) as (m & e & -> & Hb & Hv);
        [unfold ez; lia|exact HS0| |exact Hk|].
      * rewrite <- HS in Hmag. rewrite Z.abs_mul in Hmag.
        rewrite (Z.abs_eq (2 ^ (ez + 149))) in Hmag by lia. exact Hmag.
      * split; [exact Hb|]. rewrite <- HS. exact Hv.
Qed.

(** The difference of two real numbers has the sign of the exact
    difference. *)
Lemma sub_sign_true x y :
  is_finite x = true -> is_finite y = true ->
  scaled x < scaled y -> sign_of (sub x y) = Some true.
Proof.
  intros Hx Hy Hlt.
  destruct x as [sx| | |sx mx ex], y as [sy| | |sy my ey]; try discriminate.
  - cbn [sub SFsub sign_of]. cbn [is_finite] in Hy.
    destruct (scaled_sign sy my ey Hy) as [Hneg _].
    destruct sy; [specialize (Hneg eq_refl); cbn [scaled] in *; lia|reflexivity].
  - cbn [sub SFsub sign_of]. cbn [is_finite] in Hx.
    destruct (scaled_sign sx mx ex Hx) as [_ Hpos].
    destruct sx; [reflexivity|specialize (Hpos eq_refl); cbn [scaled] in *; lia].
  - cbn [is_finite] in Hx, Hy.
    pose proof (bounded_range _ _ Hx) as (Rx & _).
    pose proof (bounded_range _ _ Hy) as (Ry & _).
    unfold sub, SFsub. cbv zeta. set (ez := Z.min ex ey).
    pose proof (aligned_scaled sx mx ex ez ltac:(unfold ez; lia)) as Ax.
    pose proof (aligned_scaled sy my ey ez ltac:(unfold ez; lia)) as Ay.
    pose proof (pow2_pos (ez + 149) ltac:(unfold ez; lia)) as Pez.
    rewrite B32Round.binary_normalize_sign. f_equal. apply Z.ltb_lt. nia.
Qed.

Lemma abs_scaled x : is_finite (abs x) = is_finite x /\ scaled (abs x) = Z.abs (scaled x).
Proof.
  destruct x as [s| | |s m e]; cbn [abs SFabs is_finite scaled]; split; auto.
  destruct s; cbn [cond_Zopp]; lia.
Qed.

End B32Value.

(** ** Buffers *)

Section Buffers.

Implicit Types (buf : list float) (i j : Z) (v : float).

Lemma load_Done_inv buf i v :
  load buf i = Done v -> 0 <= i < Z.of_nat (length buf) /\ buf !! Z.to_nat i = Some v.
Proof.
  unfold load. destruct (Z.ltb_spec i 0); [discriminate|].
  destruct (buf !! Z.to_nat i) eqn:E; [|discriminate].
  intros [= ->]. split; [|reflexivity].
  apply lookup_lt_Some in E. lia.
Qed.

Lemma load_fuel buf i : load buf i <> OutOfFuel.
Proof.
  unfold load. destruct (i <? 0); [discriminate|].
  destruct (buf !! Z.to_nat i); discriminate.
Qed.

Lemma load_in_bounds buf i :
  0 <= i < Z.of_nat (length buf) -> exists v, load buf i = Done v.
Proof.
  intros H. unfold load. destruct (Z.ltb_spec i 0); [lia|].
  destruct (lookup_lt_is_Some_2 buf (Z.to_nat i)) as [v ->]; [lia|].
  eauto.
Qed.

Lemma load_out_of_bounds buf i :
  ~ 0 <= i < Z.of_nat (length buf) -> load buf i = OutOfBounds i.
Proof.
  intros H. unfold load. destruct (Z.ltb_spec i 0); [reflexivity|].
  rewrite lookup_ge_None_2; [reflexivity|lia].
Qed.

Lemma store_in_bounds buf i v :
  0 <= i < Z.of_nat (length buf) -> store buf i v = Done (<[Z.to_nat i := v]> buf).
Proof.
  intros H. unfold store.
  destruct (Z.leb_spec 0 i); [|lia].
  destruct (Z.ltb_spec i (Z.of_nat (length buf))); [reflexivity|lia].
Qed.

Lemma store_Done_inv buf i v buf' :
  store buf i v = Done buf' ->
  0 <= i < Z.of_nat (length buf) /\ buf' = <[Z.to_nat i := v]> buf.
Proof.
  unfold store.
  destruct (Z.leb_spec 0 i); [|discriminate].
  destruct (Z.ltb_spec i (Z.of_nat (length buf))); [|discriminate].
  intros [= <-]. split; [lia|reflexivity].
Qed.

Lemma store_length buf i v buf' :
  store buf i v = Done buf' -> length buf' = length buf.
Proof. intros [_ ->]%store_Done_inv. apply length_insert. Qed.

Lemma load_store_eq buf i v buf' :
  store buf i v = Done buf' -> load buf' i = Done v.
Proof.
  intros [Hi ->]%store_Done_inv. unfold load.
  destruct (Z.ltb_spec i 0); [lia|].
  rewrite list_lookup_insert_eq; [reflexivity|lia].
Qed.

Lemma load_store_ne buf i j v buf' :
  store buf i v = Done buf' -> i <> j -> load buf' j = load buf j.
Proof.
  intros [Hi ->]%store_Done_inv Hne. unfold load.
  destruct (Z.ltb_spec j 0); [reflexivity|].
  rewrite list_lookup_insert_ne; [reflexivity|lia].
Qed.

Lemma load_insert_eq buf i v :
  0 <= i < Z.of_nat (length buf) -> load (<[Z.to_nat i := v]> buf) i = Done v.
Proof. intros H. apply (load_store_eq buf). now apply store_in_bounds. Qed.

Lemma load_insert_ne buf i j v :
  0 <= i -> i <> j -> load (<[Z.to_nat i := v]> buf) j = load buf j.
Proof.
  intros H Hne. unfold load. destruct (Z.ltb_spec j 0); [reflexivity|].
  rewrite list_lookup_insert_ne; [reflexivity|lia].
Qed.

Lemma numbers_insert buf i v :
  numbers buf -> B32.is_nan v = false -> numbers (<[Z.to_nat i := v]> buf).
Proof.
  intros Hbuf Hv j w Hj.
  destruct (load_Done_inv _ _ _ Hj) as [Hb Hw]. rewrite length_insert in Hb.
  destruct (decide (Z.to_nat i = Z.to_nat j)) as [E|E].
  - rewrite <- E, list_lookup_insert_eq in Hw by lia. congruence.
  - rewrite list_lookup_insert_ne in Hw by exact E.
    apply (Hbuf j). unfold load. destruct (Z.ltb_spec j 0); [lia|]. now rewrite Hw.
Qed.

Lemma load_ext buf buf' :
  length buf = length buf' ->
  (forall i, 0 <= i < Z.of_nat (length buf) -> load buf i = load buf' i) ->
  buf = buf'.
Proof.
  intros Hlen H. apply list_eq_same_length with (n := length buf); [congruence|reflexivity|].
  intros n a b Hn Ha Hb.
  specialize (H (Z.of_nat n) ltac:(lia)). unfold load in H.
  destruct (Z.ltb_spec (Z.of_nat n) 0); [lia|].
  rewrite Nat2Z.id, Ha, Hb in H. congruence.
Qed.

End Buffers.

(** ** Loops *)

Section Loops.

Context {S : Type}.
Implicit Types (body : Z -> S -> outcome S) (s : S).

(** An invariant [P i s] that the body carries from [i] to [i + 1]
    holds at the exit of the loop, which is reached. *)
Lemma for_range_invariant (P : Z -> S -> Prop) body n i s :
  P i s ->
  (forall j t, i <= j < i + Z.of_nat n -> P j t ->
               exists t', body j t = Done t' /\ P (j + 1) t') ->
  exists s', for_range n i body s = Done s' /\ P (i + Z.of_nat n) s'.
Proof.
  revert i s. induction n as [|n IH]; intros i s Hs Hbody; simpl.
  - exists s. split; [reflexivity|]. now replace (i + Z.of_nat 0) with i by lia.
  - destruct (Hbody i s ltac:(lia) Hs) as (t & -> & Ht). simpl.
    destruct (IH (i + 1) t Ht) as (s' & Hrun & Hs').
    + intros j u Hj. apply Hbody. lia.
    + exists s'. split; [exact Hrun|].
      now replace (i + Z.of_nat (Datatypes.S n)) with (i + 1 + Z.of_nat n) by lia.
Qed.

Lemma for_loop_invariant (P : Z -> S -> Prop) body lo hi s :
  lo <= hi ->
  P lo s ->
  (forall j t, lo <= j < hi -> P j t ->
               exists t', body j t = Done t' /\ P (j + 1) t') ->
  exists s', for_loop lo hi body s = Done s' /\ P hi s'.
Proof.
  intros Hle Hs Hbody. unfold for_loop.
  destruct (for_range_invariant P body (Z.to_nat (hi - lo)) lo s Hs) as (s' & Hrun & Hs').
  - intros j t Hj. apply Hbody. lia.
  - exists s'. split; [exact Hrun|].
    now replace hi with (lo + Z.of_nat (Z.to_nat (hi - lo))) by lia.
Qed.

Lemma for_loop_empty body lo hi s : hi <= lo -> for_loop lo hi body s = Done s.
Proof. intros H. unfold for_loop. now replace (Z.to_nat (hi - lo)) with O by lia. Qed.

End Loops.

(** ** Levinson-Durbin on a degenerate frame *)

(** C3.  When [r[0] < EPS] the solver returns without a fault, the
    reflection coefficients [k[0..order-1]] are all [+0], and the LPC
    vector is [a[0] = 1.0], [a[1..order] = +0]. *)
Theorem levdurb_degenerate (EPS : float) (a k r : list float) (order : Z) (r0 : float) :
  1 <= order ->
  order + 1 <= Z.of_nat (length a) ->
  order <= Z.of_nat (length k) ->
  load r 0 = Done r0 ->
  (r0 <? EPS)%F = true ->
  exists a' k',
    levdurb EPS a k r order = Done (a', k') /\
    load a' 0 = Done B32.one /\
    (forall i, 1 <= i <= order -> load a' i = Done B32.zero) /\
    (forall i, 0 <= i < order -> load k' i = Done B32.zero).
Proof.
  intros Hord Ha Hk Hr0 Hlt. unfold levdurb.
  rewrite store_in_bounds by lia. simpl. rewrite Hr0. simpl. rewrite Hlt.
  set (a0 := <[Z.to_nat 0 := B32.one]> a).
  assert (Ha0 : load a0 0 = Done B32.one).
  { apply (load_store_eq a 0). apply store_in_bounds. lia. }
  assert (La0 : length a0 = length a) by apply length_insert.
  pose (P := fun (j : Z) (ak : list float * list float) =>
    length (fst ak) = length a /\ length (snd ak) = length k /\
    load (fst ak) 0 = Done B32.one /\
    (forall i, 1 <= i <= j -> load (fst ak) i = Done B32.zero) /\
    (forall i, 0 <= i < j -> load (snd ak) i = Done B32.zero)).
  match goal with |- context [for_loop 0 order ?b ?s] =>
    destruct (for_loop_invariant P b 0 order s) as ([a' k'] & Hrun & HP) end.
  - lia.
  - unfold P; simpl. repeat split; trivial; intros; lia.
  - intros j [aj kj] Hj (Laj & Lkj & H0 & Haj & Hkj); simpl in *.
    pose proof (store_in_bounds kj j B32.zero ltac:(lia)) as Hsk. rewrite Hsk. simpl.
    pose proof (store_in_bounds aj (j + 1) B32.zero ltac:(lia)) as Hsa. rewrite Hsa. simpl.
    eexists. split; [reflexivity|]. unfold P; simpl.
    rewrite !length_insert. repeat split; trivial.
    + rewrite (load_store_ne _ _ _ _ _ Hsa) by lia. exact H0.
    + intros i Hi. destruct (Z.eq_dec i (j + 1)) as [->|Hne].
      * apply (load_store_eq _ _ _ _ Hsa).
      * rewrite (load_store_ne _ _ _ _ _ Hsa) by lia. apply Haj. lia.
    + intros i Hi. destruct (Z.eq_dec i j) as [->|Hne].
      * apply (load_store_eq _ _ _ _ Hsk).
      * rewrite (load_store_ne _ _ _ _ _ Hsk) by lia. apply Hkj. lia.
  - exists a', k'. destruct HP as (_ & _ & H0 & Haj & Hkj). simpl in *.
    repeat split; assumption.
Qed.

(** [levdurb_degenerate] on a silent frame of order 2, with
    [EPS = 2^-52]. *)
Lemma levdurb_degenerate_witness :
  exists a' k',
    levdurb (B32.ldexp 1 (-52)) [B32.two; B32.two; B32.two] [B32.two; B32.two]
      [B32.zero; B32.zero; B32.zero] 2 = Done (a', k') /\
    load a' 0 = Done B32.one /\
    (forall i, 1 <= i <= 2 -> load a' i = Done B32.zero) /\
    (forall i, 0 <= i < 2 -> load k' i = Done B32.zero).
Proof.
  apply (levdurb_degenerate _ _ _ _ _ B32.zero).
  - lia.
  - simpl. lia.
  - simpl. lia.
  - reflexivity.
  - reflexivity.
Defined.

(** ** Scalar quantization *)

Lemma sorted_by_adjacent rel cb j a b :
  sorted_by rel cb = true ->
  load cb j = Done a -> load cb (j + 1) = Done b -> rel a b = true.
Proof.
  intros Hs [Hj Ha]%load_Done_inv [_ Hb]%load_Done_inv.
  replace (Z.to_nat (j + 1)) with (Datatypes.S (Z.to_nat j)) in Hb by lia.
  clear Hj. revert cb Hs Ha Hb. generalize (Z.to_nat j) as n. clear j.
  induction n as [|n IH]; intros [|c [|d cb]] Hs Ha Hb; try discriminate;
    simpl in Hs; apply andb_prop in Hs as [Hcd Hs].
  - simpl in Ha, Hb. congruence.
  - apply (IH (d :: cb)); auto.
Qed.

(** In a strictly ascending codebook every earlier entry is below
    every later one. *)
Lemma strictly_ascending_lt cb i j a b :
  strictly_ascending cb = true ->
  i < j -> load cb i = Done a -> load cb j = Done b -> (a <? b)%F = true.
Proof.
  intros Hs Hij Ha Hb.
  destruct (load_Done_inv _ _ _ Ha) as [Hi _].
  destruct (load_Done_inv _ _ _ Hb) as [Hj _].
  assert (forall n, let k := i + 1 + Z.of_nat n in
            forall c, load cb k = Done c -> (a <? c)%F = true) as H.
  { induction n as [|n IH]; intros k c Hc.
    - apply (sorted_by_adjacent _ cb i); auto. unfold k in Hc.
      now replace (i + 1 + Z.of_nat 0) with (i + 1) in Hc by lia.
    - destruct (load_Done_inv _ _ _ Hc) as [Hk _]. unfold k in *.
      destruct (load_in_bounds cb (i + 1 + Z.of_nat n) ltac:(lia)) as [d Hd].
      apply (B32Facts.ltb_trans _ d); [apply IH; exact Hd|].
      apply (sorted_by_adjacent _ cb (i + 1 + Z.of_nat n)); auto.
      now replace (i + 1 + Z.of_nat n + 1) with (i + 1 + Z.of_nat (Datatypes.S n)) by lia. }
  apply (H (Z.to_nat (j - i - 1))).
  now replace (i + 1 + Z.of_nat (Z.to_nat (j - i - 1))) with j by lia.
Qed.

(** The scan never runs out of the fuel [sort_sq] gives it, whatever
    the buffer and the size passed. *)
Lemma sort_sq_scan_fuel (x : float) (cb : list float) (cb_size : Z) fuel i :
  cb_size - 1 - i <= Z.of_nat fuel ->
  sort_sq_scan x cb cb_size fuel i <> OutOfFuel.
Proof.
  revert i. induction fuel as [|fuel IH]; intros i Hfuel; simpl.
  - destruct (load cb i) as [c| |] eqn:E; simpl;
      [|discriminate|now apply load_fuel in E].
    destruct (Z.ltb_spec i (cb_size - 1)); [lia|].
    rewrite andb_false_r. discriminate.
  - destruct (load cb i) as [c| |] eqn:E; simpl;
      [|discriminate|now apply load_fuel in E].
    destruct ((x >? c)%F && (i <? cb_size - 1)); [|discriminate].
    apply IH. lia.
Qed.

Lemma sort_sq_terminates (x : float) (cb : list float) (cb_size : Z) :
  sort_sq x cb cb_size <> OutOfFuel.
Proof.
  unfold sort_sq.
  destruct (load cb 0) as [c0| |] eqn:E0; simpl;
    [|discriminate|now apply load_fuel in E0].
  destruct (x <=? c0)%F; simpl; [discriminate|].
  pose proof (sort_sq_scan_fuel x cb cb_size (Z.to_nat cb_size) 0 ltac:(lia)) as Hscan.
  destruct (sort_sq_scan x cb cb_size (Z.to_nat cb_size) 0) as [i| |]; simpl;
    [|discriminate|congruence].
  destruct (load cb i) as [ci| |] eqn:Ei; simpl;
    [|discriminate|now apply load_fuel in Ei].
  destruct (load cb (i - 1)) as [cj| |] eqn:Ej; simpl;
    [|discriminate|now apply load_fuel in Ej].
  destruct (x >? (ci + cj) / B32.two)%F; simpl; rewrite ?Ei, ?Ej; discriminate.
Qed.

Section SortSqFacts.

Import B32Facts.

Variable x : float.
Variable cb : list float.
Variable cb_size : Z.
Hypothesis cb_length : Z.of_nat (length cb) = cb_size.

(** The scan stops, with enough fuel, at the first index whose entry is
    not below [x], or at the last index. *)
Lemma sort_sq_scan_spec fuel i :
  0 <= i <= cb_size - 1 ->
  cb_size - 1 - i <= Z.of_nat fuel ->
  exists i' c',
    sort_sq_scan x cb cb_size fuel i = Done i' /\
    i <= i' <= cb_size - 1 /\
    load cb i' = Done c' /\
    (forall j c, i <= j < i' -> load cb j = Done c -> (x >? c)%F = true) /\
    ((x >? c')%F = false \/ i' = cb_size - 1).
Proof.
  revert i. induction fuel as [|fuel IH]; intros i Hi Hfuel.
  - assert (i = cb_size - 1) as Hlast by lia.
    destruct (load_in_bounds cb i ltac:(lia)) as [c Hc].
    exists i, c. simpl. rewrite Hc; simpl.
    destruct (Z.ltb_spec i (cb_size - 1)); [lia|].
    rewrite andb_false_r. repeat split; try lia; auto; intros; lia.
  - destruct (load_in_bounds cb i ltac:(lia)) as [c Hc].
    simpl. rewrite Hc; simpl.
    destruct (x >? c)%F eqn:Hgt; simpl.
    + destruct (Z.ltb_spec i (cb_size - 1)).
      * destruct (IH (i + 1) ltac:(lia) ltac:(lia)) as (i' & c' & Hrun & Hi' & Hc' & Hbelow & Hstop).
        exists i', c'. repeat split; try lia; auto.
        intros j d Hj Hd. destruct (Z.eq_dec j i) as [->|Hne].
        -- congruence.
        -- apply (Hbelow j); [lia|exact Hd].
      * exists i, c. repeat split; try lia; auto; intros; lia.
    + exists i, c. repeat split; try lia; auto; intros; lia.
Qed.

Lemma sort_sq_low c0 :
  load cb 0 = Done c0 -> (x <=? c0)%F = true -> sort_sq x cb cb_size = Done (c0, 0).
Proof. intros H0 Hle. unfold sort_sq. rewrite H0; simpl. rewrite Hle. reflexivity. Qed.

(** Above [cb[0]], the result is decided by the strict comparison of
    [x] with the midpoint of the two entries around the scan's stop. *)
Lemma sort_sq_high c0 :
  2 <= cb_size ->
  load cb 0 = Done c0 -> (c0 <? x)%F = true ->
  exists i ci cj,
    1 <= i <= cb_size - 1 /\
    load cb i = Done ci /\
    load cb (i - 1) = Done cj /\
    (forall j c, 0 <= j < i -> load cb j = Done c -> (c <? x)%F = true) /\
    ((x >? ci)%F = false \/ i = cb_size - 1) /\
    sort_sq x cb cb_size =
      Done (if (x >? midpoint ci cj)%F then (ci, i) else (cj, i - 1)).
Proof.
  intros Hsize H0 Hlt.
  destruct (sort_sq_scan_spec (Z.to_nat cb_size) 0 ltac:(lia) ltac:(lia))
    as (i & ci & Hrun & Hi & Hci & Hbelow & Hstop).
  assert (1 <= i) as Hi1.
  { destruct (Z.eq_dec i 0) as [->|]; [|lia].
    destruct Hstop; [|lia]. congruence. }
  destruct (load_in_bounds cb (i - 1) ltac:(lia)) as [cj Hcj].
  exists i, ci, cj. repeat split; try lia; auto.
  unfold sort_sq. rewrite H0; simpl.
  rewrite (ltb_asym _ _ Hlt), Hrun; simpl. rewrite Hci; simpl. rewrite Hcj; simpl.
  fold (midpoint ci cj). destruct (x >? midpoint ci cj)%F; reflexivity.
Qed.

End SortSqFacts.

(** C2, as the code has it.  For an ascending codebook of at least two
    entries and [cb[0] < x], let [i] be the smallest index with
    [x <= cb[i]], or the last index.  The result is [cb[i]] when [x] is
    strictly above the midpoint of [cb[i]] and [cb[i-1]], and [cb[i-1]]
    otherwise: exactly at the midpoint the lower index [i - 1] wins. *)
Theorem sort_sq_midpoint_rule (x : float) (cb : list float) (cb_size : Z) (c0 : float) :
  2 <= cb_size ->
  Z.of_nat (length cb) = cb_size ->
  ascending cb = true ->
  load cb 0 = Done c0 ->
  (c0 <? x)%F = true ->
  exists i ci cj,
    1 <= i <= cb_size - 1 /\
    load cb i = Done ci /\
    load cb (i - 1) = Done cj /\
    (forall j c, 0 <= j < i -> load cb j = Done c -> (x <=? c)%F = false) /\
    ((x <=? ci)%F = true \/ i = cb_size - 1) /\
    sort_sq x cb cb_size =
      Done (if (x >? midpoint ci cj)%F then (ci, i) else (cj, i - 1)) /\
    ((x =? midpoint ci cj)%F = true -> sort_sq x cb cb_size = Done (cj, i - 1)).
Proof.
  intros Hsize Hlen Hasc H0 Hlt.
  destruct (sort_sq_high x cb cb_size Hlen c0 Hsize H0 Hlt)
    as (i & ci & cj & Hi & Hci & Hcj & Hbelow & Hstop & Hres).
  exists i, ci, cj. repeat split; try lia; auto.
  - intros j c Hj Hc. apply B32Facts.ltb_asym. eauto.
  - destruct Hstop as [Hstop|]; [left|now right].
    assert ((cj <=? ci)%F = true) as Hord.
    { apply (sorted_by_adjacent _ cb (i - 1)); auto.
      now replace (i - 1 + 1) with i by lia. }
    apply B32Facts.not_ltb_leb; auto.
    + apply (B32Facts.leb_not_nan _ _ Hord).
    + apply (B32Facts.ltb_not_nan _ _ Hlt).
  - intros Heq. rewrite Hres.
    destruct (B32Facts.eqb_not_ltb _ _ Heq) as [_ ->]. reflexivity.
Qed.

(** The hypotheses of [sort_sq_midpoint_rule] hold for the codebook
    [0, 4, 8] and [x = 5]. *)
Lemma sort_sq_midpoint_rule_witness :
  exists i ci cj,
    1 <= i <= 3 - 1 /\
    load [B32.of_Z 0; B32.of_Z 4; B32.of_Z 8] i = Done ci /\
    load [B32.of_Z 0; B32.of_Z 4; B32.of_Z 8] (i - 1) = Done cj /\
    (forall j c, 0 <= j < i ->
       load [B32.of_Z 0; B32.of_Z 4; B32.of_Z 8] j = Done c ->
       (B32.of_Z 5 <=? c)%F = false) /\
    ((B32.of_Z 5 <=? ci)%F = true \/ i = 3 - 1) /\
    sort_sq (B32.of_Z 5) [B32.of_Z 0; B32.of_Z 4; B32.of_Z 8] 3 =
      Done (if (B32.of_Z 5 >? midpoint ci cj)%F then (ci, i) else (cj, i - 1)) /\
    ((B32.of_Z 5 =? midpoint ci cj)%F = true ->
     sort_sq (B32.of_Z 5) [B32.of_Z 0; B32.of_Z 4; B32.of_Z 8] 3 = Done (cj, i - 1)).
Proof.
  apply (sort_sq_midpoint_rule _ _ _ (B32.of_Z 0)).
  - lia.
  - reflexivity.
  - reflexivity.
  - reflexivity.
  - reflexivity.
Defined.

(** C2 as the claim words it fails: with the codebook [0, 2] and
    [x = 1], the scan stops at [i = 1], [x] is exactly the midpoint of
    [cb[1]] and [cb[0]], and the index returned is [0], not [1]. *)
Lemma sort_sq_tie_counterexample :
  (B32.one =? midpoint B32.two B32.zero)%F = true /\
  sort_sq_scan B32.one [B32.zero; B32.two] 2 2 0 = Done 1 /\
  sort_sq B32.one [B32.zero; B32.two] 2 = Done (B32.zero, 0) /\
  sort_sq B32.one [B32.zero; B32.two] 2 <> Done (B32.two, 1).
Proof. vm_compute. repeat split; discriminate. Qed.

(** C6, as the code has it.  In a strictly ascending codebook of
    numbers, quantizing the entry [cb[0]] returns index [0], and
    quantizing an entry [cb[j]], [j >= 1], returns index [j] exactly
    when the computed midpoint of [cb[j]] and [cb[j-1]] is strictly
    below [cb[j]], and index [j - 1] otherwise; every [x <= cb[0]]
    returns index [0] and the value [cb[0]]. *)
Theorem sort_sq_roundtrip (cb : list float) (cb_size : Z) :
  1 <= cb_size ->
  Z.of_nat (length cb) = cb_size ->
  strictly_ascending cb = true ->
  (forall c0, load cb 0 = Done c0 -> B32.is_nan c0 = false ->
     sort_sq c0 cb cb_size = Done (c0, 0)) /\
  (forall j cj cp, 1 <= j -> load cb j = Done cj -> load cb (j - 1) = Done cp ->
     sort_sq cj cb cb_size =
       Done (if (midpoint cj cp <? cj)%F then (cj, j) else (cp, j - 1))) /\
  (forall x c0, load cb 0 = Done c0 -> (x <=? c0)%F = true ->
     sort_sq x cb cb_size = Done (c0, 0)).
Proof.
  intros Hsize Hlen Hasc. split; [|split].
  - intros c0 H0 Hnan. apply sort_sq_low; auto. now apply B32Facts.leb_refl.
  - intros j cj cp Hj Hcj Hcp.
    destruct (load_Done_inv _ _ _ Hcj) as [Hjb _].
    destruct (load_in_bounds cb 0 ltac:(lia)) as [c0 H0].
    assert ((c0 <? cj)%F = true) as Hlt.
    { apply (strictly_ascending_lt cb 0 j); auto. lia. }
    destruct (sort_sq_high cj cb cb_size Hlen c0 ltac:(lia) H0 Hlt)
      as (i & ci & ci' & Hi & Hci & Hci' & Hbelow & Hstop & Hres).
    assert (i = j) as ->.
    { destruct (Z.lt_trichotomy i j) as [Hlt'|[?|Hgt]]; [|assumption|].
      - pose proof (strictly_ascending_lt cb i j ci cj Hasc Hlt' Hci Hcj).
        destruct Hstop; [congruence|lia].
      - pose proof (Hbelow j cj ltac:(lia) Hcj) as Habs.
        rewrite B32Facts.ltb_irrefl in Habs. discriminate. }
    assert (ci = cj) as -> by congruence.
    assert (ci' = cp) as -> by congruence.
    exact Hres.
  - intros x c0 H0 Hle. now apply sort_sq_low.
Qed.

(** The hypotheses of [sort_sq_roundtrip] hold for the codebook [0, 4, 8]. *)
Lemma sort_sq_roundtrip_witness :
  sort_sq (B32.of_Z 4) [B32.of_Z 0; B32.of_Z 4; B32.of_Z 8] 3 = Done (B32.of_Z 4, 1).
Proof.
  destruct (sort_sq_roundtrip [B32.of_Z 0; B32.of_Z 4; B32.of_Z 8] 3) as (_ & H & _).
  - lia.
  - reflexivity.
  - reflexivity.
  - apply (H 1 (B32.of_Z 4) (B32.of_Z 0)).
    + lia.
    + reflexivity.
    + reflexivity.
Defined.

(** C6 as the claim words it fails in binary32: the codebook
    [2^127, 1.5 * 2^127] is strictly ascending, the sum of its two
    entries exceeds the largest [float], so the midpoint is computed as
    [+infinity], and quantizing [cb[1]] returns index [0]. *)
Lemma sort_sq_roundtrip_counterexample :
  strictly_ascending [B32.ldexp 1 127; B32.ldexp 3 126] = true /\
  midpoint (B32.ldexp 3 126) (B32.ldexp 1 127) = S754_infinity false /\
  sort_sq (B32.ldexp 3 126) [B32.ldexp 1 127; B32.ldexp 3 126] 2
    = Done (B32.ldexp 1 127, 0) /\
  sort_sq (B32.ldexp 3 126) [B32.ldexp 1 127; B32.ldexp 3 126] 2
    <> Done (B32.ldexp 3 126, 1).
Proof. vm_compute. repeat split; discriminate. Qed.

(** The same failure without overflow: [1 + 2^-23] and [1 + 2^-22] are
    neighbours, their sum is rounded to even, and the computed midpoint
    is [cb[1]] itself. *)
Lemma sort_sq_roundtrip_neighbours :
  strictly_ascending [B32.ldexp 8388609 (-23); B32.ldexp 8388610 (-23)] = true /\
  midpoint (B32.ldexp 8388610 (-23)) (B32.ldexp 8388609 (-23)) = B32.ldexp 8388610 (-23) /\
  sort_sq (B32.ldexp 8388610 (-23)) [B32.ldexp 8388609 (-23); B32.ldexp 8388610 (-23)] 2
    = Done (B32.ldexp 8388609 (-23), 0).
Proof. vm_compute. repeat split. Qed.

(** C10.  With an ascending codebook of [cb_size >= 2] entries and a
    number [x], the quantizer finishes without reading outside
    [cb[0 .. cb_size-1]].  With a single entry below [x] the scan stops
    at [i = 0] and the midpoint reads [cb[-1]]. *)
Theorem sort_sq_accesses :
  (forall x cb cb_size,
     2 <= cb_size ->
     Z.of_nat (length cb) = cb_size ->
     ascending cb = true ->
     B32.is_nan x = false ->
     exists r, sort_sq x cb cb_size = Done r) /\
  (forall x c0,
     (x >? c0)%F = true ->
     sort_sq_scan x [c0] 1 (Z.to_nat 1) 0 = Done 0 /\
     sort_sq x [c0] 1 = OutOfBounds (-1)).
Proof.
  split.
  - intros x cb cb_size Hsize Hlen Hasc Hnan.
    destruct (load_in_bounds cb 0 ltac:(lia)) as [c0 H0].
    destruct (load_in_bounds cb 1 ltac:(lia)) as [c1 H1].
    pose proof (sorted_by_adjacent _ cb 0 c0 c1 Hasc H0 H1) as H01.
    destruct (x <=? c0)%F eqn:Hle.
    + exists (c0, 0). now apply sort_sq_low.
    + assert ((c0 <? x)%F = true) as Hlt.
      { apply B32Facts.not_leb_ltb; auto. apply (B32Facts.leb_not_nan _ _ H01). }
      destruct (sort_sq_high x cb cb_size Hlen c0 Hsize H0 Hlt)
        as (i & ci & cj & _ & _ & _ & _ & _ & ->).
      eauto.
  - intros x c0 Hgt. unfold sort_sq. simpl.
    rewrite Hgt, (B32Facts.ltb_asym _ _ Hgt). simpl.
    split; reflexivity.
Qed.

(** [sort_sq_accesses] at the codebook [0, 4, 8] with [x = 5], and at
    the one-entry codebook [0] with [x = 1]. *)
Lemma sort_sq_accesses_witness :
  (exists r, sort_sq (B32.of_Z 5) [B32.of_Z 0; B32.of_Z 4; B32.of_Z 8] 3 = Done r) /\
  sort_sq B32.one [B32.zero] 1 = OutOfBounds (-1).
Proof.
  split.
  - apply (proj1 sort_sq_accesses).
    + lia.
    + reflexivity.
    + reflexivity.
    + reflexivity.
  - apply (proj2 sort_sq_accesses). reflexivity.
Defined.

(** ** The stability guard *)

Section LsfFacts.

Import Lsf.

Lemma for_loop_preserves {S : Type} (Q : S -> Prop) body lo hi (s : S) :
  Q s ->
  (forall j t, lo <= j < hi -> Q t -> exists t', body j t = Done t' /\ Q t') ->
  exists s', for_loop lo hi body s = Done s' /\ Q s'.
Proof.
  intros Hs Hbody. destruct (Z.le_gt_cases lo hi) as [Hle|Hgt].
  - apply (for_loop_invariant (fun _ => Q)); auto.
  - rewrite for_loop_empty by lia. eauto.
Qed.

Lemma guarded_step_refl pos st : guarded_step pos st st.
Proof. split; auto. Qed.

Lemma guarded_step_trans pos st1 st2 st3 :
  guarded_step pos st1 st2 -> guarded_step pos st2 st3 -> guarded_step pos st1 st3.
Proof.
  intros [L1 F1 G1] [L2 F2 G2]. split.
  - congruence.
  - intros j H H'. rewrite F2, F1; auto.
  - destruct G2 as [->|(C2 & r2 & N2 & R2)]; [exact G1|]. right. split; [exact C2|].
    destruct G1 as [->|(C1 & r1 & N1 & R1)].
    + eauto.
    + exists (r1 ++ r2). split.
      * destruct r1; [congruence | discriminate].
      * now rewrite R2, R1, app_assoc.
Qed.

Ltac in_bounds := rewrite ?length_insert; lia.

Lemma separate_spec pos st :
  0 <= pos -> pos + 1 < Z.of_nat (length (lsf st)) ->
  exists st', separate pos st = Done st' /\ guarded_step pos st st' /\
              (numbers (lsf st) -> numbers (lsf st')).
Proof.
  intros H0 H1. unfold separate.
  destruct (load_in_bounds (lsf st) (pos + 1) ltac:(lia)) as [hi Hhi].
  destruct (load_in_bounds (lsf st) pos ltac:(lia)) as [lo Hlo].
  rewrite Hhi; simpl. rewrite Hlo; simpl.
  destruct (hi - lo <? eps)%F; [|exists st; split; [reflexivity|split; [apply guarded_step_refl|auto]]].
  destruct (hi <? lo)%F.
  - rewrite store_in_bounds by in_bounds. simpl.
    rewrite load_insert_eq by in_bounds. simpl.
    rewrite store_in_bounds by in_bounds. simpl.
    eexists. split; [reflexivity|]. split; [split; simpl|].
    + in_bounds.
    + intros j Hj Hj'. rewrite !load_insert_ne by lia. reflexivity.
    + right. split; [reflexivity|]. eexists; split; [|reflexivity]. discriminate.
    + intros Hn. simpl. pose proof (Hn _ _ Hlo) as Hlo'.
      assert (B32.is_nan (lo + eps2)%F = false) as Hs
        by (apply B32Round.add_finite_not_nan; exact Hlo').
      apply numbers_insert; [apply numbers_insert; assumption|].
      apply B32Round.sub_finite_not_nan; exact Hs.
  - rewrite store_in_bounds by in_bounds. simpl.
    rewrite store_in_bounds by in_bounds. simpl.
    eexists. split; [reflexivity|]. split; [split; simpl|].
    + in_bounds.
    + intros j Hj Hj'. rewrite !load_insert_ne by lia. reflexivity.
    + right. split; [reflexivity|]. eexists; split; [|reflexivity]. discriminate.
    + intros Hn. simpl.
      apply numbers_insert; [apply numbers_insert; [assumption|]|].
      * apply B32Round.sub_finite_not_nan. exact (Hn _ _ Hlo).
      * apply B32Round.add_finite_not_nan. exact (Hn _ _ Hhi).
Qed.

Lemma clamp_min_spec pos st :
  0 <= pos -> pos + 1 < Z.of_nat (length (lsf st)) ->
  exists st' v, clamp_min pos st = Done st' /\ guarded_step pos st st' /\
                (numbers (lsf st) -> numbers (lsf st')) /\
                load (lsf st') pos = Done v /\ (v <? minlsf)%F = false.
Proof.
  intros H0 H1. unfold clamp_min.
  destruct (load_in_bounds (lsf st) pos ltac:(lia)) as [v Hv].
  rewrite Hv; simpl. destruct (v <? minlsf)%F eqn:Hlt.
  - rewrite store_in_bounds by in_bounds. simpl.
    eexists _, minlsf. split; [reflexivity|]. split; [split; simpl|split; [|split]]; simpl.
    + in_bounds.
    + intros j Hj Hj'. rewrite !load_insert_ne by lia. reflexivity.
    + right. split; [reflexivity|]. eexists; split; [|reflexivity]. discriminate.
    + intros Hn. apply numbers_insert; auto.
    + apply load_insert_eq. lia.
    + reflexivity.
  - exists st, v. split; [reflexivity|]. split; [apply guarded_step_refl|]. auto.
Qed.

Lemma clamp_max_spec pos st v0 :
  0 <= pos -> pos + 1 < Z.of_nat (length (lsf st)) ->
  load (lsf st) pos = Done v0 -> (v0 <? minlsf)%F = false ->
  exists st' v, clamp_max pos st = Done st' /\ guarded_step pos st st' /\
                (numbers (lsf st) -> numbers (lsf st')) /\
                load (lsf st') pos = Done v /\
                (v <? minlsf)%F = false /\ (v >? maxlsf)%F = false.
Proof.
  intros H0 H1 Hv Hmin. unfold clamp_max.
  rewrite Hv; simpl. destruct (v0 >? maxlsf)%F eqn:Hgt.
  - rewrite store_in_bounds by in_bounds. simpl.
    eexists _, maxlsf. split; [reflexivity|].
    split; [split; simpl|split; [|split; [|split]]]; simpl.
    + in_bounds.
    + intros j Hj Hj'. rewrite !load_insert_ne by lia. reflexivity.
    + right. split; [reflexivity|]. eexists; split; [|reflexivity]. discriminate.
    + intros Hn. apply numbers_insert; auto.
    + apply load_insert_eq. lia.
    + reflexivity.
    + reflexivity.
  - exists st, v0. split; [reflexivity|]. split; [apply guarded_step_refl|]. auto.
Qed.

(** The body of the inner loop: it finishes, touches [pos] and
    [pos + 1] only, and leaves [lsf[pos]] neither below [minlsf] nor
    above [maxlsf]. *)
Lemma check_pos_spec pos st :
  0 <= pos -> pos + 1 < Z.of_nat (length (lsf st)) ->
  exists st' v, check_pos pos st = Done st' /\ guarded_step pos st st' /\
                (numbers (lsf st) -> numbers (lsf st')) /\
                load (lsf st') pos = Done v /\
                (v <? minlsf)%F = false /\ (v >? maxlsf)%F = false.
Proof.
  intros H0 H1. unfold check_pos.
  destruct (separate_spec pos st H0 H1) as (st1 & -> & G1 & N1). simpl.
  pose proof (step_length _ _ _ G1) as L1.
  destruct (clamp_min_spec pos st1 H0 ltac:(lia)) as (st2 & v2 & -> & G2 & N2 & Hv2 & Hmin). simpl.
  pose proof (step_length _ _ _ G2) as L2.
  destruct (clamp_max_spec pos st2 v2 H0 ltac:(lia) Hv2 Hmin)
    as (st3 & v3 & -> & G3 & N3 & Hv3 & Hmin3 & Hmax3).
  exists st3, v3. repeat split; auto.
  - rewrite (step_length _ _ _ G3). lia.
  - intros j Hj Hj'. rewrite (step_frame _ _ _ G3), (step_frame _ _ _ G2), (step_frame _ _ _ G1); auto.
  - apply (step_flag _ _ _ (guarded_step_trans _ _ _ _ (guarded_step_trans _ _ _ _ G1 G2) G3)).
Qed.

Lemma all_numbers_spec buf : all_numbers buf = true -> numbers buf.
Proof.
  intros H j v [_ Hv]%load_Done_inv. unfold all_numbers in H.
  rewrite forallb_forall in H. apply negb_true_iff, H.
  apply list_elem_of_In, list_elem_of_lookup. eauto.
Qed.

Lemma check_pos_keeps table pos st :
  guard_invariant table st ->
  0 <= pos -> pos + 1 < Z.of_nat (length table) ->
  exists st' v,
    check_pos pos st = Done st' /\ guard_invariant table st' /\
    (forall j, j <> pos -> j <> pos + 1 -> load (lsf st') j = load (lsf st) j) /\
    load (lsf st') pos = Done v /\ clamped v.
Proof.
  intros (L & N & F) H0 H1.
  destruct (check_pos_spec pos st H0 ltac:(lia)) as (st' & v & Hrun & G & N' & Hv & Hmin & Hmax).
  exists st', v. repeat split; auto.
  - rewrite (step_length _ _ _ G). exact L.
  - destruct (step_flag _ _ _ G) as [->|(C & r & Hr & R)]; [exact F|].
    right. split; [exact C|]. rewrite R. destruct (repairs st); [exact Hr|discriminate].
  - apply (step_frame _ _ _ G).
Qed.

Variable table : list float.
Variables dim NoAn : Z.
Hypothesis NoAn_nonneg : 0 <= NoAn.
Hypothesis table_length : Z.of_nat (length table) = NoAn * dim.

Lemma check_vector_spec m st :
  guard_invariant table st ->
  0 <= m < NoAn ->
  exists st',
    check_vector dim m st = Done st' /\ guard_invariant table st' /\
    (forall j, j < m * dim \/ (m + 1) * dim <= j -> load (lsf st') j = load (lsf st) j) /\
    (forall k, 0 <= k < dim - 1 ->
       exists v, load (lsf st') (m * dim + k) = Done v /\ clamped v).
Proof.
  intros G Hm. unfold check_vector.
  destruct (Z.le_gt_cases 0 (dim - 1)) as [Hdim|Hdim].
  2:{ rewrite for_loop_empty by lia. exists st.
      split; [reflexivity|]. split; [exact G|]. split; [reflexivity|]. intros; lia. }
  pose (P := fun (k : Z) (st' : state) =>
    guard_invariant table st' /\
    (forall j, j < m * dim \/ (m + 1) * dim <= j -> load (lsf st') j = load (lsf st) j) /\
    (forall k', 0 <= k' < k ->
       exists v, load (lsf st') (m * dim + k') = Done v /\ clamped v)).
  match goal with |- context [for_loop 0 (dim - 1) ?b st] =>
    destruct (for_loop_invariant P b 0 (dim - 1) st Hdim) as (st' & Hrun & HP) end.
  - unfold P. split; [exact G|]. split; [reflexivity|]. intros; lia.
  - intros k t Hk (Gt & Ft & Ct).
    assert (0 <= m * dim) as Hlo by (apply Z.mul_nonneg_nonneg; lia).
    assert ((m + 1) * dim <= NoAn * dim) as Hhi
      by (apply Z.mul_le_mono_nonneg_r; lia).
    assert ((m + 1) * dim = m * dim + dim) as Hnext by lia.
    destruct (check_pos_keeps table (m * dim + k) t Gt ltac:(lia) ltac:(lia))
      as (t' & v & Hstep & Gt' & Ft' & Hv & Cv).
    exists t'. split; [exact Hstep|]. unfold P. split; [exact Gt'|]. split.
    + intros j Hj. rewrite Ft' by lia. apply Ft, Hj.
    + intros k' Hk'. destruct (Z.eq_dec k' k) as [->|Hne]; [eauto|].
      destruct (Ct k' ltac:(lia)) as (w & Hw & Cw).
      exists w. split; [|exact Cw]. rewrite Ft' by lia. exact Hw.
  - exists st'. destruct HP as (G' & F' & C'). auto.
Qed.

Lemma check_pass_spec st :
  guard_invariant table st ->
  exists st',
    check_pass dim NoAn st = Done st' /\ guard_invariant table st' /\
    (forall m k, 0 <= m < NoAn -> 0 <= k < dim - 1 ->
       exists v, load (lsf st') (m * dim + k) = Done v /\ clamped v).
Proof.
  intros G. unfold check_pass.
  pose (P := fun (m : Z) (st' : state) =>
    guard_invariant table st' /\
    (forall m' k, 0 <= m' < m -> 0 <= k < dim - 1 ->
       exists v, load (lsf st') (m' * dim + k) = Done v /\ clamped v)).
  match goal with |- context [for_loop 0 NoAn ?b st] =>
    destruct (for_loop_invariant P b 0 NoAn st NoAn_nonneg) as (st' & Hrun & HP) end.
  - unfold P. split; auto. intros; lia.
  - intros m t Hm (Gt & Ct).
    destruct (check_vector_spec m t Gt Hm) as (t' & Hstep & Gt' & Ft' & Cv).
    exists t'. split; [exact Hstep|]. unfold P. split; [exact Gt'|].
    intros m' k Hm' Hk. destruct (Z.eq_dec m' m) as [->|Hne]; [eauto|].
    destruct (Ct m' k ltac:(lia) Hk) as (w & Hw & Cw).
    exists w. split; [|exact Cw]. rewrite Ft'; [exact Hw|].
    left. assert ((m' + 1) * dim <= m * dim)
      by (apply Z.mul_le_mono_nonneg_r; lia). lia.
  - exists st'. destruct HP as (G' & C'). auto.
Qed.

(** The whole call: two passes. *)
Lemma run_spec :
  exists st,
    run table dim NoAn = Done st /\ guard_invariant table st /\
    (forall m k, 0 <= m < NoAn -> 0 <= k < dim - 1 ->
       exists v, load (lsf st) (m * dim + k) = Done v /\ clamped v).
Proof.
  unfold run, for_loop. simpl.
  destruct (check_pass_spec {| lsf := table; change := 0; repairs := [] |})
    as (st1 & -> & G1 & _).
  { repeat split; auto. }
  simpl. destruct (check_pass_spec st1 G1) as (st2 & -> & G2 & C2).
  simpl. eauto.
Qed.

End LsfFacts.

(** C1, as the code has it.  On a table of [NoAn] vectors of [dim >= 2]
    numbers the guard returns, and afterwards every coefficient but the
    last of each vector lies in [[minlsf, maxlsf]]. *)
Theorem LSF_check_range (table : list float) (dim NoAn : Z) :
  2 <= dim ->
  0 <= NoAn ->
  Z.of_nat (length table) = NoAn * dim ->
  all_numbers table = true ->
  exists c table',
    LSF_check table dim NoAn = Done (c, table') /\
    length table' = length table /\
    forall m k, 0 <= m < NoAn -> 0 <= k < dim - 1 ->
      exists v, load table' (m * dim + k) = Done v /\ Lsf.in_range v = true.
Proof.
  intros Hdim HN Hlen Hnum.
  destruct (run_spec table dim NoAn HN Hlen) as (st & Hrun & (L & N & _) & C).
  exists (Lsf.change st), (Lsf.lsf st). unfold LSF_check. rewrite Hrun. simpl.
  split; [reflexivity|]. split; [exact L|]. intros m k Hm Hk.
  destruct (C m k Hm Hk) as (v & Hv & Hmin & Hmax).
  exists v. split; [exact Hv|].
  pose proof (N (all_numbers_spec _ Hnum) _ _ Hv) as Hnan.
  unfold Lsf.in_range. apply andb_true_intro.
  split; apply B32Facts.not_ltb_leb; auto.
Qed.

(** [LSF_check_range] on the table [1, 1, 1]. *)
Lemma LSF_check_range_witness :
  exists c table',
    LSF_check [B32.of_Z 1; B32.of_Z 1; B32.of_Z 1] 3 1 = Done (c, table') /\
    length table' = length [B32.of_Z 1; B32.of_Z 1; B32.of_Z 1] /\
    forall m k, 0 <= m < 1 -> 0 <= k < 3 - 1 ->
      exists v, load table' (m * 3 + k) = Done v /\ Lsf.in_range v = true.
Proof.
  apply LSF_check_range.
  - lia.
  - lia.
  - reflexivity.
  - reflexivity.
Defined.

(** C1 as the claim words it fails: on the single vector [1, 1, 1] the
    two passes leave [0.9805, 1, 1.0585], whose first gap is below
    [eps = 0.039]. *)
Lemma LSF_check_gap_counterexample :
  LSF_check [B32.of_Z 1; B32.of_Z 1; B32.of_Z 1] 3 1
    = Done (1, [S754_finite false 16450060 (-24);
                S754_finite false 8388608 (-23);
                S754_finite false 8879342 (-23)]) /\
  Lsf.separated (S754_finite false 16450060 (-24)) (S754_finite false 8388608 (-23))
    = false.
Proof. vm_compute. split; reflexivity. Qed.

(** The last coefficient of a vector is never clamped: [1, 5] is
    returned as it is, and [5] is above [maxlsf = 3.14]. *)
Lemma LSF_check_last_not_clamped :
  LSF_check [B32.of_Z 1; B32.of_Z 5] 2 1 = Done (0, [B32.of_Z 1; B32.of_Z 5]) /\
  Lsf.in_range (B32.of_Z 5) = false.
Proof. vm_compute. split; reflexivity. Qed.

(** ** Autocorrelation *)

Section AutocorrFacts.

Variable x : list float.

Lemma load_drop i v :
  load x i = Done v -> drop (Z.to_nat i) x = v :: drop (Datatypes.S (Z.to_nat i)) x.
Proof. intros [_ H]%load_Done_inv. now apply drop_S. Qed.

(** The inner loop, started at [n = i] with the partial sum [acc], adds
    the products of the next [cnt] pairs in order. *)
Lemma autocorr_inner lag cnt i acc :
  0 <= i -> 0 <= lag ->
  (cnt <> O -> i + Z.of_nat cnt + lag <= Z.of_nat (length x)) ->
  for_range cnt i (fun n sum =>
      xn <- load x n ;; xl <- load x (n + lag) ;; Done (sum + xn * xl)%F) acc
  = Done (fold_left B32.add
            (zip_with B32.mul (take cnt (drop (Z.to_nat i) x))
                              (take cnt (drop (Z.to_nat (i + lag)) x)))
            acc).
Proof.
  revert i acc. induction cnt as [|cnt IH]; intros i acc Hi Hlag Hlen; simpl.
  - reflexivity.
  - specialize (Hlen ltac:(discriminate)).
    destruct (load_in_bounds x i ltac:(lia)) as [a Ha].
    destruct (load_in_bounds x (i + lag) ltac:(lia)) as [b Hb].
    rewrite Ha; simpl. rewrite Hb; simpl.
    rewrite IH by lia.
    rewrite (load_drop _ _ Ha), (load_drop _ _ Hb). simpl.
    replace (Z.to_nat (i + 1)) with (Datatypes.S (Z.to_nat i)) by lia.
    replace (Z.to_nat (i + 1 + lag)) with (Datatypes.S (Z.to_nat (i + lag))) by lia.
    reflexivity.
Qed.

Lemma autocorr_lag N lag :
  Z.of_nat (length x) = N -> 0 <= lag ->
  for_loop 0 (N - lag) (fun n sum =>
      xn <- load x n ;; xl <- load x (n + lag) ;; Done (sum + xn * xl)%F) B32.zero
  = Done (autocorr_sum x N lag).
Proof.
  intros HN Hlag. unfold for_loop, autocorr_sum.
  rewrite Z.sub_0_r, autocorr_inner by lia.
  simpl. rewrite Z.add_0_l. reflexivity.
Qed.

End AutocorrFacts.

(** A sum of squares of numbers, started from a value with the sign bit
    clear, has the sign bit clear. *)
Lemma sum_squares_sign (l : list float) (acc : float) :
  Forall (fun v => B32.is_nan v = false) l ->
  B32.sign_of acc = Some false ->
  B32.sign_of (fold_left B32.add (zip_with B32.mul l l) acc) = Some false.
Proof.
  intros Hl. revert acc. induction Hl as [|v l Hv Hl IH]; intros acc Hacc; simpl.
  - exact Hacc.
  - apply IH, B32Round.add_sign_false; [exact Hacc|].
    apply B32Round.mul_self_sign, Hv.
Qed.

(** A sum of products of zeros, started from [+0], is [+0]. *)
Lemma sum_zeros (l1 l2 : list float) :
  Forall (fun v => B32.is_zero v = true) l1 ->
  Forall (fun v => B32.is_zero v = true) l2 ->
  fold_left B32.add (zip_with B32.mul l1 l2) B32.zero = B32.zero.
Proof.
  intros H1. revert l2. induction H1 as [|a l1 Ha H1 IH]; intros l2 H2; simpl.
  - reflexivity.
  - destruct H2 as [|b l2 Hb H2]; simpl; [reflexivity|].
    destruct a as [[]| | |]; try discriminate;
      destruct b as [[]| | |]; try discriminate; simpl; apply IH, H2.
Qed.

Lemma all_numbers_Forall buf :
  all_numbers buf = true -> Forall (fun v => B32.is_nan v = false) buf.
Proof.
  unfold all_numbers. rewrite forallb_forall, Forall_forall.
  intros H v Hv. apply negb_true_iff, H, list_elem_of_In, Hv.
Qed.

Lemma all_zero_Forall buf :
  all_zero buf = true -> Forall (fun v => B32.is_zero v = true) buf.
Proof.
  unfold all_zero. rewrite forallb_forall, Forall_forall.
  intros H v Hv. apply H, list_elem_of_In, Hv.
Qed.

(** C7.  On a frame [x] of length [N], [autocorr] returns, and fills
    [r[l]] for every lag [l] in [0 .. order] with the sum over [n] from
    [0] to [N - l - 1] of [x[n] * x[n + l]]; [r[0] >= 0] when the frame
    holds numbers, and a frame of zeros gives [r[l] = +0] at every
    lag. *)
Theorem autocorr_spec (r x : list float) (N order : Z) :
  Z.of_nat (length x) = N ->
  0 <= order ->
  order + 1 <= Z.of_nat (length r) ->
  exists r',
    autocorr r x N order = Done r' /\
    length r' = length r /\
    (forall l, 0 <= l <= order -> load r' l = Done (autocorr_sum x N l)) /\
    (all_numbers x = true -> (B32.zero <=? autocorr_sum x N 0)%F = true) /\
    (all_zero x = true -> forall l, 0 <= l <= order -> load r' l = Done B32.zero).
Proof.
  intros HN Hord Hr. unfold autocorr.
  pose (P := fun (lag : Z) (r' : list float) =>
    length r' = length r /\
    forall l, 0 <= l < lag -> load r' l = Done (autocorr_sum x N l)).
  match goal with |- context [for_loop 0 (order + 1) ?b r] =>
    destruct (for_loop_invariant P b 0 (order + 1) r ltac:(lia)) as (r' & Hrun & L & HP) end.
  - split; [reflexivity|]. intros; lia.
  - intros lag t Hlag (Lt & Ht).
    rewrite (autocorr_lag x N lag HN) by lia. simpl.
    rewrite store_in_bounds by lia.
    eexists. split; [reflexivity|]. split.
    + rewrite length_insert. exact Lt.
    + intros l Hl. destruct (Z.eq_dec l lag) as [->|Hne].
      * apply load_insert_eq. lia.
      * rewrite load_insert_ne by lia. apply Ht. lia.
  - exists r'. split; [exact Hrun|]. split; [exact L|].
    split; [intros l Hl; apply HP; lia|]. split.
    + intros Hnum. apply B32Round.sign_false_nonneg.
      unfold autocorr_sum. rewrite Z.sub_0_r. simpl. rewrite drop_0.
      apply sum_squares_sign; [|reflexivity].
      apply Forall_take, all_numbers_Forall, Hnum.
    + intros Hz l Hl. rewrite HP by lia. f_equal.
      unfold autocorr_sum. apply sum_zeros.
      * apply Forall_take, all_zero_Forall, Hz.
      * apply Forall_take, Forall_drop, all_zero_Forall, Hz.
Qed.

(** [autocorr_spec] on the frame [1, 2, 3] with [order = 2]. *)
Lemma autocorr_spec_witness :
  exists r',
    autocorr [B32.zero; B32.zero; B32.zero] [B32.of_Z 1; B32.of_Z 2; B32.of_Z 3] 3 2
      = Done r' /\
    length r' = length [B32.zero; B32.zero; B32.zero] /\
    (forall l, 0 <= l <= 2 ->
       load r' l = Done (autocorr_sum [B32.of_Z 1; B32.of_Z 2; B32.of_Z 3] 3 l)) /\
    (all_numbers [B32.of_Z 1; B32.of_Z 2; B32.of_Z 3] = true ->
       (B32.zero <=? autocorr_sum [B32.of_Z 1; B32.of_Z 2; B32.of_Z 3] 3 0)%F = true) /\
    (all_zero [B32.of_Z 1; B32.of_Z 2; B32.of_Z 3] = true ->
       forall l, 0 <= l <= 2 -> load r' l = Done B32.zero).
Proof.
  apply autocorr_spec.
  - reflexivity.
  - lia.
  - simpl. lia.
Defined.

(** ** Interpolation *)

Lemma all_finite_load buf i v :
  all_finite buf = true -> load buf i = Done v -> B32.is_finite v = true.
Proof.
  unfold all_finite. rewrite forallb_forall. intros H [_ Hv]%load_Done_inv.
  apply H, list_elem_of_In, list_elem_of_lookup. eauto.
Qed.

(** With [coef = 1.0f] the blend of two real numbers is the first. *)
Lemma blend_one (a b : float) :
  B32.is_finite a = true -> B32.is_finite b = true ->
  (B32.one * a + (B32.one - B32.one) * b =? a)%F = true.
Proof.
  intros Ha Hb. rewrite B32Round.mul_one_l by exact Ha.
  apply B32Round.add_zero_r; [exact Ha|].
  now apply B32Round.mul_zero_l.
Qed.

(** With [coef] a zero the blend of two real numbers is the second. *)
Lemma blend_zero (coef a b : float) :
  B32.is_zero coef = true ->
  B32.is_finite a = true -> B32.is_finite b = true ->
  (coef * a + (B32.one - coef) * b =? b)%F = true.
Proof.
  intros Hc Ha Hb.
  assert ((B32.one - coef)%F = B32.one) as -> by (destruct coef as [[]| | |]; try discriminate; reflexivity).
  rewrite B32Round.mul_one_l by exact Hb.
  apply B32Round.add_zero_l; [exact Hb|].
  now apply B32Round.mul_zero_l.
Qed.

(** C8.  [interpolate] returns, and [out[i]] is
    [coef*in1[i] + (1 - coef)*in2[i]] for every [i]; on vectors of real
    numbers, [coef = 1.0] makes [out[i] == in1[i]] and [coef = 0.0]
    makes [out[i] == in2[i]]. *)
Theorem interpolate_spec (out in1 in2 : list float) (coef : float) (len : Z) :
  Z.of_nat (length in1) = len ->
  Z.of_nat (length in2) = len ->
  len <= Z.of_nat (length out) ->
  exists out',
    interpolate out in1 in2 coef len = Done out' /\
    length out' = length out /\
    (forall i a b, load in1 i = Done a -> load in2 i = Done b ->
       load out' i = Done (coef * a + (B32.one - coef) * b)%F) /\
    (coef = B32.one -> all_finite in1 = true -> all_finite in2 = true ->
     forall i a, load in1 i = Done a ->
       exists o, load out' i = Done o /\ (o =? a)%F = true) /\
    (B32.is_zero coef = true -> all_finite in1 = true -> all_finite in2 = true ->
     forall i b, load in2 i = Done b ->
       exists o, load out' i = Done o /\ (o =? b)%F = true).
Proof.
  intros H1 H2 Hout. unfold interpolate. cbv zeta.
  pose (P := fun (n : Z) (t : list float) =>
    length t = length out /\
    forall i a b, 0 <= i < n -> load in1 i = Done a -> load in2 i = Done b ->
      load t i = Done (coef * a + (B32.one - coef) * b)%F).
  assert (0 <= len) as Hlen by lia.
  match goal with |- context [for_loop 0 len ?body out] =>
    destruct (for_loop_invariant P body 0 len out Hlen) as (out' & Hrun & L & HP) end.
  - split; [reflexivity|]. intros; lia.
  - intros i t Hi (Lt & Ht).
    destruct (load_in_bounds in1 i ltac:(lia)) as [a Ha].
    destruct (load_in_bounds in2 i ltac:(lia)) as [b Hb].
    rewrite Ha; simpl. rewrite Hb; simpl. rewrite store_in_bounds by lia.
    eexists. split; [reflexivity|]. split.
    + rewrite length_insert. exact Lt.
    + intros j a' b' Hj Ha' Hb'. destruct (Z.eq_dec j i) as [->|Hne].
      * rewrite load_insert_eq by lia.
        assert (a' = a) as -> by congruence. assert (b' = b) as -> by congruence.
        reflexivity.
      * rewrite load_insert_ne by lia. apply Ht; auto. lia.
  - assert (forall i a b, load in1 i = Done a -> load in2 i = Done b ->
              load out' i = Done (coef * a + (B32.one - coef) * b)%F) as Hall.
    { intros i a b Ha Hb. apply HP; auto.
      destruct (load_Done_inv _ _ _ Ha). lia. }
    exists out'. split; [exact Hrun|]. split; [exact L|]. split; [exact Hall|]. split.
    + intros -> F1 F2 i a Ha.
      destruct (load_Done_inv _ _ _ Ha) as [Hi _].
      destruct (load_in_bounds in2 i ltac:(lia)) as [b Hb].
      eexists. split; [apply (Hall i a b Ha Hb)|].
      apply blend_one;
        [apply (all_finite_load in1 i)|apply (all_finite_load in2 i)]; assumption.
    + intros Hz F1 F2 i b Hb.
      destruct (load_Done_inv _ _ _ Hb) as [Hi _].
      destruct (load_in_bounds in1 i ltac:(lia)) as [a Ha].
      eexists. split; [apply (Hall i a b Ha Hb)|].
      apply blend_zero;
        [exact Hz|apply (all_finite_load in1 i)|apply (all_finite_load in2 i)]; assumption.
Qed.

(** An infinite entry in [in2] spoils [coef = 1.0]: [0 * infinity] is
    a NaN.  Hence the real numbers in the statement. *)
Example interpolate_infinite_entry :
  interpolate [B32.zero] [B32.two] [S754_infinity false] B32.one 1 = Done [S754_nan].
Proof. vm_compute. reflexivity. Qed.

(** [interpolate_spec] on the vectors [1, 2] and [3, 4]. *)
Lemma interpolate_spec_witness :
  exists out',
    interpolate [B32.zero; B32.zero] [B32.of_Z 1; B32.of_Z 2] [B32.of_Z 3; B32.of_Z 4]
      B32.one 2 = Done out' /\
    forall i a, load [B32.of_Z 1; B32.of_Z 2] i = Done a ->
      exists o, load out' i = Done o /\ (o =? a)%F = true.
Proof.
  destruct (interpolate_spec [B32.zero; B32.zero] [B32.of_Z 1; B32.of_Z 2]
              [B32.of_Z 3; B32.of_Z 4] B32.one 2)
    as (out' & Hrun & _ & _ & Hone & _).
  - reflexivity.
  - reflexivity.
  - simpl. lia.
  - exists out'. split; [exact Hrun|].
    apply Hone; reflexivity.
Defined.

(** ** Vector quantization *)

Section VqFacts.

Variable FLOAT_MAX : float.
Variables CB X : list float.
Variables dim n_cb : Z.
Hypothesis dim_pos : 1 <= dim.
Hypothesis X_length : Z.of_nat (length X) = dim.
Hypothesis CB_length : Z.of_nat (length CB) = n_cb * dim.
Hypothesis X_numbers : all_numbers X = true.
Hypothesis CB_finite : all_finite CB = true.

Lemma vq_pos_bounds j i :
  0 <= j < n_cb -> 0 <= i < dim -> 0 <= j * dim + i < Z.of_nat (length CB).
Proof using CB_length.
  intros Hj Hi. clear - CB_length Hj Hi.
  assert (0 <= j * dim) by (apply Z.mul_nonneg_nonneg; lia).
  assert ((j + 1) * dim <= n_cb * dim) by (apply Z.mul_le_mono_nonneg_r; lia).
  lia.
Qed.

Lemma vq_term_sign x c :
  B32.is_nan x = false -> B32.is_finite c = true ->
  B32.sign_of ((x - c) * (x - c))%F = Some false.
Proof. intros Hx Hc. apply B32Round.mul_self_sign, B32Round.sub_not_nan; assumption. Qed.

(** The distance to vector [j] is computed without fault and has the
    sign bit clear; in particular it is a number. *)
Lemma vq_dist_spec j :
  0 <= j < n_cb ->
  vq_dist CB X dim (j * dim) = Done (vq_dist_of CB X dim j) /\
  B32.sign_of (vq_dist_of CB X dim j) = Some false.
Proof.
  intros Hj. unfold vq_dist_of, vq_dist.
  pose proof (all_numbers_spec _ X_numbers) as HX.
  destruct (load_in_bounds X 0 ltac:(lia)) as [x0 Hx0].
  destruct (load_in_bounds CB (j * dim) ltac:(pose proof (vq_pos_bounds j 0); lia)) as [c0 Hc0].
  rewrite Hx0; simpl. rewrite Hc0; simpl.
  match goal with |- context [for_loop 1 dim ?b ?s] =>
    destruct (for_loop_invariant (fun _ acc => B32.sign_of acc = Some false)
                b 1 dim s dim_pos) as (d & -> & Hd) end.
  - apply vq_term_sign; [apply (HX _ _ Hx0)|apply (all_finite_load _ _ _ CB_finite Hc0)].
  - intros i acc Hi Hacc.
    destruct (load_in_bounds X i ltac:(lia)) as [xi Hxi].
    destruct (load_in_bounds CB (j * dim + i) ltac:(pose proof (vq_pos_bounds j i); lia)) as [ci Hci].
    rewrite Hxi; simpl. rewrite Hci; simpl.
    eexists. split; [reflexivity|].
    apply B32Round.add_sign_false; [exact Hacc|].
    apply vq_term_sign; [apply (HX _ _ Hxi)|apply (all_finite_load _ _ _ CB_finite Hci)].
  - auto.
Qed.

(** A vector of real numbers is at computed distance [+0] from
    itself. *)
Lemma vq_dist_exact j :
  0 <= j < n_cb ->
  all_finite X = true ->
  (forall i, 0 <= i < dim -> load CB (j * dim + i) = load X i) ->
  vq_dist_of CB X dim j = B32.zero.
Proof.
  intros Hj HX Heq. unfold vq_dist_of, vq_dist.
  destruct (load_in_bounds X 0 ltac:(lia)) as [x0 Hx0].
  pose proof (Heq 0 ltac:(lia)) as Hc0. rewrite Z.add_0_r, Hx0 in Hc0.
  rewrite Hx0; simpl. rewrite Hc0; simpl.
  rewrite B32Round.sub_self by apply (all_finite_load _ _ _ HX Hx0).
  match goal with |- context [for_loop 1 dim ?b ?s] =>
    destruct (for_loop_invariant (fun _ acc => acc = B32.zero)
                b 1 dim s dim_pos) as (d & -> & ->) end.
  - reflexivity.
  - intros i acc Hi ->.
    destruct (load_in_bounds X i ltac:(lia)) as [xi Hxi].
    rewrite Hxi; simpl. rewrite Heq, Hxi by lia. simpl.
    rewrite B32Round.sub_self by apply (all_finite_load _ _ _ HX Hxi).
    eexists. split; reflexivity.
  - reflexivity.
Qed.

Lemma vq_search_spec :
  0 <= n_cb ->
  exists st,
    vq_search FLOAT_MAX CB X dim n_cb = Done st /\
    vq_best FLOAT_MAX (vq_dist_of CB X dim) n_cb st.
Proof.
  intros Hn. unfold vq_search.
  pose (P := fun (j : Z) (st : vq_locals) =>
    vq_pos st = j * dim /\ vq_best FLOAT_MAX (vq_dist_of CB X dim) j st).
  match goal with |- context [for_loop 0 n_cb ?b ?s] =>
    destruct (for_loop_invariant P b 0 n_cb s Hn) as (st & Hrun & _ & HP) end.
  - split; [reflexivity|]. left. simpl. repeat split; auto. intros; lia.
  - intros j st Hj (Hpos & Hbest). unfold vq_step. rewrite Hpos.
    destruct (vq_dist_spec j Hj) as (-> & Hsign). simpl.
    set (d := vq_dist_of CB X dim) in *.
    assert (forall t, 0 <= t < n_cb -> B32.is_nan (d t) = false) as Hnum.
    { intros t Ht. destruct (vq_dist_spec t Ht) as (_ & Hs).
      apply (B32Round.sign_of_not_nan _ _ Hs). }
    pose proof (Hnum j Hj) as Hdj.
    destruct (d j <? vq_mindist st)%F eqn:Hlt;
      (eexists; split; [reflexivity|]); (split; [simpl; lia|]).
    + right. simpl.
      assert (forall t, 0 <= t < j -> (d j <? d t)%F = true) as Hbelow.
      { intros t Ht. pose proof (Hnum t ltac:(lia)) as Hdt.
        destruct Hbest as [(Hm & _ & Hall)|(_ & Hm & _ & Hall & _)]; rewrite Hm in Hlt.
        - apply (B32Facts.ltb_leb_trans _ _ _ Hlt).
          apply B32Facts.not_ltb_leb; auto.
          apply (B32Facts.ltb_not_nan _ _ Hlt).
        - apply (B32Facts.ltb_leb_trans _ _ _ Hlt), Hall, Ht. }
      repeat split; try lia; auto.
      * destruct Hbest as [(Hm & _)|(_ & Hm & Hmax & _)]; rewrite Hm in Hlt; auto.
        apply (B32Facts.ltb_trans _ _ _ Hlt Hmax).
      * intros t Ht. destruct (Z.eq_dec t j) as [->|Hne].
        -- now apply B32Facts.leb_refl.
        -- apply B32Facts.ltb_leb, Hbelow. lia.
    + destruct Hbest as [(Hm & Hi & Hall)|(Hi & Hm & Hmax & Hall & Hlow)]; [left|right];
        simpl; repeat split; auto; try lia.
      * intros t Ht. destruct (Z.eq_dec t j) as [->|Hne]; [congruence|apply Hall; lia].
      * intros t Ht. destruct (Z.eq_dec t j) as [->|Hne]; [|apply Hall; lia].
        rewrite Hm in Hlt. apply B32Facts.not_ltb_leb; auto. apply Hnum. lia.
  - eauto.
Qed.

End VqFacts.

(** C5, as the code has it.  On a codebook of [n_cb >= 1] vectors of
    [dim >= 1] real numbers and an input [X] of numbers, [vq] returns an
    index [idx] and copies codebook vector [idx] to [Xq].  When some
    computed distance is below [FLOAT_MAX], [idx] is the lowest index at
    the least computed distance; when none is, [idx = 0].  When [X] is
    vector [j] of the codebook, the computed distance of [j] is [+0],
    [idx <= j], and the computed distance of [idx] is zero; if no
    earlier vector is at computed distance zero, [idx = j] and [Xq] is
    [X]. *)
Theorem vq_spec (FLOAT_MAX : float) (CB X Xq : list float) (dim n_cb : Z) :
  1 <= dim ->
  1 <= n_cb ->
  Z.of_nat (length X) = dim ->
  Z.of_nat (length CB) = n_cb * dim ->
  dim <= Z.of_nat (length Xq) ->
  all_numbers X = true ->
  all_finite CB = true ->
  exists Xq' idx,
    vq FLOAT_MAX CB X dim Xq n_cb = Done (Xq', idx) /\
    0 <= idx < n_cb /\
    (forall i, 0 <= i < dim -> load Xq' i = load CB (idx * dim + i)) /\
    ((exists j, 0 <= j < n_cb /\ (vq_dist_of CB X dim j <? FLOAT_MAX)%F = true) ->
     (forall j, 0 <= j < n_cb ->
        (vq_dist_of CB X dim idx <=? vq_dist_of CB X dim j)%F = true) /\
     (forall j, 0 <= j < idx ->
        (vq_dist_of CB X dim idx <? vq_dist_of CB X dim j)%F = true)) /\
    ((forall j, 0 <= j < n_cb -> (vq_dist_of CB X dim j <? FLOAT_MAX)%F = false) ->
     idx = 0) /\
    (forall j, 0 <= j < n_cb ->
       all_finite X = true ->
       (B32.zero <? FLOAT_MAX)%F = true ->
       (forall i, 0 <= i < dim -> load CB (j * dim + i) = load X i) ->
       vq_dist_of CB X dim j = B32.zero /\ idx <= j /\
       (vq_dist_of CB X dim idx =? B32.zero)%F = true /\
       ((forall t, 0 <= t < j -> (B32.zero <? vq_dist_of CB X dim t)%F = true) ->
        idx = j /\ forall i, 0 <= i < dim -> load Xq' i = load X i)).
Proof.
  intros Hdim Hn HX HCB HXq NX FCB.
  destruct (vq_search_spec FLOAT_MAX CB X dim n_cb Hdim HX HCB NX FCB ltac:(lia))
    as (st & Hsearch & Hbest).
  set (d := vq_dist_of CB X dim) in *.
  assert (0 <= vq_minindex st < n_cb) as Hidx
    by (destruct Hbest as [(_ & -> & _)|(? & _)]; lia).
  unfold vq. rewrite Hsearch. simpl.
  pose (P := fun (i : Z) (t : list float) =>
    length t = length Xq /\
    forall i', 0 <= i' < i -> load t i' = load CB (vq_minindex st * dim + i')).
  match goal with |- context [for_loop 0 dim ?b Xq] =>
    destruct (for_loop_invariant P b 0 dim Xq ltac:(lia)) as (Xq' & -> & _ & Hcopy) end.
  { split; [reflexivity|]. intros; lia. }
  { intros i t Hi (Lt & Ht).
    destruct (load_in_bounds CB (vq_minindex st * dim + i)
                ltac:(apply (vq_pos_bounds CB dim n_cb HCB); lia)) as [c Hc].
    rewrite Hc. simpl. rewrite store_in_bounds by lia.
    eexists. split; [reflexivity|]. split; [now rewrite length_insert|].
    intros i' Hi'. destruct (Z.eq_dec i' i) as [->|Hne].
    - rewrite load_insert_eq by lia. now rewrite Hc.
    - rewrite load_insert_ne by lia. apply Ht. lia. }
  simpl. exists Xq', (vq_minindex st).
  split; [reflexivity|]. split; [exact Hidx|]. split; [exact Hcopy|].
  assert (forall t, 0 <= t < n_cb -> B32.sign_of (d t) = Some false) as Hsign.
  { intros t Ht. apply (vq_dist_spec CB X dim n_cb Hdim HX HCB NX FCB t Ht). }
  split; [|split].
  - intros (j & Hj & Hlt).
    destruct Hbest as [(_ & _ & Hall)|(_ & _ & _ & Hall & Hlow)]; [|auto].
    rewrite Hall in Hlt by exact Hj. discriminate.
  - intros Hnone.
    destruct Hbest as [(_ & Hi & _)|(Hi & _ & Hlt & _)]; [exact Hi|].
    rewrite Hnone in Hlt by lia. discriminate.
  - intros j Hj FX Hmax Heq.
    assert (d j = B32.zero) as Hdj
      by (unfold d; eapply vq_dist_exact; eauto).
    destruct Hbest as [(_ & _ & Hall)|(Hi & _ & _ & Hall & Hlow)].
    { rewrite <- Hdj, Hall in Hmax by exact Hj. discriminate. }
    pose proof (Hall j Hj) as Hle. rewrite Hdj in Hle.
    pose proof (B32Round.sign_false_nonneg _ (Hsign _ Hidx)) as Hge.
    assert (vq_minindex st <= j) as Hij.
    { destruct (Z.le_gt_cases (vq_minindex st) j) as [|Hgt]; [assumption|].
      pose proof (Hlow j ltac:(lia)) as Hlt. rewrite Hdj in Hlt.
      rewrite (B32Facts.ltb_asym _ _ Hlt) in Hge. discriminate. }
    split; [exact Hdj|]. split; [exact Hij|]. split.
    + clear - Hle Hge. unfold B32.zero in *.
      generalize dependent (d (vq_minindex st)). intros v Hle Hge.
      B32Facts.float_order.
    + intros Hpos.
      assert (vq_minindex st = j) as Heqj.
      { destruct (Z.eq_dec (vq_minindex st) j) as [|Hne]; [assumption|].
        pose proof (Hpos (vq_minindex st) ltac:(lia)) as Hlt.
        rewrite (B32Facts.ltb_asym _ _ Hlt) in Hle. discriminate. }
      split; [exact Heqj|]. intros i Hdimi. rewrite Hcopy by exact Hdimi.
      rewrite Heqj. apply Heq, Hdimi.
Qed.

(** [vq_spec] on the codebook [(0, 0), (3, 4)] and the input [(3, 4)],
    with [1.0e37f] for [FLOAT_MAX]. *)
Lemma vq_spec_witness :
  exists Xq' idx,
    vq (S754_finite false 15777218 99)
       [B32.of_Z 0; B32.of_Z 0; B32.of_Z 3; B32.of_Z 4] [B32.of_Z 3; B32.of_Z 4] 2
       [B32.zero; B32.zero] 2 = Done (Xq', idx) /\
    0 <= idx < 2 /\
    (forall i, 0 <= i < 2 ->
       load Xq' i = load [B32.of_Z 0; B32.of_Z 0; B32.of_Z 3; B32.of_Z 4] (idx * 2 + i)).
Proof.
  destruct (vq_spec (S754_finite false 15777218 99)
              [B32.of_Z 0; B32.of_Z 0; B32.of_Z 3; B32.of_Z 4] [B32.of_Z 3; B32.of_Z 4]
              [B32.zero; B32.zero] 2 2)
    as (Xq' & idx & Hrun & Hidx & Hcopy & _).
  - lia.
  - lia.
  - reflexivity.
  - reflexivity.
  - simpl. lia.
  - reflexivity.
  - reflexivity.
  - exists Xq', idx. auto.
Defined.

(** C5 as the claim words it fails in binary32: with [dim = 1], the
    input [0] and the codebook [2^-100, 0], the input is entry [1] and
    not entry [0], but the squared distance to entry [0], [2^-200],
    underflows to [+0]; [vq] returns index [0] and [Xq = 2^-100].
    [FLOAT_MAX] is [1.0e37f] here; any positive value gives the same. *)
Lemma vq_exact_match_counterexample :
  load [B32.ldexp 1 (-100); B32.zero] 1 = load [B32.zero] 0 /\
  load [B32.ldexp 1 (-100); B32.zero] 0 <> load [B32.zero] 0 /\
  vq (S754_finite false 15777218 99) [B32.ldexp 1 (-100); B32.zero] [B32.zero] 1
     [B32.one] 2 = Done ([B32.ldexp 1 (-100)], 0).
Proof. vm_compute. repeat split. discriminate. Qed.

(** The other half of the claim fails when no distance is below
    [FLOAT_MAX]: with the input [0] and the codebook [2^64, 2^63] both
    squared distances, [2^128 = +infinity] and [2^126], are at least
    [1.0e37f], and [vq] returns index [0] although entry [1] is
    nearer. *)
Lemma vq_far_codebook :
  vq (S754_finite false 15777218 99) [B32.ldexp 1 64; B32.ldexp 1 63] [B32.zero] 1
     [B32.one] 2 = Done ([B32.ldexp 1 64], 0) /\
  (vq_dist_of [B32.ldexp 1 64; B32.ldexp 1 63] [B32.zero] 1 1
   <? vq_dist_of [B32.ldexp 1 64; B32.ldexp 1 63] [B32.zero] 1 0)%F = true.
Proof. vm_compute. split; reflexivity. Qed.

(** ** The repair of an inverted pair *)

Section Inverted.

Import B32 Lsf.

(** An inverted pair fails the separation test. *)
Lemma inverted_gap lo hi :
  is_finite lo = true -> is_finite hi = true ->
  ltb hi lo = true -> ltb (sub hi lo) eps = true.
Proof.
  intros Hlo Hhi Hlt. apply (B32Value.ltb_scaled _ _ Hhi Hlo) in Hlt.
  pose proof (B32Value.sub_sign_true hi lo Hhi Hlo Hlt) as Hs.
  destruct (sub hi lo) as [s|s| |s m e]; try discriminate;
    injection Hs as ->; reflexivity.
Qed.

(** [(a + eps2) - eps2 < a + eps2] for a real number [a] of magnitude
    at most [2^17]: the two roundings are then too small to absorb
    [eps2]. *)
Lemma add_sub_eps2 a :
  is_finite a = true -> Z.abs (scaled a) <= 2 ^ 166 ->
  ltb (sub (add a eps2) eps2) (add a eps2) = true.
Proof.
  intros Ha Hmag.
  assert (is_finite eps2 = true) as He by reflexivity.
  assert (scaled eps2 = 10468983 * 2 ^ 120) as HE by reflexivity.
  assert (2 ^ (18 + 125) = 8388608 * 2 ^ 120) as H143 by reflexivity.
  assert (2 ^ (18 + 149) = 140737488355328 * 2 ^ 120) as H167 by reflexivity.
  assert (2 ^ 166 = 70368744177664 * 2 ^ 120) as H166 by reflexivity.
  pose proof (B32Value.pow2_pos 120 ltac:(lia)) as P.
  set (p := 2 ^ 120) in *.
  destruct (B32Value.add_bounds a eps2 18 Ha He) as [Hy Hyv]; [lia|lia|].
  set (y := add a eps2) in *.
  destruct (B32Value.sub_bounds y eps2 18 Hy He) as [Hz Hzv]; [lia|lia|].
  apply B32Value.ltb_scaled; auto. lia.
Qed.

End Inverted.

(** The inverted case as it is written.  When the pair of real numbers
    at [pos] is inverted on entry, [lsf[pos+1] < lsf[pos]], the step
    writes [lsf[pos] + eps2] to [lsf[pos+1]], then [lsf[pos+1] - eps2]
    to [lsf[pos]], and raises the flag; the old [lsf[pos+1]] is not
    written back.  For [|lsf[pos]| <= 2^17], a bound that suffices,
    [lsf[pos] < lsf[pos+1]] afterwards. *)
Lemma separate_inverted (pos : Z) (st : Lsf.state) (lo hi : float) :
  load (Lsf.lsf st) pos = Done lo ->
  load (Lsf.lsf st) (pos + 1) = Done hi ->
  B32.is_finite lo = true ->
  B32.is_finite hi = true ->
  (hi <? lo)%F = true ->
  (B32.abs lo <=? B32.ldexp 1 17)%F = true ->
  exists st',
    Lsf.separate pos st = Done st' /\
    load (Lsf.lsf st') (pos + 1) = Done (lo + Lsf.eps2)%F /\
    load (Lsf.lsf st') pos = Done (lo + Lsf.eps2 - Lsf.eps2)%F /\
    (lo + Lsf.eps2 - Lsf.eps2 <? lo + Lsf.eps2)%F = true /\
    Lsf.change st' = 1.
Proof.
  intros Hlo Hhi Flo Fhi Hinv Hmag.
  destruct (load_Done_inv _ _ _ Hlo) as [Blo _].
  destruct (load_Done_inv _ _ _ Hhi) as [Bhi _].
  unfold Lsf.separate. rewrite Hhi; simpl. rewrite Hlo; simpl.
  rewrite (inverted_gap lo hi Flo Fhi Hinv), Hinv.
  rewrite store_in_bounds by lia. simpl.
  rewrite load_insert_eq by lia. simpl.
  rewrite store_in_bounds by (rewrite length_insert; lia). simpl.
  eexists. split; [reflexivity|]. simpl. split; [|split; [|split]].
  - rewrite load_insert_ne by lia. apply load_insert_eq. lia.
  - apply load_insert_eq. rewrite length_insert. lia.
  - apply add_sub_eps2; [exact Flo|].
    destruct (B32Value.abs_scaled lo) as [Fa Va].
    apply B32Value.leb_scaled in Hmag; [|now rewrite Fa|reflexivity].
    rewrite Va in Hmag. exact Hmag.
  - reflexivity.
Qed.

(** C4.  The repair step on two pairs that are inverted on entry.  On
    [(2^24, 0)] it leaves [(2^24, 2^24)], which is not in strict
    order, although [tmp - eps2], with the [tmp = 0] that the step
    saved, is below [2^24 + eps2].  On [(2, 1)] it leaves
    [(2, 2 + eps2)]: the step does not exchange the two values, the
    saved [1] is in neither place and [1 - eps2] is not what
    [lsf[pos]] holds. *)
Theorem separate_inverted_no_swap :
  (B32.zero <? B32.ldexp 1 24)%F = true /\
  Lsf.separate 0 {| Lsf.lsf := [B32.ldexp 1 24; B32.zero]; Lsf.change := 0; Lsf.repairs := [] |}
    = Done {| Lsf.lsf := [B32.ldexp 1 24; B32.ldexp 1 24]; Lsf.change := 1;
              Lsf.repairs := [Lsf.Separated 0] |} /\
  (B32.ldexp 1 24 <? B32.ldexp 1 24)%F = false /\
  (B32.zero - Lsf.eps2 <? B32.ldexp 1 24 + Lsf.eps2)%F = true /\
  (B32.of_Z 1 <? B32.of_Z 2)%F = true /\
  Lsf.separate 0 {| Lsf.lsf := [B32.of_Z 2; B32.of_Z 1]; Lsf.change := 0; Lsf.repairs := [] |}
    = Done {| Lsf.lsf := [B32.of_Z 2; (B32.of_Z 2 + Lsf.eps2)%F]; Lsf.change := 1;
              Lsf.repairs := [Lsf.Separated 0] |} /\
  (B32.of_Z 1 - Lsf.eps2 <? B32.of_Z 2)%F = true.
Proof. vm_compute. repeat split. Qed.

(** * Further properties

    What follows covers the rest of the file: [window], [bwexpand] and
    [SplitVQ], the regular branch of [levdurb], and the behaviour of
    the helpers at the edges of their domains. *)

(** ** More on loops *)

Section LoopLaws.

Context {S : Type}.
Implicit Types (body : Z -> S -> outcome S) (s : S).

Lemma for_loop_step body lo hi s :
  lo < hi ->
  for_loop lo hi body s = (t <- body lo s ;; for_loop (lo + 1) hi body t).
Proof.
  intros H. unfold for_loop.
  replace (Z.to_nat (hi - lo)) with (Datatypes.S (Z.to_nat (hi - (lo + 1)))) by lia.
  reflexivity.
Qed.

(** Two bodies that agree on the states the loop goes through give the
    same loop. *)
Lemma for_range_ext (P : Z -> S -> Prop) body body' n i s :
  P i s ->
  (forall j t, i <= j < i + Z.of_nat n -> P j t ->
     body j t = body' j t /\ forall t', body j t = Done t' -> P (j + 1) t') ->
  for_range n i body s = for_range n i body' s.
Proof.
  revert i s. induction n as [|n IH]; intros i s Hs Hbody; simpl; [reflexivity|].
  destruct (Hbody i s ltac:(lia) Hs) as [<- Hnext].
  destruct (body i s) as [t| |]; simpl; try reflexivity.
  apply IH; [now apply Hnext|]. intros j u Hj. apply Hbody. lia.
Qed.

Lemma for_loop_ext (P : Z -> S -> Prop) body body' lo hi s :
  P lo s ->
  (forall j t, lo <= j < hi -> P j t ->
     body j t = body' j t /\ forall t', body j t = Done t' -> P (j + 1) t') ->
  for_loop lo hi body s = for_loop lo hi body' s.
Proof.
  intros Hs Hbody. unfold for_loop. apply (for_range_ext P); [exact Hs|].
  intros j t Hj. apply Hbody. lia.
Qed.

(** What a loop that returns has kept, whether or not it had to
    return. *)
Lemma for_range_partial (P : Z -> S -> Prop) body n i s s' :
  P i s ->
  (forall j t t', i <= j < i + Z.of_nat n -> P j t -> body j t = Done t' -> P (j + 1) t') ->
  for_range n i body s = Done s' -> P (i + Z.of_nat n) s'.
Proof.
  revert i s. induction n as [|n IH]; intros i s Hs Hbody; simpl.
  - intros [= <-]. now replace (i + Z.of_nat 0) with i by lia.
  - destruct (body i s) as [t| |] eqn:E; simpl; try discriminate.
    intros Hrun.
    replace (i + Z.of_nat (Datatypes.S n)) with (i + 1 + Z.of_nat n) by lia.
    apply (IH (i + 1) t); [apply (Hbody i s); auto; lia| |exact Hrun].
    intros j u u' Hj. apply Hbody. lia.
Qed.

Lemma for_loop_partial (P : Z -> S -> Prop) body lo hi s s' :
  lo <= hi ->
  P lo s ->
  (forall j t t', lo <= j < hi -> P j t -> body j t = Done t' -> P (j + 1) t') ->
  for_loop lo hi body s = Done s' -> P hi s'.
Proof.
  intros Hle Hs Hbody Hrun. unfold for_loop in Hrun.
  replace hi with (lo + Z.of_nat (Z.to_nat (hi - lo))) by lia.
  apply (for_range_partial P body _ lo s); auto.
  intros j t t' Hj. apply Hbody. lia.
Qed.

(** A loop that returns has run its body at every index, on a state
    that the invariant describes. *)
Lemma for_range_ran (P : Z -> S -> Prop) body n i s s' :
  P i s ->
  (forall j t t', i <= j < i + Z.of_nat n -> P j t -> body j t = Done t' -> P (j + 1) t') ->
  for_range n i body s = Done s' ->
  forall j, i <= j < i + Z.of_nat n -> exists t t', P j t /\ body j t = Done t'.
Proof.
  revert i s. induction n as [|n IH]; intros i s Hs Hbody; simpl; [intros; lia|].
  destruct (body i s) as [t| |] eqn:E; simpl; try discriminate.
  intros Hrun j Hj. destruct (Z.eq_dec j i) as [->|Hne]; [eauto|].
  apply (IH (i + 1) t); [apply (Hbody i s); auto; lia| |exact Hrun|lia].
  intros k u u' Hk. apply Hbody. lia.
Qed.

Lemma for_loop_ran (P : Z -> S -> Prop) body lo hi s s' :
  P lo s ->
  (forall j t t', lo <= j < hi -> P j t -> body j t = Done t' -> P (j + 1) t') ->
  for_loop lo hi body s = Done s' ->
  forall j, lo <= j < hi -> exists t t', P j t /\ body j t = Done t'.
Proof.
  intros Hs Hbody Hrun j Hj. unfold for_loop in Hrun.
  apply (for_range_ran P body (Z.to_nat (hi - lo)) lo s s'); auto; try lia.
  intros k t t' Hk. apply Hbody. lia.
Qed.

End LoopLaws.

Section LoopPairs.

Context {S1 S2 : Type}.

(** Two loops run side by side keep a relation between their states. *)
Lemma for_range_rel (R : Z -> S1 -> S2 -> Prop)
    (b1 : Z -> S1 -> outcome S1) (b2 : Z -> S2 -> outcome S2) n i s1 s2 :
  R i s1 s2 ->
  (forall j t1 t2, i <= j < i + Z.of_nat n -> R j t1 t2 ->
     exists t1' t2', b1 j t1 = Done t1' /\ b2 j t2 = Done t2' /\ R (j + 1) t1' t2') ->
  exists s1' s2',
    for_range n i b1 s1 = Done s1' /\ for_range n i b2 s2 = Done s2' /\
    R (i + Z.of_nat n) s1' s2'.
Proof.
  revert i s1 s2. induction n as [|n IH]; intros i s1 s2 Hs Hbody; simpl.
  - exists s1, s2. split; [reflexivity|]. split; [reflexivity|].
    now replace (i + Z.of_nat 0) with i by lia.
  - destruct (Hbody i s1 s2 ltac:(lia) Hs) as (t1 & t2 & -> & -> & Ht). simpl.
    destruct (IH (i + 1) t1 t2 Ht) as (s1' & s2' & H1 & H2 & Hs').
    + intros j u1 u2 Hj. apply Hbody. lia.
    + exists s1', s2'. split; [exact H1|]. split; [exact H2|].
      now replace (i + Z.of_nat (Datatypes.S n)) with (i + 1 + Z.of_nat n) by lia.
Qed.

Lemma for_loop_rel (R : Z -> S1 -> S2 -> Prop)
    (b1 : Z -> S1 -> outcome S1) (b2 : Z -> S2 -> outcome S2) lo hi s1 s2 :
  lo <= hi ->
  R lo s1 s2 ->
  (forall j t1 t2, lo <= j < hi -> R j t1 t2 ->
     exists t1' t2', b1 j t1 = Done t1' /\ b2 j t2 = Done t2' /\ R (j + 1) t1' t2') ->
  exists s1' s2',
    for_loop lo hi b1 s1 = Done s1' /\ for_loop lo hi b2 s2 = Done s2' /\ R hi s1' s2'.
Proof.
  intros Hle Hs Hbody. unfold for_loop.
  destruct (for_range_rel R b1 b2 (Z.to_nat (hi - lo)) lo s1 s2 Hs)
    as (s1' & s2' & H1 & H2 & Hs').
  - intros j t1 t2 Hj. apply Hbody. lia.
  - exists s1', s2'. split; [exact H1|]. split; [exact H2|].
    now replace hi with (lo + Z.of_nat (Z.to_nat (hi - lo))) by lia.
Qed.

End LoopPairs.

(** ** More on binary32 *)

Module B32Algebra.
Import B32.

Lemma add_comm x y : add x y = add y x.
Proof.
  destruct x as [sx|sx| |sx mx ex], y as [sy|sy| |sy my ey]; try reflexivity;
    try (destruct sx, sy; reflexivity).
  unfold add, SFadd. rewrite (Z.min_comm ey ex). f_equal. apply Z.add_comm.
Qed.

Lemma mul_comm x y : mul x y = mul y x.
Proof.
  destruct x as [sx|sx| |sx mx ex], y as [sy|sy| |sy my ey]; try reflexivity;
    try (destruct sx, sy; reflexivity).
  unfold mul, SFmul. rewrite (xorb_comm sy sx), (Pos.mul_comm my mx), (Z.add_comm ey ex).
  reflexivity.
Qed.

Lemma mul_one_r x : is_finite x = true -> mul x one = x.
Proof. intros H. rewrite mul_comm. now apply B32Round.mul_one_l. Qed.

Lemma add_nan_r x : add x S754_nan = S754_nan.
Proof. now destruct x. Qed.

Lemma ltb_nan_r x : ltb x S754_nan = false.
Proof. now destruct x as [[]|[]| |[]]. Qed.

Lemma is_nan_eq x : is_nan x = true -> x = S754_nan.
Proof. now destruct x. Qed.

End B32Algebra.

(** ** Prefixes of buffers *)

Lemma load_take buf n i : 0 <= i < Z.of_nat n -> load (take n buf) i = load buf i.
Proof.
  intros Hi. unfold load. destruct (Z.ltb_spec i 0); [lia|].
  rewrite lookup_take_lt by lia. reflexivity.
Qed.

Lemma load_take_eq buf buf' n i :
  take n buf = take n buf' -> 0 <= i < Z.of_nat n -> load buf i = load buf' i.
Proof.
  intros E Hi. rewrite <- (load_take buf n i Hi), <- (load_take buf' n i Hi). now rewrite E.
Qed.

(** ** Window multiplication *)

Lemma window_loop (z x y : list float) (N : Z) :
  N <= Z.of_nat (length x) ->
  N <= Z.of_nat (length y) ->
  N <= Z.of_nat (length z) ->
  exists z',
    window z x y N = Done z' /\
    length z' = length z /\
    (forall i a b, 0 <= i < N -> load x i = Done a -> load y i = Done b ->
       load z' i = Done (a * b)%F) /\
    (forall i, N <= i -> load z' i = load z i).
Proof.
  intros Hx Hy Hz. unfold window.
  destruct (Z.le_gt_cases 0 N) as [HN|HN].
  2:{ rewrite for_loop_empty by lia. exists z. repeat split; auto. intros; lia. }
  pose (P := fun (n : Z) (t : list float) =>
    length t = length z /\
    (forall i a b, 0 <= i < n -> load x i = Done a -> load y i = Done b ->
       load t i = Done (a * b)%F) /\
    (forall i, n <= i -> load t i = load z i)).
  match goal with |- context [for_loop 0 N ?body z] =>
    destruct (for_loop_invariant P body 0 N z HN) as (z' & Hrun & L & HP & HF) end.
  - split; [reflexivity|]. split; [intros; lia|reflexivity].
  - intros i t Hi (Lt & Ht & Ft).
    destruct (load_in_bounds x i ltac:(lia)) as [a Ha].
    destruct (load_in_bounds y i ltac:(lia)) as [b Hb].
    rewrite Ha; simpl. rewrite Hb; simpl. rewrite store_in_bounds by lia.
    eexists. split; [reflexivity|]. split; [|split].
    + rewrite length_insert. exact Lt.
    + intros j a' b' Hj Ha' Hb'. destruct (Z.eq_dec j i) as [->|Hne].
      * rewrite load_insert_eq by lia.
        assert (a' = a) as -> by congruence. assert (b' = b) as -> by congruence.
        reflexivity.
      * rewrite load_insert_ne by lia. apply Ht; auto. lia.
    + intros j Hj. rewrite load_insert_ne by lia. apply Ft. lia.
  - exists z'. auto.
Qed.

(** X1.  [window] returns when each of the three buffers holds at least
    [N] entries: it writes the rounded product [x[i] * y[i]] to [z[i]]
    for every [i] below [N] and leaves [z] as it was from [N] on. *)
Theorem window_spec (z x y : list float) (N : Z) :
  N <= Z.of_nat (length x) ->
  N <= Z.of_nat (length y) ->
  N <= Z.of_nat (length z) ->
  exists z',
    window z x y N = Done z' /\
    length z' = length z /\
    (forall i a b, 0 <= i < N -> load x i = Done a -> load y i = Done b ->
       load z' i = Done (a * b)%F) /\
    (forall i, N <= i -> load z' i = load z i).
Proof. apply window_loop. Qed.

(** [window_spec] on the data [3, 5] and the window [2, 2], in a buffer
    of three entries. *)
Lemma window_spec_witness :
  exists z',
    window [B32.zero; B32.zero; B32.two] [B32.of_Z 3; B32.of_Z 5] [B32.two; B32.two] 2 = Done z' /\
    load z' 0 = Done (B32.of_Z 3 * B32.two)%F /\
    load z' 2 = Done B32.two.
Proof.
  destruct (window_spec [B32.zero; B32.zero; B32.two] [B32.of_Z 3; B32.of_Z 5]
              [B32.two; B32.two] 2) as (z' & Hrun & _ & Hp & Hf).
  - simpl. lia.
  - simpl. lia.
  - simpl. lia.
  - exists z'. split; [exact Hrun|]. split.
    + apply Hp; [lia|reflexivity|reflexivity].
    + rewrite Hf by lia. reflexivity.
Defined.

(** X2.  [window] returns exactly when [N <= 0] or each of [x], [y] and
    [z] holds at least [N] entries; in every other case it accesses a
    buffer outside of its bounds. *)
Theorem window_safe_iff (z x y : list float) (N : Z) :
  (exists z', window z x y N = Done z') <->
  N <= 0 \/
  (N <= Z.of_nat (length x) /\ N <= Z.of_nat (length y) /\ N <= Z.of_nat (length z)).
Proof.
  split.
  - intros [z' Hrun].
    destruct (Z.le_gt_cases N 0) as [HN|HN]; [now left|right].
    unfold window in Hrun.
    match type of Hrun with for_loop 0 N ?body z = _ =>
      pose proof (for_loop_ran (fun _ t => length t = length z) body 0 N z z'
                    eq_refl) as Hran end.
    destruct (Hran) with (j := N - 1) as (t & t' & Lt & Hstep); [|exact Hrun|lia|].
    + intros j t t' Hj Lt Hstep.
      destruct (load x j); simpl in Hstep; try discriminate.
      destruct (load y j); simpl in Hstep; try discriminate.
      apply store_length in Hstep. congruence.
    + destruct (load x (N - 1)) as [a| |] eqn:Ha; simpl in Hstep; try discriminate.
      destruct (load y (N - 1)) as [b| |] eqn:Hb; simpl in Hstep; try discriminate.
      apply load_Done_inv in Ha as [Ha _]. apply load_Done_inv in Hb as [Hb _].
      apply store_Done_inv in Hstep as [Hs _]. lia.
  - intros [HN|(Hx & Hy & Hz)].
    + exists z. unfold window. now apply for_loop_empty.
    + destruct (window_loop z x y N Hx Hy Hz) as (z' & Hrun & _). eauto.
Qed.

(** X3.  A window of ones leaves a frame of real numbers as it is, bit
    for bit: [z[i]] is [x[i]] for every [i] below [N]. *)
Theorem window_ones (z x y : list float) (N : Z) :
  Z.of_nat (length x) = N ->
  Z.of_nat (length y) = N ->
  N <= Z.of_nat (length z) ->
  all_finite x = true ->
  (forall i, 0 <= i < N -> load y i = Done B32.one) ->
  exists z',
    window z x y N = Done z' /\
    forall i, 0 <= i < N -> load z' i = load x i.
Proof.
  intros Hx Hy Hz Fx Hone.
  destruct (window_loop z x y N ltac:(lia) ltac:(lia) Hz) as (z' & Hrun & _ & Hp & _).
  exists z'. split; [exact Hrun|]. intros i Hi.
  destruct (load_in_bounds x i ltac:(lia)) as [a Ha].
  rewrite (Hp i a B32.one Hi Ha (Hone i Hi)), Ha. f_equal.
  apply B32Algebra.mul_one_r, (all_finite_load x i), Ha. exact Fx.
Qed.

(** [window_ones] on the frame [3, 5]. *)
Lemma window_ones_witness :
  exists z',
    window [B32.zero; B32.zero] [B32.of_Z 3; B32.of_Z 5] [B32.one; B32.one] 2 = Done z' /\
    forall i, 0 <= i < 2 -> load z' i = load [B32.of_Z 3; B32.of_Z 5] i.
Proof.
  apply window_ones.
  - reflexivity.
  - reflexivity.
  - simpl. lia.
  - reflexivity.
  - intros i Hi. assert (i = 0 \/ i = 1) as [-> | ->] by lia; reflexivity.
Defined.

(** ** Bandwidth expansion *)

Lemma chirp_first coef : chirp coef 1 = coef.
Proof. reflexivity. Qed.

Lemma chirp_next coef i : 1 <= i -> chirp coef (i + 1) = (chirp coef i * coef)%F.
Proof.
  intros Hi. unfold chirp.
  replace (Z.to_nat (i + 1 - 1)) with (Datatypes.S (Z.to_nat (i - 1))) by lia.
  reflexivity.
Qed.

Lemma chirp_one i : chirp B32.one i = B32.one.
Proof.
  unfold chirp. induction (Z.to_nat (i - 1)) as [|n IH]; simpl; [reflexivity|].
  rewrite IH. reflexivity.
Qed.

Lemma bwexpand_loop (out inp : list float) (coef : float) (len : Z) :
  1 <= len ->
  len <= Z.of_nat (length inp) ->
  len <= Z.of_nat (length out) ->
  exists out',
    bwexpand out inp coef len = Done out' /\
    length out' = length out /\
    load out' 0 = load inp 0 /\
    (forall i v, 1 <= i < len -> load inp i = Done v ->
       load out' i = Done (chirp coef i * v)%F) /\
    (forall i, len <= i -> load out' i = load out i).
Proof.
  intros Hlen Hin Hout. unfold bwexpand. cbv zeta.
  destruct (load_in_bounds inp 0 ltac:(lia)) as [in0 H0].
  rewrite H0; simpl. rewrite store_in_bounds by lia. simpl.
  pose (P := fun (n : Z) (st : list float * float) =>
    length (fst st) = length out /\
    snd st = chirp coef n /\
    load (fst st) 0 = Done in0 /\
    (forall i v, 1 <= i < n -> load inp i = Done v ->
       load (fst st) i = Done (chirp coef i * v)%F) /\
    (forall i, n <= i -> load (fst st) i = load out i)).
  match goal with |- context [for_loop 1 len ?body ?s] =>
    destruct (for_loop_invariant P body 1 len s Hlen)
      as ([out' c] & Hrun & L & _ & Hfirst & HP & HF) end.
  - unfold P; simpl. rewrite length_insert.
    split; [reflexivity|]. split; [reflexivity|]. split; [apply load_insert_eq; lia|].
    split; [intros; lia|]. intros i Hi. apply load_insert_ne; lia.
  - intros i [t c] Hi (Lt & Hc & H0t & Ht & Ft); simpl in *.
    destruct (load_in_bounds inp i ltac:(lia)) as [v Hv].
    rewrite Hv; simpl. rewrite store_in_bounds by lia. simpl.
    eexists. split; [reflexivity|]. unfold P; simpl.
    split; [now rewrite length_insert|].
    split; [rewrite chirp_next by lia; now rewrite Hc|].
    split; [rewrite load_insert_ne by lia; exact H0t|]. split.
    + intros j w Hj Hw. destruct (Z.eq_dec j i) as [->|Hne].
      * rewrite load_insert_eq by lia. assert (w = v) as -> by congruence.
        now rewrite Hc.
      * rewrite load_insert_ne by lia. apply Ht; [lia|exact Hw].
    + intros j Hj. rewrite load_insert_ne by lia. apply Ft. lia.
  - rewrite Hrun. simpl in *. exists out'. auto.
Qed.

(** X4.  For [length >= 1] and buffers of at least [length] entries,
    [bwexpand] returns with [out[0] = in[0]] and
    [out[i] = chirp_i * in[i]] for [1 <= i < length], where
    [chirp_1 = coef] and [chirp_(i+1)] is the rounded product
    [chirp_i * coef]; [out] is left as it was from [length] on. *)
Theorem bwexpand_spec (out inp : list float) (coef : float) (len : Z) :
  1 <= len ->
  len <= Z.of_nat (length inp) ->
  len <= Z.of_nat (length out) ->
  exists out',
    bwexpand out inp coef len = Done out' /\
    length out' = length out /\
    load out' 0 = load inp 0 /\
    (forall i v, 1 <= i < len -> load inp i = Done v ->
       load out' i = Done (chirp coef i * v)%F) /\
    (forall i, len <= i -> load out' i = load out i).
Proof. apply bwexpand_loop. Qed.

(** [bwexpand_spec] on the coefficients [1, 2, 4] with [coef = 0.5],
    in a buffer of four entries. *)
Lemma bwexpand_spec_witness :
  exists out',
    bwexpand [B32.zero; B32.zero; B32.zero; B32.one] [B32.one; B32.two; B32.of_Z 4]
      half 3 = Done out' /\
    load out' 0 = Done B32.one /\
    load out' 2 = Done (chirp half 2 * B32.of_Z 4)%F /\
    load out' 3 = Done B32.one.
Proof.
  destruct (bwexpand_spec [B32.zero; B32.zero; B32.zero; B32.one]
              [B32.one; B32.two; B32.of_Z 4] half 3) as (out' & Hrun & _ & H0 & Hp & Hf).
  - lia.
  - simpl. lia.
  - simpl. lia.
  - exists out'. split; [exact Hrun|]. split; [exact H0|]. split.
    + apply Hp; [lia|reflexivity].
    + rewrite Hf by lia. reflexivity.
Defined.

(** X5.  With [coef = 1.0f] the expansion of real coefficients is the
    identity: the first [length] entries of [out] are [in], bit for
    bit. *)
Theorem bwexpand_unit (out inp : list float) (len : Z) :
  1 <= len ->
  Z.of_nat (length inp) = len ->
  len <= Z.of_nat (length out) ->
  all_finite inp = true ->
  exists out',
    bwexpand out inp B32.one len = Done out' /\
    take (Z.to_nat len) out' = inp.
Proof.
  intros Hlen Hin Hout Fin.
  destruct (bwexpand_loop out inp B32.one len Hlen ltac:(lia) Hout)
    as (out' & Hrun & L & H0 & Hp & _).
  exists out'. split; [exact Hrun|].
  apply load_ext.
  - rewrite length_take. lia.
  - intros i Hi. rewrite length_take in Hi.
    assert (load (take (Z.to_nat len) out') i = load out' i) as ->.
    { unfold load. destruct (Z.ltb_spec i 0); [reflexivity|].
      rewrite lookup_take_lt by lia. reflexivity. }
    destruct (Z.eq_dec i 0) as [->|Hne]; [exact H0|].
    destruct (load_in_bounds inp i ltac:(lia)) as [v Hv].
    rewrite (Hp i v ltac:(lia) Hv), Hv, chirp_one. f_equal.
    apply B32Round.mul_one_l, (all_finite_load inp i), Hv. exact Fin.
Qed.

(** [bwexpand_unit] on the coefficients [1, 2, 4]. *)
Lemma bwexpand_unit_witness :
  exists out',
    bwexpand [B32.zero; B32.zero; B32.zero; B32.zero] [B32.one; B32.two; B32.of_Z 4]
      B32.one 3 = Done out' /\
    take (Z.to_nat 3) out' = [B32.one; B32.two; B32.of_Z 4].
Proof.
  apply bwexpand_unit.
  - lia.
  - reflexivity.
  - simpl. lia.
  - reflexivity.
Defined.

(** X6.  Whatever [length] is, zero and negative values included,
    [bwexpand] reads [in[0]] and writes it to [out[0]]: on an empty
    [in] or [out] it accesses index [0] out of bounds, and when it
    returns, [out[0]] is [in[0]]; for [length <= 1] that is the only
    entry written. *)
Theorem bwexpand_first (out inp : list float) (coef : float) (len : Z) :
  (inp = [] \/ out = [] -> bwexpand out inp coef len = OutOfBounds 0) /\
  (forall out', bwexpand out inp coef len = Done out' ->
     exists v, load inp 0 = Done v /\ load out' 0 = Done v /\
               (len <= 1 -> out' = <[0%nat := v]> out)).
Proof.
  split.
  - intros [-> | ->]; unfold bwexpand; simpl; [reflexivity|].
    destruct inp; reflexivity.
  - intros out' Hrun. unfold bwexpand in Hrun. cbv zeta in Hrun.
    destruct (load inp 0) as [v| |] eqn:E0; simpl in Hrun; try discriminate.
    destruct (store out 0 v) as [out0| |] eqn:Es; simpl in Hrun; try discriminate.
    match type of Hrun with (st <- ?loop ;; _) = _ =>
      destruct loop as [[t c]| |] eqn:Hloop end; simpl in Hrun; try discriminate.
    injection Hrun as <-.
    exists v. split; [reflexivity|].
    pose proof (load_store_eq _ _ _ _ Es) as H0.
    apply store_Done_inv in Es as [Hb ->].
    destruct (Z.le_gt_cases len 1) as [Hle|Hgt].
    + rewrite for_loop_empty in Hloop by lia. injection Hloop as <- <-.
      split; [exact H0|]. intros _. reflexivity.
    + split; [|intros; lia].
      match type of Hloop with for_loop 1 len ?body ?s = _ =>
        apply (for_loop_partial (fun _ st => load (fst st) 0 = Done v) body 1 len s (t, c))
      end; [lia|exact H0| |exact Hloop].
      intros j [u d] [u' d'] Hj Hu Hstep; simpl in *.
      destruct (load inp j); simpl in Hstep; try discriminate.
      destruct (store u j (d * a)%F) as [w| |] eqn:Ew; simpl in Hstep; try discriminate.
      injection Hstep as <- <-.
      rewrite (load_store_ne _ _ _ _ _ Ew) by lia. exact Hu.
Qed.

(** ** Levinson-Durbin on a regular frame *)

Section LevdurbFacts.

Variable EPS : float.

Lemma half_bounds m i : 1 <= m -> 0 <= i < Z.shiftr (m + 1) 1 -> 1 <= i + 1 <= m /\ 1 <= m - i <= m.
Proof.
  intros Hm Hi. rewrite Z.shiftr_div_pow2 in Hi by lia.
  change (2 ^ 1) with 2 in Hi.
  assert (2 * ((m + 1) / 2) <= m + 1) by (apply Z.mul_div_le; lia).
  lia.
Qed.

(** The butterfly rewrites [a[1 .. m]] only. *)
Lemma levdurb_update_spec k m a :
  1 <= m -> m < Z.of_nat (length a) -> m < Z.of_nat (length k) ->
  exists a',
    levdurb_update k m a = Done a' /\
    length a' = length a /\
    forall j, j < 1 \/ m < j -> load a' j = load a j.
Proof.
  intros Hm Ha Hk. unfold levdurb_update.
  assert (0 <= Z.shiftr (m + 1) 1) as Hh by (apply Z.shiftr_nonneg; lia).
  pose (P := fun (_ : Z) (t : list float) =>
    length t = length a /\ forall j, j < 1 \/ m < j -> load t j = load a j).
  match goal with |- context [for_loop 0 ?hi ?body a] =>
    destruct (for_loop_invariant P body 0 hi a Hh) as (a' & Hrun & HP) end.
  - split; auto.
  - intros i t Hi (Lt & Ft).
    destruct (half_bounds m i Hm Hi) as [H1 H2].
    destruct (load_in_bounds t (i + 1) ltac:(lia)) as [ai Hai].
    destruct (load_in_bounds k m ltac:(lia)) as [km Hkm].
    destruct (load_in_bounds t (m - i) ltac:(lia)) as [ami Hami].
    rewrite Hai; simpl. rewrite Hkm; simpl. rewrite Hami; simpl.
    rewrite store_in_bounds by lia. simpl.
    rewrite store_in_bounds by (rewrite length_insert; lia).
    eexists. split; [reflexivity|]. split.
    + now rewrite !length_insert.
    + intros j Hj. rewrite !load_insert_ne by lia. now apply Ft.
  - exists a'. auto.
Qed.

(** One order of the recursion ends with [a[m + 1] = k[m]]; it writes
    [a[1 .. m + 1]] and [k[m]] only. *)
Lemma levdurb_order_spec r m a k alpha :
  1 <= m ->
  m + 1 < Z.of_nat (length a) -> m < Z.of_nat (length k) -> m + 1 < Z.of_nat (length r) ->
  exists a' k' alpha',
    levdurb_order r m (a, k, alpha) = Done (a', k', alpha') /\
    length a' = length a /\ length k' = length k /\
    load a' (m + 1) = load k' m /\
    (forall j, j < 1 \/ m + 1 < j -> load a' j = load a j) /\
    (forall j, j <> m -> load k' j = load k j).
Proof.
  intros Hm Ha Hk Hr. unfold levdurb_order.
  destruct (load_in_bounds r (m + 1) ltac:(lia)) as [rm Hrm].
  rewrite Hrm; simpl.
  match goal with |- context [for_loop 0 m ?body rm] =>
    destruct (for_loop_invariant (fun _ _ => True) body 0 m rm ltac:(lia) I)
      as (sum & -> & _) end.
  { intros i acc Hi _.
    destruct (load_in_bounds a (i + 1) ltac:(lia)) as [ai ->].
    destruct (load_in_bounds r (m - i) ltac:(lia)) as [ri ->].
    simpl. eauto. }
  simpl. rewrite store_in_bounds by lia. simpl.
  rewrite load_insert_eq by lia. simpl.
  set (km := (- sum / alpha)%F).
  destruct (levdurb_update_spec (<[Z.to_nat m := km]> k) m a Hm ltac:(lia)
              ltac:(rewrite length_insert; lia)) as (a1 & -> & La1 & Fa1).
  simpl. rewrite store_in_bounds by lia. simpl.
  eexists _, _, _. split; [reflexivity|].
  split; [rewrite length_insert; exact La1|].
  split; [apply length_insert|].
  split; [rewrite !load_insert_eq by lia; reflexivity|]. split.
  - intros j Hj. rewrite load_insert_ne by lia. apply Fa1. lia.
  - intros j Hj. apply load_insert_ne; lia.
Qed.

Lemma levdurb_regular_run (a k r : list float) (order : Z) (r0 r1 : float) :
  1 <= order ->
  order + 1 <= Z.of_nat (length a) ->
  order <= Z.of_nat (length k) ->
  order + 1 <= Z.of_nat (length r) ->
  load r 0 = Done r0 ->
  load r 1 = Done r1 ->
  (r0 <? EPS)%F = false ->
  exists a' k',
    levdurb EPS a k r order = Done (a', k') /\
    length a' = length a /\ length k' = length k /\
    load a' 0 = Done B32.one /\
    load k' 0 = Done (- r1 / r0)%F /\
    load a' order = load k' (order - 1) /\
    (forall j, order < j -> load a' j = load a j) /\
    (forall j, order <= j -> load k' j = load k j).
Proof.
  intros Hord Ha Hk Hr Hr0 Hr1 Hreg. unfold levdurb.
  rewrite store_in_bounds by lia. simpl. rewrite Hr0; simpl. rewrite Hreg, Hr1; simpl.
  rewrite store_in_bounds by lia. simpl.
  rewrite load_insert_eq by lia. simpl.
  rewrite store_in_bounds by (rewrite length_insert; lia). simpl.
  set (k0 := (- r1 / r0)%F).
  pose (P := fun (m : Z) (st : list float * list float * float) =>
    length (fst (fst st)) = length a /\ length (snd (fst st)) = length k /\
    load (fst (fst st)) 0 = Done B32.one /\
    load (snd (fst st)) 0 = Done k0 /\
    load (fst (fst st)) m = load (snd (fst st)) (m - 1) /\
    (forall j, m < j -> load (fst (fst st)) j = load a j) /\
    (forall j, m <= j -> load (snd (fst st)) j = load k j)).
  match goal with |- context [for_loop 1 order ?body ?s] =>
    destruct (for_loop_invariant P body 1 order s Hord)
      as ([[a' k'] alpha'] & -> & HP) end.
  - unfold P; simpl. rewrite !length_insert.
    split; [reflexivity|]. split; [reflexivity|].
    split; [rewrite load_insert_ne by lia; apply load_insert_eq; lia|].
    split; [apply load_insert_eq; lia|].
    split; [rewrite !load_insert_eq by (rewrite ?length_insert; lia); reflexivity|].
    split; intros j Hj; rewrite !load_insert_ne by lia; reflexivity.
  - intros m [[am km] alpha] Hm (La & Lk & Ha0 & Hk0 & _ & Fa & Fk); cbn [fst snd] in *.
    destruct (levdurb_order_spec r m am km alpha ltac:(lia) ltac:(lia) ltac:(lia) ltac:(lia))
      as (a2 & k2 & alpha2 & -> & La2 & Lk2 & Hlast & Fa2 & Fk2).
    eexists. split; [reflexivity|]. unfold P; simpl.
    split; [congruence|]. split; [congruence|].
    split; [rewrite Fa2 by lia; exact Ha0|].
    split; [rewrite Fk2 by lia; exact Hk0|].
    split; [now replace (m + 1 - 1) with m by lia|]. split.
    + intros j Hj. rewrite Fa2 by lia. apply Fa. lia.
    + intros j Hj. rewrite Fk2 by lia. apply Fk. lia.
  - simpl. exists a', k'. unfold P in HP; simpl in HP.
    destruct HP as (La & Lk & Ha0 & Hk0 & Hlast & Fa & Fk).
    repeat split; auto.
Qed.

End LevdurbFacts.

(** X7.  When [r[0]] is not below [EPS], and for [order >= 1] with [a]
    and [r] of at least [order + 1] entries and [k] of at least [order],
    the solver returns with [a[0] = 1.0], [k[0] = -r[1]/r[0]] and
    [a[order] = k[order-1]]: the last LPC coefficient is the last
    reflection coefficient.  It leaves [a] from [order + 1] on and [k]
    from [order] on as they were. *)
Theorem levdurb_regular (EPS : float) (a k r : list float) (order : Z) (r0 r1 : float) :
  1 <= order ->
  order + 1 <= Z.of_nat (length a) ->
  order <= Z.of_nat (length k) ->
  order + 1 <= Z.of_nat (length r) ->
  load r 0 = Done r0 ->
  load r 1 = Done r1 ->
  (r0 <? EPS)%F = false ->
  exists a' k',
    levdurb EPS a k r order = Done (a', k') /\
    length a' = length a /\ length k' = length k /\
    load a' 0 = Done B32.one /\
    load k' 0 = Done (- r1 / r0)%F /\
    load a' order = load k' (order - 1) /\
    (forall j, order < j -> load a' j = load a j) /\
    (forall j, order <= j -> load k' j = load k j).
Proof. apply levdurb_regular_run. Qed.

(** [levdurb_regular] on the autocorrelation [14, 8, 3] with
    [order = 2] and [EPS = 2^-52], in a buffer [a] of four entries. *)
Lemma levdurb_regular_witness :
  exists a' k',
    levdurb (B32.ldexp 1 (-52)) [B32.zero; B32.zero; B32.zero; B32.two] [B32.zero; B32.zero]
      [B32.of_Z 14; B32.of_Z 8; B32.of_Z 3] 2 = Done (a', k') /\
    load a' 0 = Done B32.one /\
    load k' 0 = Done (- B32.of_Z 8 / B32.of_Z 14)%F /\
    load a' 2 = load k' (2 - 1) /\
    load a' 3 = Done B32.two.
Proof.
  destruct (levdurb_regular (B32.ldexp 1 (-52)) [B32.zero; B32.zero; B32.zero; B32.two]
              [B32.zero; B32.zero] [B32.of_Z 14; B32.of_Z 8; B32.of_Z 3] 2
              (B32.of_Z 14) (B32.of_Z 8))
    as (a' & k' & Hrun & _ & _ & Ha0 & Hk0 & Hlast & Fa & _).
  - lia.
  - simpl. lia.
  - simpl. lia.
  - simpl. lia.
  - reflexivity.
  - reflexivity.
  - reflexivity.
  - exists a', k'. split; [exact Hrun|]. split; [exact Ha0|]. split; [exact Hk0|].
    split; [exact Hlast|]. rewrite Fa by lia. reflexivity.
Defined.

(** X8.  With [order <= 0] and the one lag [r[0]] that such an order
    needs, the solver returns [a[0] = 1.0] when [r[0] < EPS], and reads
    [r[1]], out of bounds, when [r[0]] is not below [EPS]: that branch
    initialises the first order before it looks at [order]. *)
Theorem levdurb_order_zero (EPS : float) (a k r : list float) (order : Z) (r0 : float) :
  order <= 0 ->
  1 <= Z.of_nat (length a) ->
  r = [r0] ->
  ((r0 <? EPS)%F = true -> levdurb EPS a k r order = Done (<[0%nat := B32.one]> a, k)) /\
  ((r0 <? EPS)%F = false -> levdurb EPS a k r order = OutOfBounds 1).
Proof.
  intros Hord Ha ->. unfold levdurb.
  rewrite store_in_bounds by lia. simpl.
  split; intros ->; [|reflexivity].
  now rewrite for_loop_empty by lia.
Qed.

(** [levdurb_order_zero] with [order = 0] on [r = (0)] and on
    [r = (1)], with [EPS = 2^-52]. *)
Lemma levdurb_order_zero_witness :
  levdurb (B32.ldexp 1 (-52)) [B32.two] [] [B32.zero] 0 = Done ([B32.one], []) /\
  levdurb (B32.ldexp 1 (-52)) [B32.two] [] [B32.one] 0 = OutOfBounds 1.
Proof.
  split.
  - apply (proj1 (levdurb_order_zero (B32.ldexp 1 (-52)) [B32.two] [] [B32.zero] 0 B32.zero
                    ltac:(lia) ltac:(simpl; lia) eq_refl)).
    reflexivity.
  - apply (proj2 (levdurb_order_zero (B32.ldexp 1 (-52)) [B32.two] [] [B32.one] 0 B32.one
                    ltac:(lia) ltac:(simpl; lia) eq_refl)).
    reflexivity.
Defined.

Section LevdurbOutputs.

Variable r : list float.

(** Side by side on buffers that agree on [a[1 .. m]] and hold the same
    [k[m]], the butterfly leaves buffers that agree on [a[1 .. m]]. *)
Lemma levdurb_update_rel k1 k2 m a1 a2 km :
  1 <= m ->
  m < Z.of_nat (length a1) -> m < Z.of_nat (length a2) ->
  load k1 m = Done km -> load k2 m = Done km ->
  (forall j, 1 <= j <= m -> load a1 j = load a2 j) ->
  exists a1' a2',
    levdurb_update k1 m a1 = Done a1' /\ levdurb_update k2 m a2 = Done a2' /\
    length a1' = length a1 /\ length a2' = length a2 /\
    (forall j, 1 <= j <= m -> load a1' j = load a2' j) /\
    (forall j, j < 1 \/ m < j -> load a1' j = load a1 j) /\
    (forall j, j < 1 \/ m < j -> load a2' j = load a2 j).
Proof.
  intros Hm L1 L2 Hk1 Hk2 Hag. unfold levdurb_update.
  assert (0 <= Z.shiftr (m + 1) 1) as Hh by (apply Z.shiftr_nonneg; lia).
  pose (R := fun (_ : Z) (t1 t2 : list float) =>
    length t1 = length a1 /\ length t2 = length a2 /\
    (forall j, 1 <= j <= m -> load t1 j = load t2 j) /\
    (forall j, j < 1 \/ m < j -> load t1 j = load a1 j) /\
    (forall j, j < 1 \/ m < j -> load t2 j = load a2 j)).
  match goal with |- context [for_loop 0 ?hi ?b1 a1 = _ /\ for_loop 0 ?hi ?b2 a2 = _ /\ _] =>
    destruct (for_loop_rel R b1 b2 0 hi a1 a2 Hh) as (a1' & a2' & H1 & H2 & HR) end.
  - unfold R. auto.
  - intros i t1 t2 Hi (Lt1 & Lt2 & Ht & F1 & F2).
    destruct (half_bounds m i Hm Hi) as [B1 B2].
    destruct (load_in_bounds t1 (i + 1) ltac:(lia)) as [ai Hai].
    destruct (load_in_bounds t1 (m - i) ltac:(lia)) as [ami Hami].
    pose proof Hai as Hai2. rewrite Ht in Hai2 by lia.
    pose proof Hami as Hami2. rewrite Ht in Hami2 by lia.
    rewrite Hai, Hai2; simpl. rewrite Hk1, Hk2; simpl. rewrite Hami, Hami2; simpl.
    rewrite !store_in_bounds by lia. simpl.
    rewrite !store_in_bounds by (rewrite length_insert; lia).
    eexists _, _. split; [reflexivity|]. split; [reflexivity|]. unfold R.
    rewrite !length_insert. split; [exact Lt1|]. split; [exact Lt2|]. split; [|split].
    + intros j Hj. destruct (Z.eq_dec j (i + 1)) as [->|Hne1].
      * rewrite !load_insert_eq by (rewrite ?length_insert; lia). reflexivity.
      * rewrite !(load_insert_ne _ (i + 1)) by lia.
        destruct (Z.eq_dec j (m - i)) as [->|Hne2].
        -- rewrite !load_insert_eq by lia. reflexivity.
        -- rewrite !load_insert_ne by lia. apply Ht, Hj.
    + intros j Hj. rewrite !load_insert_ne by lia. apply F1, Hj.
    + intros j Hj. rewrite !load_insert_ne by lia. apply F2, Hj.
  - exists a1', a2'. destruct HR as (? & ? & ? & ? & ?). auto 10.
Qed.

(** One order of the recursion, side by side. *)
Lemma levdurb_order_rel m a1 k1 a2 k2 alpha :
  1 <= m ->
  m + 1 < Z.of_nat (length a1) -> m + 1 < Z.of_nat (length a2) ->
  m < Z.of_nat (length k1) -> m < Z.of_nat (length k2) ->
  m + 1 < Z.of_nat (length r) ->
  (forall j, 0 <= j <= m -> load a1 j = load a2 j) ->
  (forall j, 0 <= j < m -> load k1 j = load k2 j) ->
  exists a1' k1' a2' k2' alpha',
    levdurb_order r m (a1, k1, alpha) = Done (a1', k1', alpha') /\
    levdurb_order r m (a2, k2, alpha) = Done (a2', k2', alpha') /\
    length a1' = length a1 /\ length a2' = length a2 /\
    length k1' = length k1 /\ length k2' = length k2 /\
    (forall j, 0 <= j <= m + 1 -> load a1' j = load a2' j) /\
    (forall j, 0 <= j < m + 1 -> load k1' j = load k2' j).
Proof.
  intros Hm La1 La2 Lk1 Lk2 Lr Ha Hk. unfold levdurb_order.
  destruct (load_in_bounds r (m + 1) ltac:(lia)) as [rm Hrm].
  rewrite Hrm; simpl.
  match goal with |- context [for_loop 0 m ?b1 rm] => set (body1 := b1) end.
  assert (exists sum, for_loop 0 m body1 rm = Done sum) as [sum Hs1].
  { destruct (for_loop_invariant (fun _ _ => True) body1 0 m rm ltac:(lia) I)
      as (sum & Hsum & _); [|eauto].
    intros i acc Hi _. unfold body1.
    destruct (load_in_bounds a1 (i + 1) ltac:(lia)) as [ai ->].
    destruct (load_in_bounds r (m - i) ltac:(lia)) as [ri ->].
    simpl. eauto. }
  match goal with |- context [for_loop 0 m ?b2 rm] =>
    lazymatch b2 with body1 => fail | _ => set (body2 := b2) end end.
  assert (for_loop 0 m body2 rm = Done sum) as Hs2.
  { rewrite <- Hs1. symmetry.
    apply (for_loop_ext (fun _ _ => True)); [exact I|].
    intros i acc Hi _. split; [|auto]. unfold body1, body2.
    rewrite (Ha (i + 1)) by lia. reflexivity. }
  rewrite Hs1, Hs2. simpl.
  rewrite !store_in_bounds by lia. simpl.
  rewrite !load_insert_eq by lia. simpl.
  set (km := (- sum / alpha)%F).
  destruct (levdurb_update_rel (<[Z.to_nat m := km]> k1) (<[Z.to_nat m := km]> k2) m a1 a2 km
              Hm ltac:(lia) ltac:(lia)
              ltac:(apply load_insert_eq; lia) ltac:(apply load_insert_eq; lia)
              ltac:(intros j Hj; apply Ha; lia))
    as (b1 & b2 & -> & -> & Lb1 & Lb2 & Hb & F1 & F2).
  simpl. rewrite !store_in_bounds by lia. simpl.
  eexists _, _, _, _, _. split; [reflexivity|]. split; [reflexivity|].
  rewrite !length_insert.
  split; [exact Lb1|]. split; [exact Lb2|]. split; [reflexivity|]. split; [reflexivity|].
  split.
  - intros j Hj. destruct (Z.eq_dec j (m + 1)) as [->|Hne].
    + rewrite !load_insert_eq by lia. reflexivity.
    + rewrite !load_insert_ne by lia.
      destruct (Z.eq_dec j 0) as [->|Hne0].
      * rewrite F1, F2 by lia. apply Ha. lia.
      * apply Hb. lia.
  - intros j Hj. destruct (Z.eq_dec j m) as [->|Hne].
    + rewrite !load_insert_eq by lia. reflexivity.
    + rewrite !load_insert_ne by lia. apply Hk. lia.
Qed.

End LevdurbOutputs.

(** X9.  The results [a[0 .. order]] and [k[0 .. order-1]] of the solver
    are determined by [r], [order] and [EPS]: two calls on output
    buffers with different old contents return the same
    coefficients. *)
Theorem levdurb_outputs_from_r (EPS : float) (a1 k1 a2 k2 r : list float) (order : Z) :
  1 <= order ->
  order + 1 <= Z.of_nat (length a1) -> order + 1 <= Z.of_nat (length a2) ->
  order <= Z.of_nat (length k1) -> order <= Z.of_nat (length k2) ->
  order + 1 <= Z.of_nat (length r) ->
  exists a1' k1' a2' k2',
    levdurb EPS a1 k1 r order = Done (a1', k1') /\
    levdurb EPS a2 k2 r order = Done (a2', k2') /\
    (forall j, 0 <= j <= order -> load a1' j = load a2' j) /\
    (forall j, 0 <= j < order -> load k1' j = load k2' j).
Proof.
  intros Hord La1 La2 Lk1 Lk2 Lr. unfold levdurb.
  rewrite !store_in_bounds by lia. simpl.
  destruct (load_in_bounds r 0 ltac:(lia)) as [r0 ->]. simpl.
  destruct (r0 <? EPS)%F.
  - pose (R := fun (n : Z) (s1 s2 : list float * list float) =>
      length (fst s1) = length a1 /\ length (fst s2) = length a2 /\
      length (snd s1) = length k1 /\ length (snd s2) = length k2 /\
      (forall j, 0 <= j <= n -> load (fst s1) j = load (fst s2) j) /\
      (forall j, 0 <= j < n -> load (snd s1) j = load (snd s2) j)).
    match goal with |- context [for_loop 0 order ?b ?s1 = _ /\ for_loop 0 order _ ?s2 = _ /\ _] =>
      destruct (for_loop_rel R b b 0 order s1 s2 ltac:(lia))
        as ([a1' k1'] & [a2' k2'] & -> & -> & HR) end.
    + unfold R; simpl. rewrite !length_insert. repeat split; auto; try (intros; lia).
      intros j Hj. assert (j = 0) as -> by lia. rewrite !load_insert_eq by lia. reflexivity.
    + intros i [b1 c1] [b2 c2] Hi (Lb1 & Lb2 & Lc1 & Lc2 & Hb & Hc); simpl in *.
      rewrite !store_in_bounds by lia. simpl. rewrite ?store_in_bounds by lia. simpl.
      eexists _, _. split; [reflexivity|]. split; [reflexivity|]. unfold R; simpl.
      rewrite !length_insert. repeat split; auto.
      * intros j Hj. destruct (Z.eq_dec j (i + 1)) as [->|Hne].
        -- rewrite !load_insert_eq by lia. reflexivity.
        -- rewrite !load_insert_ne by lia. apply Hb. lia.
      * intros j Hj. destruct (Z.eq_dec j i) as [->|Hne].
        -- rewrite !load_insert_eq by lia. reflexivity.
        -- rewrite !load_insert_ne by lia. apply Hc. lia.
    + exists a1', k1', a2', k2'. destruct HR as (_ & _ & _ & _ & Ha & Hk). simpl in *. auto.
  - destruct (load_in_bounds r 1 ltac:(lia)) as [r1 ->]. simpl.
    rewrite !store_in_bounds by lia. simpl.
    rewrite !load_insert_eq by lia. simpl.
    rewrite !store_in_bounds by (rewrite length_insert; lia). simpl.
    set (k0 := (- r1 / r0)%F).
    pose (R := fun (m : Z) (s1 s2 : list float * list float * float) =>
      snd s1 = snd s2 /\
      length (fst (fst s1)) = length a1 /\ length (fst (fst s2)) = length a2 /\
      length (snd (fst s1)) = length k1 /\ length (snd (fst s2)) = length k2 /\
      (forall j, 0 <= j <= m -> load (fst (fst s1)) j = load (fst (fst s2)) j) /\
      (forall j, 0 <= j < m -> load (snd (fst s1)) j = load (snd (fst s2)) j)).
    destruct (for_loop_rel R (levdurb_order r) (levdurb_order r) 1 order
                (<[Z.to_nat 1:=k0]> (<[Z.to_nat 0:=B32.one]> a1),
                 <[Z.to_nat 0:=k0]> k1, (r0 + r1 * k0)%F)
                (<[Z.to_nat 1:=k0]> (<[Z.to_nat 0:=B32.one]> a2),
                 <[Z.to_nat 0:=k0]> k2, (r0 + r1 * k0)%F) Hord)
      as ([[a1' k1'] al1] & [[a2' k2'] al2] & H1 & H2 & HR).
    + unfold R; simpl. rewrite !length_insert. repeat split; auto.
      * intros j Hj. destruct (Z.eq_dec j 1) as [->|Hne].
        -- rewrite !load_insert_eq by (rewrite ?length_insert; lia). reflexivity.
        -- assert (j = 0) as -> by lia.
           rewrite !(load_insert_ne _ 1) by lia. rewrite !load_insert_eq by lia. reflexivity.
      * intros j Hj. assert (j = 0) as -> by lia. rewrite !load_insert_eq by lia. reflexivity.
    + intros m [[b1 c1] al1] [[b2 c2] al2] Hm (Hal & Lb1 & Lb2 & Lc1 & Lc2 & Hb & Hc);
        cbn [fst snd] in *. subst al2.
      destruct (levdurb_order_rel r m b1 c1 b2 c2 al1 ltac:(lia) ltac:(lia) ltac:(lia)
                  ltac:(lia) ltac:(lia) ltac:(lia) Hb Hc)
        as (b1' & c1' & b2' & c2' & al' & -> & -> & L1 & L2 & L3 & L4 & Hb' & Hc').
      eexists _, _. split; [reflexivity|]. split; [reflexivity|]. unfold R; cbn [fst snd].
      repeat split; auto; congruence.
    + rewrite H1, H2. simpl. exists a1', k1', a2', k2'.
      destruct HR as (_ & _ & _ & _ & _ & Ha & Hk). cbn [fst snd] in *. auto.
Qed.

(** [levdurb_outputs_from_r] on the autocorrelation [14, 8, 3], once
    with cleared output buffers and once with buffers that hold NaN. *)
Lemma levdurb_outputs_from_r_witness :
  exists a1' k1' a2' k2',
    levdurb (B32.ldexp 1 (-52)) [B32.zero; B32.zero; B32.zero] [B32.zero; B32.zero]
      [B32.of_Z 14; B32.of_Z 8; B32.of_Z 3] 2 = Done (a1', k1') /\
    levdurb (B32.ldexp 1 (-52)) [B32.two; S754_nan; B32.one; B32.one] [S754_nan; B32.two]
      [B32.of_Z 14; B32.of_Z 8; B32.of_Z 3] 2 = Done (a2', k2') /\
    (forall j, 0 <= j <= 2 -> load a1' j = load a2' j) /\
    (forall j, 0 <= j < 2 -> load k1' j = load k2' j).
Proof.
  apply levdurb_outputs_from_r.
  - lia.
  - simpl. lia.
  - simpl. lia.
  - simpl. lia.
  - simpl. lia.
  - simpl. lia.
Defined.

(** ** Autocorrelation, continued *)

(** X10.  [autocorr] reads [x[0 .. N-1]] only: two data buffers with the
    same first [N] entries give the same result, faults included. *)
Theorem autocorr_reads_prefix (r x x' : list float) (N order : Z) :
  take (Z.to_nat N) x = take (Z.to_nat N) x' ->
  autocorr r x N order = autocorr r x' N order.
Proof.
  intros E. unfold autocorr.
  apply (for_loop_ext (fun _ _ => True)); [exact I|].
  intros lag t Hlag _. split; [|auto].
  f_equal.
  apply (for_loop_ext (fun _ _ => True)); [exact I|].
  intros n acc Hn _. split; [|auto].
  rewrite (load_take_eq x x' _ n E) by lia.
  rewrite (load_take_eq x x' _ (n + lag) E) by lia.
  reflexivity.
Qed.

(** [autocorr_reads_prefix] on the frame [1, 2], followed by [7] or
    by nothing. *)
Lemma autocorr_reads_prefix_witness :
  autocorr [B32.zero; B32.zero] [B32.one; B32.two; B32.of_Z 7] 2 1
  = autocorr [B32.zero; B32.zero] [B32.one; B32.two] 2 1.
Proof. apply autocorr_reads_prefix. reflexivity. Defined.

(** X11.  On a frame of [N >= 0] entries at the start of [x], and with
    [r] of at least [order + 1] entries, [order] below [INT_MAX],
    [autocorr] returns; every lag [l] with [N <= l <= order] is [+0],
    the sum of no product, and [r] is left as it was above [order].  A
    negative [order] writes nothing.  Within these bounds neither
    [N - lag] nor [lag++] leaves the range of an [int]. *)
Theorem autocorr_tail (r x : list float) (N order : Z) :
  0 <= N ->
  N <= Z.of_nat (length x) ->
  order < INT_MAX ->
  order + 1 <= Z.of_nat (length r) ->
  exists r',
    autocorr r x N order = Done r' /\
    length r' = length r /\
    (forall l, 0 <= l <= order -> N <= l -> load r' l = Done B32.zero) /\
    (forall l, order < l -> load r' l = load r l).
Proof.
  intros _ HN _ Hr. unfold autocorr.
  destruct (Z.le_gt_cases 0 (order + 1)) as [Hord|Hord].
  2:{ rewrite for_loop_empty by lia. exists r. repeat split; auto. intros; lia. }
  pose (P := fun (lag : Z) (t : list float) =>
    length t = length r /\
    (forall l, 0 <= l < lag -> N <= l -> load t l = Done B32.zero) /\
    (forall l, lag <= l -> load t l = load r l)).
  match goal with |- context [for_loop 0 (order + 1) ?b r] =>
    destruct (for_loop_invariant P b 0 (order + 1) r Hord) as (r' & Hrun & L & HZ & HF) end.
  - split; [reflexivity|]. split; [intros; lia|reflexivity].
  - intros lag t Hlag (Lt & Zt & Ft).
    match goal with |- context [for_loop 0 (N - lag) ?b ?s] =>
      destruct (for_loop_preserves (fun acc => N <= lag -> acc = B32.zero) b 0 (N - lag) s)
        as (sum & -> & Hsum) end.
    + reflexivity.
    + intros n acc Hn _.
      destruct (load_in_bounds x n ltac:(lia)) as [a ->].
      destruct (load_in_bounds x (n + lag) ltac:(lia)) as [b ->].
      simpl. eexists. split; [reflexivity|]. intros; lia.
    + simpl. rewrite store_in_bounds by lia.
      eexists. split; [reflexivity|]. split; [now rewrite length_insert|]. split.
      * intros l Hl HNl. destruct (Z.eq_dec l lag) as [->|Hne].
        -- rewrite load_insert_eq by lia. now rewrite Hsum.
        -- rewrite load_insert_ne by lia. apply Zt; lia.
      * intros l Hl. rewrite load_insert_ne by lia. apply Ft. lia.
  - exists r'. split; [exact Hrun|]. split; [exact L|]. split.
    + intros l Hl HNl. apply HZ; lia.
    + intros l Hl. apply HF. lia.
Qed.

(** [autocorr_tail] on the frame [1, 2] with [order = 2], in a
    buffer [r] of four entries. *)
Lemma autocorr_tail_witness :
  exists r',
    autocorr [B32.two; B32.two; B32.two; B32.two] [B32.one; B32.two] 2 2 = Done r' /\
    load r' 2 = Done B32.zero /\
    load r' 3 = Done B32.two.
Proof.
  destruct (autocorr_tail [B32.two; B32.two; B32.two; B32.two] [B32.one; B32.two] 2 2)
    as (r' & Hrun & _ & Hz & Hf).
  - lia.
  - simpl. lia.
  - reflexivity.
  - simpl. lia.
  - exists r'. split; [exact Hrun|]. split.
    + apply Hz; lia.
    + rewrite Hf by lia. reflexivity.
Defined.

(** *** The sign of the frame *)

Lemma mul_opp_opp (a b : float) : (- a * - b)%F = (a * b)%F.
Proof.
  destruct a as [sa|sa| |sa ma ea], b as [sb|sb| |sb mb eb]; try reflexivity;
    destruct sa, sb; reflexivity.
Qed.

Lemma load_map_opp (x : list float) i :
  load (map B32.opp x) i = (v <- load x i ;; Done (- v)%F).
Proof.
  unfold load. destruct (i <? 0); [reflexivity|].
  rewrite list_lookup_fmap. destruct (x !! Z.to_nat i); reflexivity.
Qed.

(** X12.  Negating the frame changes no lag: the products
    [(-x[n]) * (-x[n + lag])] are the products [x[n] * x[n + lag]], bit
    for bit, so [autocorr] returns the same result, faults
    included. *)
Theorem autocorr_negate (r x : list float) (N order : Z) :
  autocorr r (map B32.opp x) N order = autocorr r x N order.
Proof.
  unfold autocorr.
  apply (for_loop_ext (fun _ _ => True)); [exact I|].
  intros lag t Hlag _. split; [|auto].
  f_equal.
  apply (for_loop_ext (fun _ _ => True)); [exact I|].
  intros n acc Hn _. split; [|auto].
  rewrite !load_map_opp.
  destruct (load x n) as [a| |]; simpl; try reflexivity.
  destruct (load x (n + lag)) as [b| |]; simpl; try reflexivity.
  now rewrite mul_opp_opp.
Qed.

(** ** Interpolation, continued *)

(** X13.  With [coef = 0.5f] the interpolation is symmetric in its two
    inputs: [1.0f - 0.5f] is [0.5f] and the rounded sum commutes, so
    exchanging [in1] and [in2] gives the same result, faults
    included. *)
Theorem interpolate_half_symmetric (out in1 in2 : list float) (len : Z) :
  interpolate out in1 in2 half len = interpolate out in2 in1 half len.
Proof.
  unfold interpolate. cbv zeta.
  change (B32.one - half)%F with half.
  apply (for_loop_ext (fun _ _ => True)); [exact I|].
  intros i t Hi _. split; [|auto].
  destruct (load in1 i) as [a|j|] eqn:Ha; destruct (load in2 i) as [b|j'|] eqn:Hb; simpl;
    try reflexivity;
    try (now apply load_fuel in Ha); try (now apply load_fuel in Hb).
  - now rewrite B32Algebra.add_comm.
  - assert (load in1 i = OutOfBounds i) as E.
    { unfold load in *. destruct (i <? 0); [reflexivity|]. destruct (in1 !! Z.to_nat i); [discriminate|reflexivity]. }
    assert (load in2 i = OutOfBounds i) as E'.
    { unfold load in *. destruct (i <? 0); [reflexivity|]. destruct (in2 !! Z.to_nat i); [discriminate|reflexivity]. }
    congruence.
Qed.

(** ** Vector quantization, continued *)

Section VqSafety.

Variable FLOAT_MAX : float.
Variables CB X : list float.
Variables dim n_cb : Z.
Hypothesis dim_pos : 1 <= dim.
Hypothesis X_long : dim <= Z.of_nat (length X).
Hypothesis CB_long : n_cb * dim <= Z.of_nat (length CB).

Lemma vq_index_bounds j i :
  0 <= j < n_cb -> 0 <= i < dim -> 0 <= j * dim + i < n_cb * dim.
Proof using Type.
  intros Hj Hi. clear - Hj Hi.
  assert (0 <= j * dim) by (apply Z.mul_nonneg_nonneg; lia).
  assert ((j + 1) * dim <= n_cb * dim) by (apply Z.mul_le_mono_nonneg_r; lia).
  lia.
Qed.

(** The distance loop stays inside the two buffers. *)
Lemma vq_dist_total j :
  0 <= j < n_cb -> exists d, vq_dist CB X dim (j * dim) = Done d.
Proof using dim_pos X_long CB_long.
  intros Hj. unfold vq_dist.
  destruct (load_in_bounds X 0 ltac:(lia)) as [x0 ->].
  destruct (load_in_bounds CB (j * dim) ltac:(pose proof (vq_index_bounds j 0); lia)) as [c0 ->].
  simpl.
  match goal with |- context [for_loop 1 dim ?b ?s] =>
    destruct (for_loop_preserves (fun _ => True) b 1 dim s I) as (d & -> & _) end; [|eauto].
  intros i acc Hi _.
  destruct (load_in_bounds X i ltac:(lia)) as [xi ->].
  destruct (load_in_bounds CB (j * dim + i) ltac:(pose proof (vq_index_bounds j i); lia)) as [ci ->].
  simpl. eauto.
Qed.

(** A NaN among the first [dim] entries of [X] makes every distance a
    NaN. *)
Lemma vq_dist_nan j p :
  0 <= j < n_cb -> 0 <= p < dim -> load X p = Done S754_nan ->
  vq_dist CB X dim (j * dim) = Done S754_nan.
Proof using dim_pos X_long CB_long.
  intros Hj Hp HX. unfold vq_dist.
  destruct (load_in_bounds X 0 ltac:(lia)) as [x0 Hx0]. rewrite Hx0.
  destruct (load_in_bounds CB (j * dim) ltac:(pose proof (vq_index_bounds j 0); lia)) as [c0 ->].
  simpl.
  match goal with |- context [for_loop 1 dim ?b ?s] =>
    destruct (for_loop_invariant (fun (i : Z) (acc : float) => p < i -> acc = S754_nan)
                b 1 dim s dim_pos)
      as (d & -> & Hd) end.
  - intros Hp0. assert (p = 0) as -> by lia.
    assert (x0 = S754_nan) as -> by congruence. reflexivity.
  - intros i acc Hi Hacc.
    destruct (load_in_bounds X i ltac:(lia)) as [xi Hxi]. rewrite Hxi.
    destruct (load_in_bounds CB (j * dim + i) ltac:(pose proof (vq_index_bounds j i); lia)) as [ci ->].
    simpl. eexists. split; [reflexivity|]. intros Hpi.
    destruct (Z.eq_dec p i) as [->|Hne].
    + assert (xi = S754_nan) as -> by congruence.
      apply B32Algebra.add_nan_r.
    + rewrite Hacc by lia. reflexivity.
  - f_equal. apply Hd. lia.
Qed.

(** The search loop returns, with an index of the codebook. *)
Lemma vq_search_total :
  0 <= n_cb ->
  exists st,
    vq_search FLOAT_MAX CB X dim n_cb = Done st /\
    0 <= vq_minindex st /\ (1 <= n_cb -> vq_minindex st < n_cb).
Proof using dim_pos X_long CB_long.
  intros Hn. unfold vq_search.
  pose (P := fun (j : Z) (st : vq_locals) =>
    vq_pos st = j * dim /\ 0 <= vq_minindex st /\ (vq_minindex st = 0 \/ vq_minindex st < j)).
  match goal with |- context [for_loop 0 n_cb ?b ?s] =>
    destruct (for_loop_invariant P b 0 n_cb s Hn) as (st & Hrun & _ & H0 & H1) end.
  - unfold P; simpl. split; [reflexivity|]. split; [lia|now left].
  - intros j st Hj (Hpos & H0 & H1). unfold vq_step. rewrite Hpos.
    destruct (vq_dist_total j Hj) as [d ->]. simpl.
    destruct (d <? vq_mindist st)%F; (eexists; split; [reflexivity|]);
      unfold P; simpl; (split; [lia|]); split; lia.
  - exists st. split; [exact Hrun|]. split; lia.
Qed.

(** With a NaN in [X] the search keeps its initial index. *)
Lemma vq_search_nan p :
  0 <= n_cb -> 0 <= p < dim -> load X p = Done S754_nan ->
  exists st, vq_search FLOAT_MAX CB X dim n_cb = Done st /\ vq_minindex st = 0.
Proof using dim_pos X_long CB_long.
  intros Hn Hp HX. unfold vq_search.
  pose (P := fun (j : Z) (st : vq_locals) => vq_pos st = j * dim /\ vq_minindex st = 0).
  match goal with |- context [for_loop 0 n_cb ?b ?s] =>
    destruct (for_loop_invariant P b 0 n_cb s Hn) as (st & Hrun & _ & HP) end.
  - split; reflexivity.
  - intros j st Hj (Hpos & H0). unfold vq_step. rewrite Hpos.
    rewrite (vq_dist_nan j p Hj Hp HX). simpl.
    eexists. split; [reflexivity|]. split; simpl; [lia|exact H0].
  - eauto.
Qed.

(** The copy loop writes codebook vector [idx] to [Xq[0 .. dim-1]]. *)
Lemma vq_copy Xq idx :
  0 <= idx -> idx < n_cb -> dim <= Z.of_nat (length Xq) ->
  exists Xq',
    for_loop 0 dim (fun i Xq => c <- load CB (idx * dim + i) ;; store Xq i c) Xq = Done Xq' /\
    length Xq' = length Xq /\
    (forall i, 0 <= i < dim -> load Xq' i = load CB (idx * dim + i)) /\
    (forall i, dim <= i -> load Xq' i = load Xq i).
Proof using dim_pos CB_long.
  clear X_long. intros H0 H1 HXq.
  pose (P := fun (i : Z) (t : list float) =>
    length t = length Xq /\
    (forall i', 0 <= i' < i -> load t i' = load CB (idx * dim + i')) /\
    (forall i', i <= i' -> load t i' = load Xq i')).
  match goal with |- context [for_loop 0 dim ?b Xq] =>
    destruct (for_loop_invariant P b 0 dim Xq ltac:(lia)) as (Xq' & Hrun & HP) end.
  - split; [reflexivity|]. split; [intros; lia|reflexivity].
  - intros i t Hi (Lt & Ht & Ft).
    destruct (load_in_bounds CB (idx * dim + i)
                ltac:(pose proof (vq_index_bounds idx i); lia)) as [c Hc].
    rewrite Hc. simpl. rewrite store_in_bounds by lia.
    eexists. split; [reflexivity|]. split; [now rewrite length_insert|]. split.
    + intros i' Hi'. destruct (Z.eq_dec i' i) as [->|Hne].
      * rewrite load_insert_eq by lia. now rewrite Hc.
      * rewrite load_insert_ne by lia. apply Ht. lia.
    + intros i' Hi'. rewrite load_insert_ne by lia. apply Ft. lia.
  - exists Xq'. auto.
Qed.

Lemma vq_total Xq :
  1 <= n_cb -> dim <= Z.of_nat (length Xq) ->
  exists st Xq',
    vq_search FLOAT_MAX CB X dim n_cb = Done st /\
    vq FLOAT_MAX CB X dim Xq n_cb = Done (Xq', vq_minindex st) /\
    0 <= vq_minindex st < n_cb /\
    length Xq' = length Xq /\
    (forall i, 0 <= i < dim -> load Xq' i = load CB (vq_minindex st * dim + i)) /\
    (forall i, dim <= i -> load Xq' i = load Xq i).
Proof using dim_pos X_long CB_long.
  intros Hn HXq.
  destruct (vq_search_total ltac:(lia)) as (st & Hsearch & H0 & H1).
  destruct (vq_copy Xq (vq_minindex st) H0 (H1 Hn) HXq) as (Xq' & Hcopy & L & Hc & Hf).
  exists st, Xq'. split; [exact Hsearch|]. unfold vq. rewrite Hsearch. simpl.
  rewrite Hcopy. simpl. repeat split; auto.
Qed.

End VqSafety.

(** X14.  With [dim >= 1], [n_cb >= 1] and buffers at least as long as
    these sizes ask for, [vq] returns whatever the values in [X] and
    [CB] are, NaN and infinities included: the index is below [n_cb],
    [Xq[0 .. dim-1]] is the codebook vector of that index, and [Xq] is
    left as it was from [dim] on. *)
Theorem vq_safe (FLOAT_MAX : float) (CB X Xq : list float) (dim n_cb : Z) :
  1 <= dim ->
  1 <= n_cb ->
  dim <= Z.of_nat (length X) ->
  n_cb * dim <= Z.of_nat (length CB) ->
  dim <= Z.of_nat (length Xq) ->
  exists Xq' idx,
    vq FLOAT_MAX CB X dim Xq n_cb = Done (Xq', idx) /\
    0 <= idx < n_cb /\
    length Xq' = length Xq /\
    (forall i, 0 <= i < dim -> load Xq' i = load CB (idx * dim + i)) /\
    (forall i, dim <= i -> load Xq' i = load Xq i).
Proof.
  intros Hdim Hn HX HCB HXq.
  destruct (vq_total FLOAT_MAX CB X dim n_cb Hdim HX HCB Xq Hn HXq)
    as (st & Xq' & _ & Hrun & Hidx & L & Hc & Hf).
  exists Xq', (vq_minindex st). auto.
Qed.

(** [vq_safe] on buffers longer than the sizes passed, which hold an
    infinity and a NaN. *)
Lemma vq_safe_witness :
  exists Xq' idx,
    vq (S754_finite false 15777218 99)
       [B32.of_Z 0; B32.of_Z 0; B32.of_Z 3; S754_nan; B32.two] [B32.of_Z 3; S754_infinity true; B32.one] 2
       [B32.zero; B32.zero; B32.one] 2 = Done (Xq', idx) /\
    0 <= idx < 2 /\
    load Xq' 2 = Done B32.one.
Proof.
  destruct (vq_safe (S754_finite false 15777218 99)
       [B32.of_Z 0; B32.of_Z 0; B32.of_Z 3; S754_nan; B32.two] [B32.of_Z 3; S754_infinity true; B32.one]
       [B32.zero; B32.zero; B32.one] 2 2)
    as (Xq' & idx & Hrun & Hidx & _ & _ & Hf).
  - lia.
  - lia.
  - simpl. lia.
  - simpl. lia.
  - simpl. lia.
  - exists Xq', idx. split; [exact Hrun|]. split; [exact Hidx|].
    rewrite Hf by lia. reflexivity.
Defined.

(** X15.  A NaN among the [dim] entries of [X] makes every distance a NaN,
    no distance is below the running minimum, and [vq] returns index
    [0] with the first codebook vector. *)
Theorem vq_nan_input (FLOAT_MAX : float) (CB X Xq : list float) (dim n_cb p : Z) :
  1 <= dim ->
  1 <= n_cb ->
  dim <= Z.of_nat (length X) ->
  n_cb * dim <= Z.of_nat (length CB) ->
  dim <= Z.of_nat (length Xq) ->
  0 <= p < dim ->
  load X p = Done S754_nan ->
  exists Xq',
    vq FLOAT_MAX CB X dim Xq n_cb = Done (Xq', 0) /\
    forall i, 0 <= i < dim -> load Xq' i = load CB i.
Proof.
  intros Hdim Hn HX HCB HXq Hp Hnan.
  destruct (vq_search_nan FLOAT_MAX CB X dim n_cb Hdim HX HCB p ltac:(lia) Hp Hnan)
    as (st & Hsearch & Hidx).
  destruct (vq_copy CB dim n_cb Hdim HCB Xq 0 ltac:(lia) ltac:(lia) HXq)
    as (Xq' & Hcopy & _ & Hc & _).
  exists Xq'. unfold vq. rewrite Hsearch. simpl. rewrite Hidx, Hcopy. simpl.
  split; [reflexivity|]. intros i Hi. now rewrite Hc by lia.
Qed.

(** [vq_nan_input] on the input [(3, NaN)] and the codebook
    [(0, 0), (3, 4)]. *)
Lemma vq_nan_input_witness :
  exists Xq',
    vq (S754_finite false 15777218 99)
       [B32.of_Z 0; B32.of_Z 0; B32.of_Z 3; B32.of_Z 4] [B32.of_Z 3; S754_nan] 2
       [B32.one; B32.one] 2 = Done (Xq', 0) /\
    forall i, 0 <= i < 2 ->
      load Xq' i = load [B32.of_Z 0; B32.of_Z 0; B32.of_Z 3; B32.of_Z 4] i.
Proof.
  apply (vq_nan_input _ _ _ _ _ _ 1).
  - lia.
  - lia.
  - simpl. lia.
  - simpl. lia.
  - simpl. lia.
  - lia.
  - reflexivity.
Defined.

(** X16.  With [n_cb <= 0] the search loop is not entered: the index
    returned can only be [0], and the copy loop still reads
    [CB[0 .. dim-1]], which on an empty codebook is out of bounds. *)
Theorem vq_empty_codebook (FLOAT_MAX : float) (CB X Xq : list float) (dim n_cb : Z) :
  n_cb <= 0 ->
  (forall Xq' idx, vq FLOAT_MAX CB X dim Xq n_cb = Done (Xq', idx) -> idx = 0) /\
  (1 <= dim -> 1 <= Z.of_nat (length Xq) -> CB = [] ->
   vq FLOAT_MAX CB X dim Xq n_cb = OutOfBounds 0).
Proof.
  intros Hn. unfold vq, vq_search. rewrite for_loop_empty by lia. simpl. split.
  - intros Xq' idx Hrun.
    match type of Hrun with (_ <- ?loop ;; _) = _ => destruct loop end;
      simpl in Hrun; congruence.
  - intros Hdim HXq ->. rewrite for_loop_step by lia. reflexivity.
Qed.

(** [vq_empty_codebook] with [dim = 1] and no codebook entry. *)
Lemma vq_empty_codebook_witness :
  vq B32.one [] [B32.two] 1 [B32.zero] 0 = OutOfBounds 0.
Proof.
  apply (proj2 (vq_empty_codebook B32.one [] [B32.two] [B32.zero] 1 0 ltac:(lia))).
  - lia.
  - simpl. lia.
  - reflexivity.
Defined.

(** [vq] reads [X[0 .. dim-1]] and [CB[0 .. n_cb*dim-1]] only. *)
Lemma vq_same_prefix (FLOAT_MAX : float) (CB CB' X X' Xq : list float) (dim n_cb : Z) :
  1 <= dim ->
  1 <= n_cb ->
  take (Z.to_nat dim) X = take (Z.to_nat dim) X' ->
  take (Z.to_nat (n_cb * dim)) CB = take (Z.to_nat (n_cb * dim)) CB' ->
  vq FLOAT_MAX CB X dim Xq n_cb = vq FLOAT_MAX CB' X' dim Xq n_cb.
Proof.
  intros Hdim Hn EX ECB.
  assert (forall i, 0 <= i < dim -> load X i = load X' i) as HX
    by (intros i Hi; apply (load_take_eq _ _ _ _ EX); lia).
  assert (forall j i, 0 <= j < n_cb -> 0 <= i < dim ->
            load CB (j * dim + i) = load CB' (j * dim + i)) as HCB.
  { intros j i Hj Hi. apply (load_take_eq _ _ _ _ ECB).
    pose proof (vq_index_bounds dim n_cb j i Hj Hi). lia. }
  assert (forall j, 0 <= j < n_cb -> vq_dist CB X dim (j * dim) = vq_dist CB' X' dim (j * dim)) as Hdist.
  { intros j Hj. unfold vq_dist.
    rewrite (HX 0) by lia. pose proof (HCB j 0 Hj ltac:(lia)) as E0.
    rewrite Z.add_0_r in E0. rewrite E0.
    destruct (load X' 0); simpl; try reflexivity.
    destruct (load CB' (j * dim)); simpl; try reflexivity.
    apply (for_loop_ext (fun _ _ => True)); [exact I|].
    intros i acc Hi _. split; [|auto].
    rewrite (HX i) by lia. rewrite (HCB j i Hj) by lia. reflexivity. }
  pose (P := fun (j : Z) (st : vq_locals) =>
    vq_pos st = j * dim /\ 0 <= vq_minindex st /\ (vq_minindex st = 0 \/ vq_minindex st < j)).
  assert (forall j st, 0 <= j < n_cb -> P j st ->
            vq_step CB X dim j st = vq_step CB' X' dim j st /\
            forall st', vq_step CB X dim j st = Done st' -> P (j + 1) st') as Hstep.
  { intros j st Hj (Hpos & H0 & H1). unfold vq_step. rewrite Hpos, Hdist by exact Hj.
    split; [reflexivity|]. intros st'.
    destruct (vq_dist CB' X' dim (j * dim)) as [d| |]; simpl; try discriminate.
    destruct (d <? vq_mindist st)%F; intros [= <-]; unfold P; simpl;
      (split; [lia|]); split; lia. }
  assert (P 0 {| vq_pos := 0; vq_mindist := FLOAT_MAX; vq_minindex := 0 |}) as Hinit
    by (unfold P; simpl; lia).
  set (s0 := {| vq_pos := 0; vq_mindist := FLOAT_MAX; vq_minindex := 0 |}) in *.
  unfold vq, vq_search. fold s0.
  rewrite <- (for_loop_ext P (vq_step CB X dim) (vq_step CB' X' dim) 0 n_cb s0 Hinit Hstep).
  destruct (for_loop 0 n_cb (vq_step CB X dim) s0) as [st| |] eqn:Hsearch; simpl; try reflexivity.
  assert (P n_cb st) as (_ & H0 & H1).
  { apply (for_loop_partial P (vq_step CB X dim) 0 n_cb s0 st); auto; [lia|].
    intros j t t' Hj HP Ht. now apply (Hstep j t Hj HP). }
  f_equal.
  apply (for_loop_ext (fun _ _ => True)); [exact I|].
  intros i t Hi _. split; [|auto].
  rewrite (HCB (vq_minindex st) i) by lia. reflexivity.
Qed.

(** X17.  For [dim >= 1] and [n_cb >= 1], [vq] reads [X[0 .. dim-1]] and
    [CB[0 .. n_cb*dim-1]] only: buffers that agree on these entries
    give the same result, faults included. *)
Theorem vq_reads_prefix (FLOAT_MAX : float) (CB CB' X X' Xq : list float) (dim n_cb : Z) :
  1 <= dim ->
  1 <= n_cb ->
  take (Z.to_nat dim) X = take (Z.to_nat dim) X' ->
  take (Z.to_nat (n_cb * dim)) CB = take (Z.to_nat (n_cb * dim)) CB' ->
  vq FLOAT_MAX CB X dim Xq n_cb = vq FLOAT_MAX CB' X' dim Xq n_cb.
Proof. apply vq_same_prefix. Qed.

(** [vq_reads_prefix] with [dim = 1] and [n_cb = 2] on buffers that
    differ after these entries. *)
Lemma vq_reads_prefix_witness :
  vq B32.one [B32.zero; B32.two; B32.two] [B32.one; B32.two] 1 [B32.zero] 2
  = vq B32.one [B32.zero; B32.two] [B32.one] 1 [B32.zero] 2.
Proof.
  apply vq_reads_prefix.
  - lia.
  - lia.
  - reflexivity.
  - reflexivity.
Defined.

(** ** Split vector quantization *)

Section IntBuffers.

Implicit Types (buf : list Z) (i j v : Z).

Lemma load_int_Done_inv buf i v :
  load_int buf i = Done v -> 0 <= i < Z.of_nat (length buf) /\ buf !! Z.to_nat i = Some v.
Proof.
  unfold load_int. destruct (Z.ltb_spec i 0); [discriminate|].
  destruct (buf !! Z.to_nat i) eqn:E; [|discriminate].
  intros [= ->]. split; [|reflexivity].
  apply lookup_lt_Some in E. lia.
Qed.

Lemma load_int_in_bounds buf i :
  0 <= i < Z.of_nat (length buf) -> exists v, load_int buf i = Done v.
Proof.
  intros H. unfold load_int. destruct (Z.ltb_spec i 0); [lia|].
  destruct (lookup_lt_is_Some_2 buf (Z.to_nat i)) as [v ->]; [lia|].
  eauto.
Qed.

Lemma store_int_in_bounds buf i v :
  0 <= i < Z.of_nat (length buf) -> store_int buf i v = Done (<[Z.to_nat i := v]> buf).
Proof.
  intros H. unfold store_int.
  destruct (Z.leb_spec 0 i); [|lia].
  destruct (Z.ltb_spec i (Z.of_nat (length buf))); [reflexivity|lia].
Qed.

Lemma load_int_insert_eq buf i v :
  0 <= i < Z.of_nat (length buf) -> load_int (<[Z.to_nat i := v]> buf) i = Done v.
Proof.
  intros H. unfold load_int. destruct (Z.ltb_spec i 0); [lia|].
  rewrite list_lookup_insert_eq; [reflexivity|lia].
Qed.

Lemma load_int_insert_ne buf i j v :
  0 <= i -> i <> j -> load_int (<[Z.to_nat i := v]> buf) j = load_int buf j.
Proof.
  intros H Hne. unfold load_int. destruct (Z.ltb_spec j 0); [reflexivity|].
  rewrite list_lookup_insert_ne; [reflexivity|lia].
Qed.

End IntBuffers.

(** *** Offsets into a buffer *)

Lemma load_drop_view (buf : list float) n i :
  0 <= i -> Z.of_nat n + i < Z.of_nat (length buf) ->
  load (drop n buf) i = load buf (Z.of_nat n + i).
Proof.
  intros Hi Hb.
  destruct (load_in_bounds buf (Z.of_nat n + i) ltac:(lia)) as [v Hv]. rewrite Hv.
  apply load_Done_inv in Hv as [_ Hv]. unfold load.
  destruct (Z.ltb_spec i 0); [lia|].
  rewrite lookup_drop. replace (n + Z.to_nat i)%nat with (Z.to_nat (Z.of_nat n + i)) by lia.
  now rewrite Hv.
Qed.

Lemma offset_in_bounds (buf : list float) off :
  0 <= off <= Z.of_nat (length buf) -> offset buf off = Done (drop (Z.to_nat off) buf).
Proof.
  intros H. unfold offset.
  destruct (Z.leb_spec 0 off); [|lia].
  destruct (Z.leb_spec off (Z.of_nat (length buf))); [reflexivity|lia].
Qed.

Lemma write_back_length (buf part : list float) off :
  0 <= off <= Z.of_nat (length buf) ->
  length part = length (drop (Z.to_nat off) buf) ->
  length (write_back buf off part) = length buf.
Proof.
  intros H L. unfold write_back.
  rewrite length_app, length_take, L, length_drop. lia.
Qed.

Lemma load_write_back_low (buf part : list float) off j :
  0 <= off <= Z.of_nat (length buf) -> j < off ->
  load (write_back buf off part) j = load buf j.
Proof.
  intros H Hj. unfold write_back, load. destruct (Z.ltb_spec j 0); [reflexivity|].
  rewrite lookup_app_l by (rewrite length_take; lia).
  rewrite lookup_take_lt by lia. reflexivity.
Qed.

Lemma load_write_back_high (buf part : list float) off t :
  0 <= off <= Z.of_nat (length buf) -> 0 <= t < Z.of_nat (length part) ->
  load (write_back buf off part) (off + t) = load part t.
Proof.
  intros H Ht.
  destruct (load_in_bounds part t Ht) as [v Hv]. rewrite Hv.
  apply load_Done_inv in Hv as [_ Hv]. unfold write_back, load.
  destruct (Z.ltb_spec (off + t) 0); [lia|].
  rewrite lookup_app_r by (rewrite length_take; lia).
  rewrite length_take.
  replace (Z.to_nat (off + t) - Z.to_nat off `min` length buf)%nat with (Z.to_nat t) by lia.
  now rewrite Hv.
Qed.

(** *** The running offsets *)

Lemma foldr_add_app (l1 l2 : list Z) :
  foldr Z.add 0 (l1 ++ l2) = foldr Z.add 0 l1 + foldr Z.add 0 l2.
Proof. induction l1 as [|a l1 IH]; simpl; lia. Qed.

Lemma foldr_add_nonneg (l : list Z) :
  Forall (fun v => 0 <= v) l -> 0 <= foldr Z.add 0 l.
Proof. induction 1; simpl; lia. Qed.

Lemma sum_take_next (l : list Z) i v :
  0 <= i -> l !! Z.to_nat i = Some v ->
  foldr Z.add 0 (take (Z.to_nat (i + 1)) l) = foldr Z.add 0 (take (Z.to_nat i) l) + v.
Proof.
  intros Hi Hv. replace (Z.to_nat (i + 1)) with (Datatypes.S (Z.to_nat i)) by lia.
  rewrite (take_S_r _ _ _ Hv), foldr_add_app. simpl. lia.
Qed.

Lemma sum_take_le (l : list Z) i v :
  Forall (fun v => 0 <= v) l -> 0 <= i -> l !! Z.to_nat i = Some v ->
  foldr Z.add 0 (take (Z.to_nat i) l) + v <= foldr Z.add 0 l.
Proof.
  intros Hl Hi Hv.
  rewrite <- (take_drop (Z.to_nat i) l) at 2. rewrite foldr_add_app.
  rewrite (drop_S _ _ _ Hv). simpl.
  pose proof (foldr_add_nonneg (drop (Datatypes.S (Z.to_nat i)) l)
                (Forall_drop _ _ _ Hl)).
  lia.
Qed.

Lemma load_eq_lookup (l1 l2 : list float) j :
  length l1 = length l2 -> 0 <= j -> load l1 j = load l2 j ->
  l1 !! Z.to_nat j = l2 !! Z.to_nat j.
Proof.
  intros L Hj E. destruct (Z.lt_ge_cases j (Z.of_nat (length l1))) as [Hlt|Hge].
  - destruct (load_in_bounds l1 j ltac:(lia)) as [v Hv].
    pose proof Hv as Hv'. rewrite E in Hv'.
    apply load_Done_inv in Hv as [_ ->]. apply load_Done_inv in Hv' as [_ ->]. reflexivity.
  - rewrite !lookup_ge_None_2 by lia. reflexivity.
Qed.

Lemma drop_agree (l1 l2 : list float) off :
  length l1 = length l2 -> 0 <= off ->
  (forall j, off <= j -> load l1 j = load l2 j) ->
  drop (Z.to_nat off) l1 = drop (Z.to_nat off) l2.
Proof.
  intros L Hoff H. apply list_eq. intros k. rewrite !lookup_drop.
  replace (Z.to_nat off + k)%nat with (Z.to_nat (off + Z.of_nat k)) by lia.
  apply load_eq_lookup; [exact L|lia|]. apply H. lia.
Qed.

Lemma forallb_load_int (f : Z -> bool) (l : list Z) i v :
  forallb f l = true -> load_int l i = Done v -> f v = true.
Proof.
  intros H [_ Hv]%load_int_Done_inv. rewrite forallb_forall in H.
  apply H, list_elem_of_In, list_elem_of_lookup. eauto.
Qed.

Section SplitVqFacts.

Variable FLOAT_MAX : float.
Variables X CB qX : list float.
Variables index dim cbsize : list Z.
Variable nsplit : Z.
Hypothesis nsplit_nonneg : 0 <= nsplit.
Hypothesis dim_length : Z.of_nat (length dim) = nsplit.
Hypothesis cbsize_length : Z.of_nat (length cbsize) = nsplit.
Hypothesis dim_pos : forallb (Z.leb 1) dim = true.
Hypothesis cbsize_pos : forallb (Z.leb 1) cbsize = true.
Hypothesis X_long : X_pos_at dim nsplit <= Z.of_nat (length X).
Hypothesis qX_long : X_pos_at dim nsplit <= Z.of_nat (length qX).
Hypothesis CB_long : cb_pos_at dim cbsize nsplit <= Z.of_nat (length CB).
Hypothesis index_long : nsplit <= Z.of_nat (length index).

(** The sizes of split [i] and the offsets around it. *)
Lemma split_sizes i :
  0 <= i < nsplit ->
  exists d n,
    load_int dim i = Done d /\ load_int cbsize i = Done n /\ 1 <= d /\ 1 <= n /\
    X_pos_at dim (i + 1) = X_pos_at dim i + d /\
    cb_pos_at dim cbsize (i + 1) = cb_pos_at dim cbsize i + d * n /\
    0 <= X_pos_at dim i /\ X_pos_at dim i + d <= X_pos_at dim nsplit /\
    0 <= cb_pos_at dim cbsize i /\
    cb_pos_at dim cbsize i + d * n <= cb_pos_at dim cbsize nsplit.
Proof using nsplit_nonneg dim_length cbsize_length dim_pos cbsize_pos.
  clear X_long qX_long CB_long index_long. intros Hi.
  destruct (load_int_in_bounds dim i ltac:(lia)) as [d Hd].
  destruct (load_int_in_bounds cbsize i ltac:(lia)) as [n Hn].
  pose proof (forallb_load_int _ _ _ _ dim_pos Hd) as Hd1. apply Z.leb_le in Hd1.
  pose proof (forallb_load_int _ _ _ _ cbsize_pos Hn) as Hn1. apply Z.leb_le in Hn1.
  exists d, n. split; [exact Hd|]. split; [exact Hn|]. split; [exact Hd1|]. split; [exact Hn1|].
  apply load_int_Done_inv in Hd as [_ Hd]. apply load_int_Done_inv in Hn as [_ Hn].
  assert (zip_with Z.mul dim cbsize !! Z.to_nat i = Some (d * n)) as Hp.
  { apply lookup_zip_with_Some. eauto. }
  assert (Forall (fun v => 0 <= v) dim) as Fd.
  { apply Forall_forall. intros v Hv. rewrite forallb_forall in dim_pos.
    apply list_elem_of_In, dim_pos, Z.leb_le in Hv. lia. }
  assert (Forall (fun v => 0 <= v) (zip_with Z.mul dim cbsize)) as Fp.
  { apply Forall_lookup. intros k v Hv.
    apply lookup_zip_with_Some in Hv as (a & b & -> & Ha & Hb).
    rewrite forallb_forall in dim_pos, cbsize_pos.
    assert (1 <= a) by (apply Z.leb_le, dim_pos, list_elem_of_In, list_elem_of_lookup; eauto).
    assert (1 <= b) by (apply Z.leb_le, cbsize_pos, list_elem_of_In, list_elem_of_lookup; eauto).
    nia. }
  unfold X_pos_at, cb_pos_at.
  rewrite (take_ge dim (Z.to_nat nsplit)) by lia.
  rewrite (take_ge (zip_with Z.mul dim cbsize) (Z.to_nat nsplit))
    by (rewrite length_zip_with; lia).
  split; [apply sum_take_next; [lia|exact Hd]|].
  split; [apply sum_take_next; [lia|exact Hp]|].
  split; [apply foldr_add_nonneg, Forall_take, Fd|].
  split; [apply sum_take_le; [exact Fd|lia|exact Hd]|].
  split; [apply foldr_add_nonneg, Forall_take, Fp|].
  apply sum_take_le; [exact Fp|lia|exact Hp].
Qed.

Lemma SplitVQ_step_spec i st :
  0 <= i < nsplit -> split_invariant FLOAT_MAX X CB qX index dim cbsize i st ->
  exists st', SplitVQ_step FLOAT_MAX X CB dim cbsize i st = Done st' /\
              split_invariant FLOAT_MAX X CB qX index dim cbsize (i + 1) st'.
Proof using nsplit_nonneg dim_length cbsize_length dim_pos cbsize_pos X_long qX_long CB_long index_long.
  intros Hi (HX & HC & Lq & Li & Fq & Fi & Hseg).
  destruct (split_sizes i Hi)
    as (d & n & Hd & Hn & Hd1 & Hn1 & HXn & HCn & HX0 & HXt & HC0 & HCt).
  set (xp := X_pos_at dim i) in *. set (cp := cb_pos_at dim cbsize i) in *.
  unfold SplitVQ_step. rewrite HX, HC.
  rewrite !offset_in_bounds by lia. simpl. rewrite Hn; simpl. rewrite Hd; simpl.
  assert (drop (Z.to_nat xp) (sv_qX st) = drop (Z.to_nat xp) qX) as Eview
    by (apply drop_agree; auto).
  destruct (vq_total FLOAT_MAX (drop (Z.to_nat cp) CB) (drop (Z.to_nat xp) X) d n Hd1
              ltac:(rewrite length_drop; lia) ltac:(rewrite length_drop; nia)
              (drop (Z.to_nat xp) (sv_qX st)) Hn1 ltac:(rewrite length_drop; lia))
    as (s & Xq & _ & Hvq & Hidx & LXq & Hcopy & Hrest).
  rewrite Hvq. simpl. rewrite store_int_in_bounds by lia. simpl.
  eexists. split; [reflexivity|]. unfold split_invariant; simpl.
  assert (Z.of_nat (length Xq) = Z.of_nat (length qX) - xp) as LXq'
    by (rewrite LXq, length_drop; lia).
  split; [lia|]. split; [lia|].
  split; [rewrite write_back_length; [exact Lq|lia|exact LXq]|].
  split; [rewrite length_insert; exact Li|]. split; [|split].
  - intros j Hj. rewrite HXn in Hj.
    destruct (Z.lt_ge_cases j (Z.of_nat (length qX))) as [Hlt|Hge].
    + replace j with (xp + (j - xp)) at 1 by lia.
      rewrite load_write_back_high by lia.
      rewrite Hrest by lia. rewrite load_drop_view by lia.
      replace (Z.of_nat (Z.to_nat xp) + (j - xp)) with j by lia.
      apply Fq. lia.
    + rewrite !load_out_of_bounds; [reflexivity|lia|].
      rewrite write_back_length; [lia|lia|exact LXq].
  - intros j Hj. rewrite load_int_insert_ne by lia. apply Fi. lia.
  - intros i' d' n' Hi' Hd' Hn'. destruct (Z.eq_dec i' i) as [->|Hne].
    + assert (d' = d) as -> by congruence. assert (n' = n) as -> by congruence.
      fold xp cp. split; [lia|]. exists Xq, (vq_minindex s).
      split; [|split; [exact Hidx|]].
      { rewrite <- Eview, <- Hvq. symmetry.
        apply vq_same_prefix; [exact Hd1|exact Hn1| |]; now rewrite take_idemp. }
      split; [apply load_int_insert_eq; lia|].
      intros t Ht. apply load_write_back_high; lia.
    + destruct (Hseg i' d' n' ltac:(lia) Hd' Hn') as (Hend & Xq' & idx' & Hvq' & Hidx' & Hld & Hout).
      split; [lia|]. exists Xq', idx'. split; [exact Hvq'|]. split; [exact Hidx'|].
      split; [rewrite load_int_insert_ne by lia; exact Hld|].
      intros t Ht. rewrite load_write_back_low by lia. apply Hout, Ht.
Qed.

End SplitVqFacts.

(** X18.  With [nsplit] splits of sizes [dim[i] >= 1] and codebooks of
    [cbsize[i] >= 1] vectors, and buffers that hold the sums of these
    sizes, [SplitVQ] returns; split [i] starts at the sum of the sizes
    before it, and [index[i]] and the [dim[i]] entries of [qX] from
    there are what [vq] returns on the piece of [X] and on the codebook
    of that split alone.  [qX] after the last split and [index] from
    [nsplit] on are left as they were. *)
Theorem SplitVQ_spec (FLOAT_MAX : float) (qX : list float) (index : list Z)
    (X CB : list float) (nsplit : Z) (dim cbsize : list Z) :
  0 <= nsplit ->
  Z.of_nat (length dim) = nsplit ->
  Z.of_nat (length cbsize) = nsplit ->
  forallb (Z.leb 1) dim = true ->
  forallb (Z.leb 1) cbsize = true ->
  X_pos_at dim nsplit <= Z.of_nat (length X) ->
  X_pos_at dim nsplit <= Z.of_nat (length qX) ->
  cb_pos_at dim cbsize nsplit <= Z.of_nat (length CB) ->
  nsplit <= Z.of_nat (length index) ->
  exists qX' index',
    SplitVQ FLOAT_MAX X CB dim cbsize qX index nsplit = Done (qX', index') /\
    length qX' = length qX /\
    length index' = length index /\
    (forall i d n, 0 <= i < nsplit -> load_int dim i = Done d -> load_int cbsize i = Done n ->
       exists Xq idx,
         vq FLOAT_MAX
            (take (Z.to_nat (n * d)) (drop (Z.to_nat (cb_pos_at dim cbsize i)) CB))
            (take (Z.to_nat d) (drop (Z.to_nat (X_pos_at dim i)) X)) d
            (drop (Z.to_nat (X_pos_at dim i)) qX) n = Done (Xq, idx) /\
         0 <= idx < n /\
         load_int index' i = Done idx /\
         forall t, 0 <= t < d -> load qX' (X_pos_at dim i + t) = load Xq t) /\
    (forall j, X_pos_at dim nsplit <= j -> load qX' j = load qX j) /\
    (forall j, nsplit <= j -> load_int index' j = load_int index j).
Proof.
  intros nsplit_nonneg Hdim Hcb Pdim Pcb HX HqX HCB Hindex. unfold SplitVQ.
  match goal with |- context [for_loop 0 nsplit ?b ?s] =>
    destruct (for_loop_invariant (split_invariant FLOAT_MAX X CB qX index dim cbsize)
                b 0 nsplit s nsplit_nonneg)
      as (st & -> & HP) end.
  - unfold split_invariant; simpl.
    split; [reflexivity|]. split; [reflexivity|]. split; [reflexivity|].
    split; [reflexivity|]. split; [reflexivity|]. split; [reflexivity|]. intros; lia.
  - intros i st Hi HP. apply (SplitVQ_step_spec FLOAT_MAX X CB qX index dim cbsize nsplit); assumption.
  - simpl. destruct HP as (_ & _ & Lq & Li & Fq & Fi & Hseg).
    exists (sv_qX st), (sv_index st). split; [reflexivity|].
    split; [exact Lq|]. split; [exact Li|]. split; [|split; [exact Fq|exact Fi]].
    intros i d n Hi Hd Hn. destruct (Hseg i d n Hi Hd Hn) as (_ & H). exact H.
Qed.

(** [SplitVQ_spec] on the input [(3, 4 | 7)] and the codebooks
    [(0, 0), (3, 4)] and [1, 2, 8], in buffers with one more entry. *)
Lemma SplitVQ_spec_witness :
  exists qX' index',
    SplitVQ (S754_finite false 15777218 99)
      [B32.of_Z 3; B32.of_Z 4; B32.of_Z 7]
      [B32.of_Z 0; B32.of_Z 0; B32.of_Z 3; B32.of_Z 4; B32.of_Z 1; B32.of_Z 2; B32.of_Z 8]
      [2; 1] [2; 3]
      [B32.zero; B32.zero; B32.zero; B32.one] [0; 0; 5] 2 = Done (qX', index') /\
    load qX' 3 = Done B32.one /\
    load_int index' 2 = Done 5.
Proof.
  destruct (SplitVQ_spec (S754_finite false 15777218 99)
      [B32.zero; B32.zero; B32.zero; B32.one] [0; 0; 5]
      [B32.of_Z 3; B32.of_Z 4; B32.of_Z 7]
      [B32.of_Z 0; B32.of_Z 0; B32.of_Z 3; B32.of_Z 4; B32.of_Z 1; B32.of_Z 2; B32.of_Z 8]
      2 [2; 1] [2; 3])
    as (qX' & index' & Hrun & _ & _ & _ & Fq & Fi).
  - lia.
  - reflexivity.
  - reflexivity.
  - reflexivity.
  - reflexivity.
  - unfold X_pos_at. simpl. lia.
  - unfold X_pos_at. simpl. lia.
  - unfold cb_pos_at. simpl. lia.
  - simpl. lia.
  - exists qX', index'. split; [exact Hrun|]. split.
    + rewrite Fq by (unfold X_pos_at; simpl; lia). reflexivity.
    + rewrite Fi by lia. reflexivity.
Defined.

(** The split quantizer at work: [(3, 4 | 7)] against the codebooks
    [(0, 0), (3, 4)] and [1, 2, 8]. *)
Example SplitVQ_demo :
  SplitVQ (S754_finite false 15777218 99)
    [B32.of_Z 3; B32.of_Z 4; B32.of_Z 7]
    [B32.of_Z 0; B32.of_Z 0; B32.of_Z 3; B32.of_Z 4; B32.of_Z 1; B32.of_Z 2; B32.of_Z 8]
    [2; 1] [2; 3]
    [B32.zero; B32.zero; B32.zero] [0; 0] 2
  = Done ([B32.of_Z 3; B32.of_Z 4; B32.of_Z 8], [1; 2]).
Proof. vm_compute. reflexivity. Qed.

(** ** Scalar quantization, continued *)

(** In an ascending codebook an earlier entry is not above a later
    one. *)
Lemma ascending_le cb i j a b :
  ascending cb = true ->
  i < j -> load cb i = Done a -> load cb j = Done b -> (a <=? b)%F = true.
Proof.
  intros Hs Hij Ha Hb.
  destruct (load_Done_inv _ _ _ Ha) as [Hi _].
  destruct (load_Done_inv _ _ _ Hb) as [Hj _].
  assert (forall n, let k := i + 1 + Z.of_nat n in
            forall c, load cb k = Done c -> (a <=? c)%F = true) as H.
  { induction n as [|n IH]; intros k c Hc.
    - apply (sorted_by_adjacent _ cb i); auto. unfold k in Hc.
      now replace (i + 1 + Z.of_nat 0) with (i + 1) in Hc by lia.
    - destruct (load_Done_inv _ _ _ Hc) as [Hk _]. unfold k in *.
      destruct (load_in_bounds cb (i + 1 + Z.of_nat n) ltac:(lia)) as [d Hd].
      apply (B32Facts.leb_trans _ d); [apply IH; exact Hd|].
      apply (sorted_by_adjacent _ cb (i + 1 + Z.of_nat n)); auto.
      now replace (i + 1 + Z.of_nat n + 1) with (i + 1 + Z.of_nat (Datatypes.S n)) by lia. }
  apply (H (Z.to_nat (j - i - 1))).
  now replace (i + 1 + Z.of_nat (Z.to_nat (j - i - 1))) with j by lia.
Qed.

(** An ascending codebook of two entries or more holds numbers. *)
Lemma ascending_numbers cb i a :
  ascending cb = true -> 2 <= Z.of_nat (length cb) ->
  load cb i = Done a -> B32.is_nan a = false.
Proof.
  intros Hs Hlen Ha. destruct (load_Done_inv _ _ _ Ha) as [Hi _].
  destruct (Z.eq_dec i 0) as [->|Hne].
  - destruct (load_in_bounds cb 1 ltac:(lia)) as [b Hb].
    apply (B32Facts.leb_not_nan a b), (ascending_le cb 0 1); auto. lia.
  - destruct (load_in_bounds cb 0 ltac:(lia)) as [b Hb].
    apply (B32Facts.leb_not_nan b a), (ascending_le cb 0 i); auto. lia.
Qed.

Lemma ascending_le_eq cb i j a b :
  ascending cb = true -> 2 <= Z.of_nat (length cb) ->
  i <= j -> load cb i = Done a -> load cb j = Done b -> (a <=? b)%F = true.
Proof.
  intros Hs Hlen Hij Ha Hb. destruct (Z.eq_dec i j) as [->|Hne].
  - assert (b = a) as -> by congruence.
    apply B32Facts.leb_refl, (ascending_numbers cb j); auto.
  - apply (ascending_le cb i j); auto. lia.
Qed.

Section SortSqResult.

Variable cb : list float.
Variable cb_size : Z.
Hypothesis cb_size_two : 2 <= cb_size.
Hypothesis cb_length : Z.of_nat (length cb) = cb_size.
Hypothesis cb_ascending : ascending cb = true.

(** What [sort_sq] returns for a number [x]: the pair for [cb[0]] when
    [x <= cb[0]], and otherwise the stop [i] of the scan with the pair
    that the midpoint test chooses. *)
Lemma sort_sq_cases x :
  B32.is_nan x = false ->
  exists c0, load cb 0 = Done c0 /\
  (((x <=? c0)%F = true /\ sort_sq x cb cb_size = Done (c0, 0)) \/
   ((c0 <? x)%F = true /\
    exists i ci cj,
      1 <= i <= cb_size - 1 /\
      load cb i = Done ci /\
      load cb (i - 1) = Done cj /\
      (forall j c, 0 <= j < i -> load cb j = Done c -> (c <? x)%F = true) /\
      ((x >? ci)%F = false \/ i = cb_size - 1) /\
      sort_sq x cb cb_size =
        Done (if (x >? midpoint ci cj)%F then (ci, i) else (cj, i - 1)))).
Proof using cb_size_two cb_length cb_ascending.
  intros Hx.
  destruct (load_in_bounds cb 0 ltac:(lia)) as [c0 H0].
  exists c0. split; [exact H0|].
  destruct (x <=? c0)%F eqn:Hle.
  - left. split; [reflexivity|]. now apply sort_sq_low.
  - right.
    assert ((c0 <? x)%F = true) as Hlt.
    { apply B32Facts.not_leb_ltb; auto. apply (ascending_numbers cb 0); auto. lia. }
    split; [exact Hlt|]. apply (sort_sq_high x cb cb_size cb_length c0); auto.
Qed.

Lemma sort_sq_in_codebook_run x :
  B32.is_nan x = false ->
  exists xq idx,
    sort_sq x cb cb_size = Done (xq, idx) /\
    0 <= idx <= cb_size - 1 /\
    load cb idx = Done xq.
Proof using cb_size_two cb_length cb_ascending.
  intros Hx.
  destruct (sort_sq_cases x Hx) as (c0 & H0 & [(_ & Hrun)|(_ & i & ci & cj & Hi & Hci & Hcj & _ & _ & Hrun)]).
  - exists c0, 0. split; [exact Hrun|]. split; [lia|exact H0].
  - rewrite Hrun. destruct (x >? midpoint ci cj)%F.
    + exists ci, i. split; [reflexivity|]. split; [lia|exact Hci].
    + exists cj, (i - 1). split; [reflexivity|]. split; [lia|exact Hcj].
Qed.

End SortSqResult.

(** X19.  On an ascending codebook of [cb_size >= 2] entries and a number
    [x], the index returned lies in [0 .. cb_size-1] and the value
    returned is the codebook entry at that index. *)
Theorem sort_sq_in_codebook (x : float) (cb : list float) (cb_size : Z) :
  2 <= cb_size ->
  Z.of_nat (length cb) = cb_size ->
  ascending cb = true ->
  B32.is_nan x = false ->
  exists xq idx,
    sort_sq x cb cb_size = Done (xq, idx) /\
    0 <= idx <= cb_size - 1 /\
    load cb idx = Done xq.
Proof. intros. now apply sort_sq_in_codebook_run. Qed.

(** [sort_sq_in_codebook] on the codebook [0, 4, 8] with [x = 5]. *)
Lemma sort_sq_in_codebook_witness :
  exists xq idx,
    sort_sq (B32.of_Z 5) [B32.of_Z 0; B32.of_Z 4; B32.of_Z 8] 3 = Done (xq, idx) /\
    0 <= idx <= 3 - 1 /\
    load [B32.of_Z 0; B32.of_Z 4; B32.of_Z 8] idx = Done xq.
Proof.
  apply sort_sq_in_codebook.
  - lia.
  - reflexivity.
  - reflexivity.
  - reflexivity.
Defined.

(** X20.  The scalar quantizer is monotone: on an ascending codebook of
    [cb_size >= 2] entries, [x <= y] gives an index for [x] that is at
    most the index for [y], and a value that is at most the value
    for [y]. *)
Theorem sort_sq_monotone (x y : float) (cb : list float) (cb_size : Z) :
  2 <= cb_size ->
  Z.of_nat (length cb) = cb_size ->
  ascending cb = true ->
  (x <=? y)%F = true ->
  exists xq i yq j,
    sort_sq x cb cb_size = Done (xq, i) /\
    sort_sq y cb cb_size = Done (yq, j) /\
    i <= j /\ (xq <=? yq)%F = true.
Proof.
  intros cb_size_two cb_length cb_ascending Hxy. destruct (B32Facts.leb_not_nan _ _ Hxy) as [Hx Hy].
  destruct (sort_sq_in_codebook_run cb cb_size cb_size_two cb_length cb_ascending x Hx) as (xq & i & Hrx & Hi & Hxq).
  destruct (sort_sq_in_codebook_run cb cb_size cb_size_two cb_length cb_ascending y Hy) as (yq & j & Hry & Hj & Hyq).
  exists xq, i, yq, j. split; [exact Hrx|]. split; [exact Hry|].
  assert (i <= j) as Hij.
  { destruct (sort_sq_cases cb cb_size cb_size_two cb_length cb_ascending x Hx) as (c0 & H0 & [(_ & Hx0)|(Hcx & ix & ci & cj & Hix & Hci & Hcj & Hbelow & Hstop & Hx1)]).
    { rewrite Hx0 in Hrx. injection Hrx as <- <-. lia. }
    destruct (sort_sq_cases cb cb_size cb_size_two cb_length cb_ascending y Hy) as (c0' & H0' & [(Hle & _)|(_ & iy & di & dj & Hiy & Hdi & Hdj & Hbelow' & Hstop' & Hy1)]).
    { assert (c0' = c0) as -> by congruence.
      pose proof (B32Facts.ltb_leb_trans _ _ _ Hcx Hxy) as Hlt.
      rewrite (B32Facts.ltb_asym _ _ Hlt) in Hle. discriminate. }
    assert (ix <= iy) as Hscan.
    { destruct (Z.le_gt_cases ix iy) as [|Hgt]; [assumption|].
      pose proof (Hbelow iy di ltac:(lia) Hdi) as Hlt.
      pose proof (B32Facts.ltb_leb_trans _ _ _ Hlt Hxy) as Hlt'.
      destruct Hstop' as [Hs|Hs]; [congruence|lia]. }
    rewrite Hx1 in Hrx. rewrite Hy1 in Hry.
    destruct (Z.eq_dec ix iy) as [->|Hne].
    - assert (di = ci) as -> by congruence. assert (dj = cj) as -> by congruence.
      destruct (x >? midpoint ci cj)%F eqn:Hmx.
      + rewrite (B32Facts.ltb_leb_trans _ _ _ Hmx Hxy) in Hry.
        injection Hrx as <- <-. injection Hry as <- <-. lia.
      + injection Hrx as <- <-.
        destruct (y >? midpoint ci cj)%F; injection Hry as <- <-; lia.
    - destruct (x >? midpoint ci cj)%F; injection Hrx as <- <-;
        destruct (y >? midpoint di dj)%F; injection Hry as <- <-; lia. }
  split; [exact Hij|].
  apply (ascending_le_eq cb i j); auto. lia.
Qed.

(** [sort_sq_monotone] on the codebook [0, 4, 8] with [x = 1] and
    [y = 7]. *)
Lemma sort_sq_monotone_witness :
  exists xq i yq j,
    sort_sq (B32.of_Z 1) [B32.of_Z 0; B32.of_Z 4; B32.of_Z 8] 3 = Done (xq, i) /\
    sort_sq (B32.of_Z 7) [B32.of_Z 0; B32.of_Z 4; B32.of_Z 8] 3 = Done (yq, j) /\
    i <= j /\ (xq <=? yq)%F = true.
Proof.
  apply sort_sq_monotone.
  - lia.
  - reflexivity.
  - reflexivity.
  - reflexivity.
Defined.

(** X21.  When [x] or [cb[0]] is a NaN both comparisons with [cb[0]] fail,
    the scan stops at [i = 0], and the midpoint reads [cb[-1]]: the
    quantizer accesses the codebook out of bounds, whatever
    [cb_size]. *)
Theorem sort_sq_nan (x : float) (cb : list float) (cb_size : Z) (c0 : float) :
  load cb 0 = Done c0 ->
  B32.is_nan x = true \/ B32.is_nan c0 = true ->
  sort_sq x cb cb_size = OutOfBounds (-1).
Proof.
  intros H0 Hnan. unfold sort_sq. rewrite H0. simpl.
  assert ((x <=? c0)%F = false /\ (x >? c0)%F = false) as [-> Hgt].
  { destruct Hnan as [E|E]; apply B32Algebra.is_nan_eq in E; subst; split;
      try reflexivity; try apply B32Algebra.ltb_nan_r.
    now destruct x as [[]|[]| |[]]. }
  destruct (Z.to_nat cb_size); simpl; rewrite H0; simpl; rewrite Hgt; simpl;
    rewrite H0; reflexivity.
Qed.

(** [sort_sq_nan] on the codebook [0, 4, 8] with a NaN for [x]. *)
Lemma sort_sq_nan_witness :
  sort_sq S754_nan [B32.of_Z 0; B32.of_Z 4; B32.of_Z 8] 3 = OutOfBounds (-1).
Proof.
  apply (sort_sq_nan _ _ _ (B32.of_Z 0)).
  - reflexivity.
  - left. reflexivity.
Defined.

(** ** The stability guard, continued *)

Section LsfStable.

Import Lsf.

Lemma flag_sticky pos st st' : guarded_step pos st st' -> change st = 1 -> change st' = 1.
Proof. intros G H. destruct (step_flag _ _ _ G) as [->|[H' _]]; assumption. Qed.

(** Where the three tests pass, the body of the inner loop does
    nothing. *)
Lemma check_pos_pass pos st lo hi :
  load (lsf st) pos = Done lo -> load (lsf st) (pos + 1) = Done hi ->
  passes lo hi = true ->
  check_pos pos st = Done st.
Proof.
  intros Hlo Hhi Hp. unfold passes, separated in Hp.
  apply andb_prop in Hp as [Hp Hmax]. apply andb_prop in Hp as [Hsep Hmin].
  apply negb_true_iff in Hsep, Hmin, Hmax.
  unfold check_pos, separate. rewrite Hhi; simpl. rewrite Hlo; simpl. rewrite Hsep. simpl.
  unfold clamp_min. rewrite Hlo; simpl. rewrite Hmin. simpl.
  unfold clamp_max. rewrite Hlo; simpl. rewrite Hmax. reflexivity.
Qed.

(** Where one of them fails, it raises the flag. *)
Lemma check_pos_repair pos st lo hi :
  0 <= pos ->
  load (lsf st) pos = Done lo -> load (lsf st) (pos + 1) = Done hi ->
  passes lo hi = false ->
  exists st', check_pos pos st = Done st' /\ change st' = 1.
Proof.
  intros H0 Hlo Hhi Hp.
  destruct (load_Done_inv _ _ _ Hhi) as [Hb _].
  destruct (separate_spec pos st H0 ltac:(lia)) as (st1 & Hs1 & G1 & _).
  pose proof (step_length _ _ _ G1) as L1.
  destruct (clamp_min_spec pos st1 H0 ltac:(lia)) as (st2 & v2 & Hs2 & G2 & _).
  pose proof (step_length _ _ _ G2) as L2.
  assert (exists st3, clamp_max pos st2 = Done st3 /\ guarded_step pos st2 st3)
    as (st3 & Hs3 & G3).
  { unfold clamp_max. destruct (load_in_bounds (lsf st2) pos ltac:(lia)) as [v Hv].
    rewrite Hv; simpl. destruct (v >? maxlsf)%F.
    - rewrite store_in_bounds by lia. simpl. eexists. split; [reflexivity|].
      split; simpl.
      + apply length_insert.
      + intros j Hj Hj'. apply load_insert_ne; lia.
      + right. split; [reflexivity|]. eexists; split; [|reflexivity]. discriminate.
    - exists st2. split; [reflexivity|apply guarded_step_refl]. }
  exists st3. unfold check_pos. rewrite Hs1; simpl. rewrite Hs2; simpl.
  split; [exact Hs3|].
  unfold passes, separated in Hp.
  unfold separate in Hs1. rewrite Hhi in Hs1; simpl in Hs1. rewrite Hlo in Hs1; simpl in Hs1.
  destruct (hi - lo <? eps)%F eqn:Hsep.
  { apply (flag_sticky _ _ _ G3), (flag_sticky _ _ _ G2).
    destruct (if (hi <? lo)%F then _ else _) as [l| |]; simpl in Hs1; try discriminate.
    injection Hs1 as <-. reflexivity. }
  injection Hs1 as <-.
  unfold clamp_min in Hs2. rewrite Hlo in Hs2; simpl in Hs2.
  destruct (lo <? minlsf)%F eqn:Hmin.
  { apply (flag_sticky _ _ _ G3).
    destruct (store (lsf st) pos minlsf) as [l| |]; simpl in Hs2; try discriminate.
    injection Hs2 as <-. reflexivity. }
  injection Hs2 as <-.
  unfold clamp_max in Hs3. rewrite Hlo in Hs3; simpl in Hs3.
  destruct (lo >? maxlsf)%F eqn:Hmax; [|discriminate].
  destruct (store (lsf st) pos maxlsf) as [l| |]; simpl in Hs3; try discriminate.
  injection Hs3 as <-. reflexivity.
Qed.

Section Table.

Variable table : list float.
Variables dim NoAn : Z.
Hypothesis NoAn_nonneg : 0 <= NoAn.
Hypothesis table_length : Z.of_nat (length table) = NoAn * dim.

Lemma table_pos_bounds m k :
  0 <= m < NoAn -> 0 <= k < dim - 1 ->
  0 <= m * dim + k /\ m * dim + k + 1 < Z.of_nat (length table).
Proof using table_length.
  intros Hm Hk. clear NoAn_nonneg.
  assert (0 <= m * dim) by (apply Z.mul_nonneg_nonneg; lia).
  assert ((m + 1) * dim <= NoAn * dim) by (apply Z.mul_le_mono_nonneg_r; lia).
  lia.
Qed.

(** A pass over a table on which every test passes does nothing. *)
Lemma check_pass_pass st :
  length (lsf st) = length table ->
  all_pass (lsf st) dim NoAn -> check_pass dim NoAn st = Done st.
Proof using table_length NoAn_nonneg.
  intros L Hall. unfold check_pass.
  match goal with |- for_loop 0 NoAn ?b st = _ =>
    destruct (for_loop_preserves (fun t => t = st) b 0 NoAn st eq_refl) as (t & -> & ->) end;
    [|reflexivity].
  intros m t Hm ->. exists st. split; [|reflexivity]. unfold check_vector.
  match goal with |- for_loop 0 (dim - 1) ?b st = _ =>
    destruct (for_loop_preserves (fun t => t = st) b 0 (dim - 1) st eq_refl) as (t & -> & ->) end;
    [|reflexivity].
  intros k t Hk ->. exists st. split; [|reflexivity].
  destruct (table_pos_bounds m k Hm Hk) as [B0 B1].
  destruct (load_in_bounds (lsf st) (m * dim + k) ltac:(lia)) as [lo Hlo].
  destruct (load_in_bounds (lsf st) (m * dim + k + 1) ltac:(lia)) as [hi Hhi].
  apply (check_pos_pass _ _ lo hi Hlo Hhi). now apply (Hall m k).
Qed.

(** One body of the inner loop keeps the flag down only where the
    tests pass on the table passed in. *)
Lemma check_pos_flag m k st :
  guard_invariant table st ->
  0 <= m < NoAn -> 0 <= k < dim - 1 ->
  exists st',
    check_pos (m * dim + k) st = Done st' /\ guard_invariant table st' /\
    (change st' = 0 ->
     st' = st /\
     forall lo hi, load table (m * dim + k) = Done lo ->
       load table (m * dim + k + 1) = Done hi -> passes lo hi = true).
Proof using table_length.
  intros G Hm Hk.
  destruct (table_pos_bounds m k Hm Hk) as [B0 B1].
  destruct (check_pos_keeps table (m * dim + k) st G B0 B1) as (st' & _ & Hrun & G' & _).
  exists st'. split; [exact Hrun|]. split; [exact G'|]. intros C.
  destruct G as (L & _ & F).
  destruct (load_in_bounds (lsf st) (m * dim + k) ltac:(lia)) as [lo Hlo].
  destruct (load_in_bounds (lsf st) (m * dim + k + 1) ltac:(lia)) as [hi Hhi].
  destruct (passes lo hi) eqn:Hp.
  - rewrite (check_pos_pass _ _ lo hi Hlo Hhi Hp) in Hrun. injection Hrun as <-.
    split; [reflexivity|]. intros lo' hi' Hlo' Hhi'.
    destruct F as [(_ & _ & E)|(C' & _)]; [|lia].
    rewrite E in Hlo, Hhi. congruence.
  - destruct (check_pos_repair _ _ lo hi B0 Hlo Hhi Hp) as (st'' & Hrun' & C').
    rewrite Hrun in Hrun'. injection Hrun' as <-. lia.
Qed.

(** A pass returns; it keeps the flag down only when every test passes
    on the table passed in. *)
Lemma check_pass_flag st :
  guard_invariant table st ->
  exists st',
    check_pass dim NoAn st = Done st' /\ guard_invariant table st' /\
    (change st' = 0 -> all_pass table dim NoAn).
Proof using table_length NoAn_nonneg.
  intros G. unfold check_pass.
  pose (P := fun (m : Z) (t : state) =>
    guard_invariant table t /\
    (change t = 0 ->
     forall m' k lo hi, 0 <= m' < m -> 0 <= k < dim - 1 ->
       load table (m' * dim + k) = Done lo -> load table (m' * dim + k + 1) = Done hi ->
       passes lo hi = true)).
  match goal with |- context [for_loop 0 NoAn ?b st] =>
    destruct (for_loop_invariant P b 0 NoAn st NoAn_nonneg) as (st' & Hrun & G' & HP) end.
  - split; [exact G|]. intros; lia.
  - intros m t Hm (Gt & Ht). unfold check_vector.
    destruct (Z.le_gt_cases 0 (dim - 1)) as [Hdim|Hdim].
    2:{ rewrite for_loop_empty by lia. exists t. split; [reflexivity|].
        split; [exact Gt|]. intros C m' k lo hi Hm' Hk. lia. }
    pose (Q := fun (k : Z) (u : state) =>
      guard_invariant table u /\
      (change u = 0 ->
       change t = 0 /\
       forall k' lo hi, 0 <= k' < k ->
         load table (m * dim + k') = Done lo -> load table (m * dim + k' + 1) = Done hi ->
         passes lo hi = true)).
    match goal with |- context [for_loop 0 (dim - 1) ?b t] =>
      destruct (for_loop_invariant Q b 0 (dim - 1) t Hdim) as (t' & Hrun & Gt' & HQ) end.
    + split; [exact Gt|]. intros C. split; [exact C|]. intros; lia.
    + intros k u Hk (Gu & Hu).
      destruct (check_pos_flag m k u Gu Hm Hk) as (u' & Hstep & Gu' & Hflag).
      exists u'. split; [exact Hstep|]. split; [exact Gu'|]. intros C.
      destruct (Hflag C) as [-> Hpos]. destruct (Hu C) as [Ct Hprev].
      split; [exact Ct|]. intros k' lo hi Hk'.
      destruct (Z.eq_dec k' k) as [->|Hne]; [apply Hpos|apply Hprev; lia].
    + exists t'. split; [exact Hrun|]. split; [exact Gt'|]. intros C.
      destruct (HQ C) as [Ct Hrow]. intros m' k lo hi Hm' Hk.
      destruct (Z.eq_dec m' m) as [->|Hne]; [apply Hrow; exact Hk|apply (Ht Ct); lia].
  - exists st'. split; [exact Hrun|]. split; [exact G'|]. intros C m k lo hi Hm Hk.
    apply (HP C); lia.
Qed.

End Table.

End LsfStable.

(** X22.  The value returned is [0] or [1], and it is [0] exactly when
    every position checked passes the three tests on the table passed
    in: the next coefficient is at least [eps] above, and the
    coefficient is neither below [minlsf] nor above [maxlsf].  Such a
    table is returned as it is. *)
Theorem LSF_check_passes (table : list float) (dim NoAn : Z) :
  0 <= NoAn ->
  Z.of_nat (length table) = NoAn * dim ->
  exists c table',
    LSF_check table dim NoAn = Done (c, table') /\
    (c = 0 \/ c = 1) /\
    (c = 0 <-> all_pass table dim NoAn) /\
    (all_pass table dim NoAn -> table' = table).
Proof.
  intros HN Hlen.
  set (st0 := {| Lsf.lsf := table; Lsf.change := 0; Lsf.repairs := [] |}).
  assert (guard_invariant table st0) as G0 by (repeat split; auto).
  destruct (check_pass_flag table dim NoAn HN Hlen st0 G0) as (st1 & Hrun1 & G1 & H1).
  destruct (check_pass_flag table dim NoAn HN Hlen st1 G1) as (st2 & Hrun2 & G2 & H2).
  assert (Lsf.run table dim NoAn = Done st2) as Hrun.
  { unfold Lsf.run, for_loop. simpl. fold st0. rewrite Hrun1. simpl. rewrite Hrun2. reflexivity. }
  assert (all_pass table dim NoAn -> st2 = st0) as Hstable.
  { intros Hall.
    rewrite (check_pass_pass table dim NoAn HN Hlen st0 eq_refl Hall) in Hrun1. injection Hrun1 as <-.
    rewrite (check_pass_pass table dim NoAn HN Hlen st0 eq_refl Hall) in Hrun2. now injection Hrun2 as <-. }
  exists (Lsf.change st2), (Lsf.lsf st2). unfold LSF_check. rewrite Hrun. simpl.
  split; [reflexivity|]. split; [|split; [split|]].
  - destruct G2 as (_ & _ & [(C & _)|(C & _)]); auto.
  - exact H2.
  - intros Hall. now rewrite (Hstable Hall).
  - intros Hall. now rewrite (Hstable Hall).
Qed.

(** [LSF_check_passes] on the table [1, 2, 3]. *)
Lemma LSF_check_passes_witness :
  exists c table',
    LSF_check [B32.of_Z 1; B32.of_Z 2; B32.of_Z 3] 3 1 = Done (c, table') /\
    (c = 0 \/ c = 1) /\
    (c = 0 <-> all_pass [B32.of_Z 1; B32.of_Z 2; B32.of_Z 3] 3 1) /\
    (all_pass [B32.of_Z 1; B32.of_Z 2; B32.of_Z 3] 3 1 ->
     table' = [B32.of_Z 1; B32.of_Z 2; B32.of_Z 3]).
Proof.
  apply LSF_check_passes.
  - lia.
  - reflexivity.
Defined.

(** *** Numbers in the table *)

Lemma numbers_all_numbers buf : numbers buf -> all_numbers buf = true.
Proof.
  intros H. unfold all_numbers. apply forallb_forall. intros v Hv.
  apply list_elem_of_In, list_elem_of_lookup in Hv as [n Hn].
  apply negb_true_iff, (H (Z.of_nat n)). unfold load.
  destruct (Z.ltb_spec (Z.of_nat n) 0); [lia|]. now rewrite Nat2Z.id, Hn.
Qed.

(** X23.  The guard makes no NaN: a table of numbers, infinities
    included, is returned as a table of numbers of the same
    length. *)
Theorem LSF_check_keeps_numbers (table : list float) (dim NoAn : Z) :
  0 <= NoAn ->
  Z.of_nat (length table) = NoAn * dim ->
  all_numbers table = true ->
  exists c table',
    LSF_check table dim NoAn = Done (c, table') /\
    length table' = length table /\
    all_numbers table' = true.
Proof.
  intros HN Hlen Hnum.
  destruct (run_spec table dim NoAn HN Hlen) as (st & Hrun & (L & N & _) & _).
  exists (Lsf.change st), (Lsf.lsf st). unfold LSF_check. rewrite Hrun. simpl.
  split; [reflexivity|]. split; [exact L|].
  apply numbers_all_numbers, N, all_numbers_spec, Hnum.
Qed.

(** [LSF_check_keeps_numbers] on a vector with both infinities. *)
Lemma LSF_check_keeps_numbers_witness :
  exists c table',
    LSF_check [S754_infinity false; B32.of_Z 1; S754_infinity true] 3 1 = Done (c, table') /\
    length table' = length [S754_infinity false; B32.of_Z 1; S754_infinity true] /\
    all_numbers table' = true.
Proof.
  apply LSF_check_keeps_numbers.
  - lia.
  - reflexivity.
  - reflexivity.
Defined.

(** X24.  With [dim <= 1] or [NoAn <= 0] no position is checked: the
    guard returns [0] and the table as it is, whatever it holds and
    however long it is.  With [NoAn <= 0] the bound [dim - 1] of the
    inner loop is not evaluated; otherwise it is, and [dim] is to be
    above [INT_MIN]. *)
Theorem LSF_check_nothing_to_check (table : list float) (dim NoAn : Z) :
  INT_MIN < dim <= 1 \/ NoAn <= 0 ->
  LSF_check table dim NoAn = Done (0, table).
Proof.
  intros H. unfold LSF_check, Lsf.run.
  set (st0 := {| Lsf.lsf := table; Lsf.change := 0; Lsf.repairs := [] |}).
  assert (forall st, Lsf.check_pass dim NoAn st = Done st) as Hpass.
  { intros st. unfold Lsf.check_pass. destruct H as [H|H].
    - match goal with |- for_loop 0 NoAn ?b st = _ =>
        destruct (for_loop_preserves (fun t => t = st) b 0 NoAn st eq_refl) as (t & -> & ->) end;
        [|reflexivity].
      intros m t _ ->. exists st. split; [|reflexivity].
      unfold Lsf.check_vector. apply for_loop_empty. lia.
    - apply for_loop_empty. lia. }
  unfold for_loop. simpl. rewrite Hpass. simpl. rewrite Hpass. reflexivity.
Qed.

(** [LSF_check_nothing_to_check] on two vectors of one coefficient,
    both outside of the valid range. *)
Lemma LSF_check_nothing_to_check_witness :
  LSF_check [B32.of_Z 5; B32.of_Z (-5)] 1 2 = Done (0, [B32.of_Z 5; B32.of_Z (-5)]).
Proof. apply LSF_check_nothing_to_check. left. split; [reflexivity|lia]. Defined.

(** ** The flag of the stability guard *)

(** *** Sums and differences with the two thresholds *)

Module B32Steps.
Import B32 B32Value Lsf.



End B32Steps.

(** *** A failed test changes the table *)

Section StepChanges.

Import Lsf.







End StepChanges.

(** *** The positions visited *)

Section Visits.

Import Lsf.







Variable table : list float.
Variables dim NoAn : Z.
Hypothesis NoAn_nonneg : 0 <= NoAn.
Hypothesis table_length : Z.of_nat (length table) = NoAn * dim.




End Visits.



(** ** The analysis of a silent frame *)

Lemma all_zero_loads buf :
  (forall i v, load buf i = Done v -> B32.is_zero v = true) -> all_zero buf = true.
Proof.
  intros H. unfold all_zero. apply forallb_forall. intros v Hv.
  apply list_elem_of_In, list_elem_of_lookup in Hv as [n Hn].
  apply (H (Z.of_nat n)). unfold load.
  destruct (Z.ltb_spec (Z.of_nat n) 0); [lia|]. now rewrite Nat2Z.id, Hn.
Qed.

Lemma all_zero_load buf i v :
  all_zero buf = true -> load buf i = Done v -> B32.is_zero v = true.
Proof.
  unfold all_zero. rewrite forallb_forall. intros H [_ Hv]%load_Done_inv.
  apply H, list_elem_of_In, list_elem_of_lookup. eauto.
Qed.

(** The lags of a frame of zeros are [+0]. *)
Lemma autocorr_of_zeros (r x : list float) (N order : Z) :
  Z.of_nat (length x) = N ->
  0 <= order ->
  order + 1 <= Z.of_nat (length r) ->
  all_zero x = true ->
  exists r',
    autocorr r x N order = Done r' /\
    length r' = length r /\
    forall l, 0 <= l <= order -> load r' l = Done B32.zero.
Proof.
  intros HN Hord Hr Hz. unfold autocorr.
  pose (P := fun (lag : Z) (r' : list float) =>
    length r' = length r /\
    forall l, 0 <= l < lag -> load r' l = Done B32.zero).
  match goal with |- context [for_loop 0 (order + 1) ?b r] =>
    destruct (for_loop_invariant P b 0 (order + 1) r ltac:(lia)) as (r' & Hrun & L & HP) end.
  - split; [reflexivity|]. intros; lia.
  - intros lag t Hlag (Lt & Ht).
    rewrite (autocorr_lag x N lag HN) by lia. simpl.
    rewrite store_in_bounds by lia.
    eexists. split; [reflexivity|]. split.
    + rewrite length_insert. exact Lt.
    + intros l Hl. destruct (Z.eq_dec l lag) as [->|Hne].
      * rewrite load_insert_eq by lia. f_equal.
        unfold autocorr_sum. apply sum_zeros.
        -- apply Forall_take, all_zero_Forall, Hz.
        -- apply Forall_take, Forall_drop, all_zero_Forall, Hz.
      * rewrite load_insert_ne by lia. apply Ht. lia.
  - exists r'. split; [exact Hrun|]. split; [exact L|]. intros l Hl. apply HP. lia.
Qed.

(** Below [EPS] the solver writes the flat filter. *)
Lemma levdurb_flat (EPS : float) (a k r : list float) (order : Z) (r0 : float) :
  0 <= order ->
  order + 1 <= Z.of_nat (length a) ->
  order <= Z.of_nat (length k) ->
  load r 0 = Done r0 ->
  (r0 <? EPS)%F = true ->
  exists a' k',
    levdurb EPS a k r order = Done (a', k') /\
    length a' = length a /\
    load a' 0 = Done B32.one /\
    (forall i, 1 <= i <= order -> load a' i = Done B32.zero) /\
    (forall i, 0 <= i < order -> load k' i = Done B32.zero).
Proof.
  intros Hord Ha Hk Hr0 Hlt. unfold levdurb.
  rewrite store_in_bounds by lia. simpl. rewrite Hr0. simpl. rewrite Hlt.
  pose (P := fun (j : Z) (ak : list float * list float) =>
    length (fst ak) = length a /\ length (snd ak) = length k /\
    load (fst ak) 0 = Done B32.one /\
    (forall i, 1 <= i <= j -> load (fst ak) i = Done B32.zero) /\
    (forall i, 0 <= i < j -> load (snd ak) i = Done B32.zero)).
  match goal with |- context [for_loop 0 order ?b ?s] =>
    destruct (for_loop_invariant P b 0 order s Hord) as ([a' k'] & Hrun & HP) end.
  - unfold P; simpl. rewrite length_insert.
    split; [reflexivity|]. split; [reflexivity|]. split; [apply load_insert_eq; lia|].
    split; intros; lia.
  - intros j [aj kj] Hj (Laj & Lkj & H0 & Haj & Hkj); simpl in *.
    rewrite store_in_bounds by lia. simpl. rewrite store_in_bounds by lia. simpl.
    eexists. split; [reflexivity|]. unfold P; simpl.
    rewrite !length_insert. split; [exact Laj|]. split; [exact Lkj|].
    split; [rewrite load_insert_ne by lia; exact H0|]. split.
    + intros i Hi. destruct (Z.eq_dec i (j + 1)) as [->|Hne].
      * apply load_insert_eq. lia.
      * rewrite load_insert_ne by lia. apply Haj. lia.
    + intros i Hi. destruct (Z.eq_dec i j) as [->|Hne].
      * apply load_insert_eq. lia.
      * rewrite load_insert_ne by lia. apply Hkj. lia.
  - exists a', k'. destruct HP as (La' & _ & H0 & Haj & Hkj). simpl in *. auto.
Qed.

(** X25.  The analysis of a silent frame: a frame of zeros under a window
    of real numbers stays a frame of zeros, its autocorrelation is [+0]
    at every lag, and for a positive [EPS] the solver returns the flat
    filter [a = (1, 0, .., 0)] with reflection coefficients [+0]. *)
Theorem silent_frame_analysis (EPS : float) (z x y r a k : list float) (N order : Z) :
  Z.of_nat (length x) = N ->
  Z.of_nat (length y) = N ->
  Z.of_nat (length z) = N ->
  0 <= order ->
  order + 1 <= Z.of_nat (length r) ->
  order + 1 <= Z.of_nat (length a) ->
  order <= Z.of_nat (length k) ->
  all_zero x = true ->
  all_finite y = true ->
  (B32.zero <? EPS)%F = true ->
  exists z' r' a' k',
    window z x y N = Done z' /\
    autocorr r z' N order = Done r' /\
    levdurb EPS a k r' order = Done (a', k') /\
    (forall l, 0 <= l <= order -> load r' l = Done B32.zero) /\
    load a' 0 = Done B32.one /\
    (forall i, 1 <= i <= order -> load a' i = Done B32.zero) /\
    (forall i, 0 <= i < order -> load k' i = Done B32.zero).
Proof.
  intros Hx Hy Hz Hord Hr Ha Hk Zx Fy HEPS.
  destruct (window_loop z x y N ltac:(lia) ltac:(lia) ltac:(lia)) as (z' & Hw & Lz & Hprod & _).
  assert (all_zero z' = true) as Zz.
  { apply all_zero_loads. intros i v Hv.
    destruct (load_Done_inv _ _ _ Hv) as [Hi _].
    destruct (load_in_bounds x i ltac:(lia)) as [xa Hxa].
    destruct (load_in_bounds y i ltac:(lia)) as [yb Hyb].
    rewrite (Hprod i xa yb ltac:(lia) Hxa Hyb) in Hv. injection Hv as <-.
    apply B32Round.mul_zero_l.
    - apply (all_zero_load x i); assumption.
    - apply (all_finite_load y i); assumption. }
  destruct (autocorr_of_zeros r z' N order ltac:(lia) Hord Hr Zz) as (r' & Hac & Lr & Hzero).
  destruct (levdurb_flat EPS a k r' order B32.zero Hord Ha Hk (Hzero 0 ltac:(lia)) HEPS)
    as (a' & k' & Hld & _ & H0 & Hflat & Hkz).
  exists z', r', a', k'. auto 10.
Qed.

(** [silent_frame_analysis] on the frame [+0, -0, +0] and the window
    [2, 2, -3], with [order = 2] and [EPS = 2^-52]. *)
Lemma silent_frame_analysis_witness :
  exists z' r' a' k',
    window [B32.one; B32.one; B32.one] [B32.zero; S754_zero true; B32.zero]
      [B32.two; B32.two; B32.of_Z (-3)] 3 = Done z' /\
    autocorr [B32.one; B32.one; B32.one] z' 3 2 = Done r' /\
    levdurb (B32.ldexp 1 (-52)) [B32.two; B32.two; B32.two] [B32.two; B32.two] r' 2
      = Done (a', k') /\
    (forall l, 0 <= l <= 2 -> load r' l = Done B32.zero) /\
    load a' 0 = Done B32.one /\
    (forall i, 1 <= i <= 2 -> load a' i = Done B32.zero) /\
    (forall i, 0 <= i < 2 -> load k' i = Done B32.zero).
Proof.
  apply silent_frame_analysis.
  - reflexivity.
  - reflexivity.
  - reflexivity.
  - lia.
  - simpl. lia.
  - simpl. lia.
  - simpl. lia.
  - reflexivity.
  - reflexivity.
  - reflexivity.
Defined.

(** ** The expanded filter *)

(** X26.  Bandwidth expansion keeps the leading [1.0] of the LPC vector:
    for every autocorrelation [r] the solver returns, and the expansion
    of its [order + 1] coefficients by any [coef] starts with
    [1.0]. *)
Theorem expanded_lpc_starts_with_one (EPS : float) (a k r out : list float)
    (coef : float) (order : Z) :
  1 <= order ->
  order + 1 <= Z.of_nat (length a) ->
  order <= Z.of_nat (length k) ->
  order + 1 <= Z.of_nat (length r) ->
  order + 1 <= Z.of_nat (length out) ->
  exists a' k' out',
    levdurb EPS a k r order = Done (a', k') /\
    bwexpand out a' coef (order + 1) = Done out' /\
    load out' 0 = Done B32.one.
Proof.
  intros Hord Ha Hk Hr Hout.
  destruct (load_in_bounds r 0 ltac:(lia)) as [r0 Hr0].
  destruct (load_in_bounds r 1 ltac:(lia)) as [r1 Hr1].
  assert (exists a' k', levdurb EPS a k r order = Done (a', k') /\
            length a' = length a /\ load a' 0 = Done B32.one) as (a' & k' & Hrun & La & H0).
  { destruct (r0 <? EPS)%F eqn:Hlt.
    - destruct (levdurb_flat EPS a k r order r0 ltac:(lia) Ha Hk Hr0 Hlt)
        as (a' & k' & Hrun & La & H0 & _).
      exists a', k'. auto.
    - destruct (levdurb_regular_run EPS a k r order r0 r1 Hord Ha Hk Hr Hr0 Hr1 Hlt)
        as (a' & k' & Hrun & La & _ & H0 & _).
      exists a', k'. auto. }
  destruct (bwexpand_loop out a' coef (order + 1) ltac:(lia) ltac:(lia) Hout)
    as (out' & Hbw & _ & Hfirst & _).
  exists a', k', out'. split; [exact Hrun|]. split; [exact Hbw|]. now rewrite Hfirst.
Qed.

(** [expanded_lpc_starts_with_one] on the autocorrelation [14, 8, 3]
    with [order = 2] and [coef = 0.5]. *)
Lemma expanded_lpc_starts_with_one_witness :
  exists a' k' out',
    levdurb (B32.ldexp 1 (-52)) [B32.zero; B32.zero; B32.zero] [B32.zero; B32.zero]
      [B32.of_Z 14; B32.of_Z 8; B32.of_Z 3] 2 = Done (a', k') /\
    bwexpand [B32.zero; B32.zero; B32.zero] a' half (2 + 1) = Done out' /\
    load out' 0 = Done B32.one.
Proof.
  apply expanded_lpc_starts_with_one.
  - lia.
  - simpl. lia.
  - simpl. lia.
  - simpl. lia.
  - simpl. lia.
Defined.
